(** * Hydrus Butler: the rule execution engine

    A shallow embedding of the rule execution engine (override resolver,
    action executor, sequential search splitting, execution order and
    deep-check cadence) together with the properties of its specification.

    Conventions of the embedding:
    - Python [int] is [Z]; Python [str] is [string], the bytes of the text
      in UTF-8; a Python [dict] used as a map is a [gmap]; a Python [set] is a [gset] and [list(s)] is
      [elements s] (the iteration order of a set is some fixed order);
    - a TEXT column holding JSON is a [json_text]: either the text of a value
      ([json_dumps v]) or text that [json.loads] rejects;
    - the remote API is an arbitrary state machine [respond]; every call is
      appended to a log so that the calls made can be counted and inspected. *)

From Stdlib Require Import ZArith Lia DecimalString.
From stdpp Require Import base option list sorting strings gmap sets fin_sets.

Set Warnings "-clear-no-such-hyp".

Open Scope string_scope.
Open Scope list_scope.
Open Scope Z_scope.

(** ** Python values and helpers *)

(** A JSON/Python value as far as the engine inspects it. *)
#[local] Unset Elimination Schemes.
Inductive PyVal :=
| PyNone
| PyInt (z : Z)
| PyStr (s : string)
| PyList (l : list PyVal).
#[local] Set Elimination Schemes.

(** [str(i)] for an integer. *)
Definition py_str_int (z : Z) : string := NilZero.string_of_int (Z.to_int z).

(** Truthiness of a string: [bool(s)]. *)
Definition truthy (s : string) : bool := negb (bool_decide (s = "")).

(** Truthiness of an optional string ([None] and [''] are falsy). *)
Definition truthy_opt (o : option string) : bool :=
  match o with Some s => truthy s | None => false end.

(** [a or b] on optional strings. *)
Definition py_or (a b : option string) : option string :=
  if truthy_opt a then a else b.

(** ** JSON text columns *)

Inductive json_text (A : Type) :=
| JsonOf (a : A)
| Malformed.
Arguments JsonOf {A} a.
Arguments Malformed {A}.

(** [json.loads]: [None] stands for [json.JSONDecodeError]. *)
Definition json_loads {A} (t : json_text A) : option A :=
  match t with JsonOf a => Some a | Malformed => None end.

Definition json_dumps {A} (a : A) : json_text A := JsonOf a.

(** ** rule_processing/context.py *)

Record Action := {
  action_type_field : option string;             (* action.get('type') *)
  rating_service_key : option string;            (* action.get('rating_service_key') *)
  destination_service_keys : option (list string) (* action.get('destination_service_keys') *)
}.

Record Service := {
  service_key : string;
  service_type : option Z
}.

Record HydrusSettings := {
  hydrus_api_url : option string;
  api_address : option string;
  hydrus_api_key : option string;
  api_key : option string
}.

Record RuleExecutionContext := {
  app_config : HydrusSettings;
  rule_id : string;
  rule_name : string;
  rule_importance : Z;
  action : Action;
  is_manual_run : bool;
  override_bypass_list : list string;
  deep_run_list : list string;
  available_services : list Service
}.

(** [self.action_type = self.action.get('type', 'unknown')] *)
Definition action_type (ctx : RuleExecutionContext) : string :=
  default "unknown" (action_type_field (action ctx)).

(** ** The [files] table (database.py) *)

Record FileRow := {
  row_rules_in_application : json_text (list string);
  row_force_in_priority_governance : Z;
  row_correct_placement : json_text (list string);
  row_affected_rating_services : json_text (list string);
  row_rating_priority_governance : json_text (gmap string Z);
  row_last_updated : string
}.

(** The table, keyed by its primary key [file_hash]. *)
Abbreviation FilesTable := (gmap string FileRow).

(** ** rule_processing/overrides.py *)

Module Overrides.

Record FileState := {
  rules_in_application : list string;
  force_in_priority_governance : Z;
  correct_placement : list string;
  affected_rating_services : list string;
  rating_priority_governance : gmap string Z
}.

Definition _get_default_file_state : FileState :=
  {| rules_in_application := [];
     force_in_priority_governance := -1;
     correct_placement := [];
     affected_rating_services := [];
     rating_priority_governance := ∅ |}.

Inductive Status := run | skipped.

Definition governed (t : string) : bool :=
  bool_decide (t ∈ ["add_to"; "force_in"; "modify_rating"]).

Definition check_override (ctx : RuleExecutionContext) (files : FilesTable)
    (file_hash : string) : Status * option string :=
  if bool_decide (rule_id ctx ∈ override_bypass_list ctx) then
    (run, Some "Override bypassed by user for manual run.")
  else if negb (governed (action_type ctx)) then
    (run, Some "Action type does not use the override system.")
  else
    match files !! file_hash with
    | None => (run, Some "File is not yet tracked in the override system.")
    | Some file_state_row =>
      let force_in_priority_governance :=
        row_force_in_priority_governance file_state_row in
      match json_loads (row_rating_priority_governance file_state_row) with
      | None => (run, Some "File has corrupted state data.")
      | Some rating_priority_governance =>
        if bool_decide (action_type ctx = "modify_rating") then
          match rating_service_key (action ctx) with
          | Some rating_service_key =>
            if truthy rating_service_key then
              let winning_priority :=
                default (-1) (rating_priority_governance !! rating_service_key) in
              if bool_decide (rule_importance ctx > winning_priority) then (run, None)
              else (skipped,
                    Some ("A rule with priority " +:+ py_str_int winning_priority +:+
                          " or higher has already won for this rating service."))
            else (run, Some "Modify_rating action is missing a service key.")
          | None => (run, Some "Modify_rating action is missing a service key.")
          end
        else if bool_decide (action_type ctx = "add_to") then
          if bool_decide (rule_importance ctx >= force_in_priority_governance) then (run, None)
          else (skipped,
                Some ("A 'force_in' rule with higher priority (" +:+
                      py_str_int force_in_priority_governance +:+
                      ") governs this file's placement."))
        else if bool_decide (action_type ctx = "force_in") then
          if bool_decide (rule_importance ctx > force_in_priority_governance) then (run, None)
          else (skipped,
                Some ("Another 'force_in' rule with priority " +:+
                      py_str_int force_in_priority_governance +:+
                      " or higher has already won."))
        else (skipped, Some "")
      end
    end.

(** *** The row as [sqlite3.Row] delivers it

    [get_db_connection] sets [row_factory = sqlite3.Row] and the resolver
    reads [SELECT * FROM files]: the row carries the columns the table has
    in the database file.  [init_db] creates the table only when there is
    none ([CREATE TABLE IF NOT EXISTS]), so a table of another layout is
    kept as it is.  [row[name]] raises [IndexError] for a name that is no
    column of the row; a column is [None] here when the row does not have
    it. *)
Record SqliteRow := {
  col_rules_in_application : option (json_text (list string));
  col_force_in_priority_governance : option Z;
  col_correct_placement : option (json_text (list string));
  col_affected_rating_services : option (json_text (list string));
  col_rating_priority_governance : option (json_text (gmap string Z));
  col_last_updated : option string
}.

(** A row of the table as [init_db] creates it: every column is there. *)
Definition sqlite_row (r : FileRow) : SqliteRow :=
  {| col_rules_in_application := Some (row_rules_in_application r);
     col_force_in_priority_governance := Some (row_force_in_priority_governance r);
     col_correct_placement := Some (row_correct_placement r);
     col_affected_rating_services := Some (row_affected_rating_services r);
     col_rating_priority_governance := Some (row_rating_priority_governance r);
     col_last_updated := Some (row_last_updated r) |}.

(** A call returns a value, or [IndexError] leaves it: the handler of
    [check_override] names [KeyError] and [json.JSONDecodeError] only. *)
Inductive Outcome (A : Type) :=
| Returns (a : A)
| RaisesIndexError.
Arguments Returns {A} a.
Arguments RaisesIndexError {A}.

(** [check_override] on the row that [fetchone()] delivered, [None] when
    the file has no row.  The two columns are read in the order of the
    source, [force_in_priority_governance] first. *)
Definition check_override_row (ctx : RuleExecutionContext)
    (file_state_row : option SqliteRow) : Outcome (Status * option string) :=
  if bool_decide (rule_id ctx ∈ override_bypass_list ctx) then
    Returns (run, Some "Override bypassed by user for manual run.")
  else if negb (governed (action_type ctx)) then
    Returns (run, Some "Action type does not use the override system.")
  else
    match file_state_row with
    | None => Returns (run, Some "File is not yet tracked in the override system.")
    | Some file_state_row =>
      match col_force_in_priority_governance file_state_row with
      | None => RaisesIndexError
      | Some force_in_priority_governance =>
        match col_rating_priority_governance file_state_row with
        | None => RaisesIndexError
        | Some text =>
          match json_loads text with
          | None => Returns (run, Some "File has corrupted state data.")
          | Some rating_priority_governance =>
            if bool_decide (action_type ctx = "modify_rating") then
              match rating_service_key (action ctx) with
              | Some rating_service_key =>
                if truthy rating_service_key then
                  let winning_priority :=
                    default (-1) (rating_priority_governance !! rating_service_key) in
                  if bool_decide (rule_importance ctx > winning_priority)
                  then Returns (run, None)
                  else Returns
                         (skipped,
                          Some ("A rule with priority " +:+ py_str_int winning_priority +:+
                                " or higher has already won for this rating service."))
                else Returns (run, Some "Modify_rating action is missing a service key.")
              | None => Returns (run, Some "Modify_rating action is missing a service key.")
              end
            else if bool_decide (action_type ctx = "add_to") then
              if bool_decide (rule_importance ctx >= force_in_priority_governance)
              then Returns (run, None)
              else Returns
                     (skipped,
                      Some ("A 'force_in' rule with higher priority (" +:+
                            py_str_int force_in_priority_governance +:+
                            ") governs this file's placement."))
            else if bool_decide (action_type ctx = "force_in") then
              if bool_decide (rule_importance ctx > force_in_priority_governance)
              then Returns (run, None)
              else Returns
                     (skipped,
                      Some ("Another 'force_in' rule with priority " +:+
                            py_str_int force_in_priority_governance +:+
                            " or higher has already won."))
            else Returns (skipped, Some "")
          end
        end
      end
    end.

(** The stored state of a row cannot be parsed: a column the resolver reads
    is missing, or the rating column does not hold valid JSON (the other
    priority field is an integer column). *)
Definition unparsable (row : SqliteRow) : Prop :=
  col_force_in_priority_governance row = None
  ∨ col_rating_priority_governance row = None
  ∨ col_rating_priority_governance row = Some Malformed.

(** Failing open as the specification words it: whatever makes the state
    of an existing row unparsable, the answer is [run]. *)
Definition fails_open_on_unparsable_state : Prop :=
  ∀ (ctx : RuleExecutionContext) (row : SqliteRow),
    unparsable row →
    ∃ reason, check_override_row ctx (Some row) = Returns (run, reason).

(** Step 1 of [update_state_after_success]: load the existing state, or start
    from the default state when the row is absent or any column is corrupt. *)
Definition load_state (row : option FileRow) : FileState :=
  match row with
  | Some r =>
    match json_loads (row_rules_in_application r),
          json_loads (row_correct_placement r),
          json_loads (row_affected_rating_services r),
          json_loads (row_rating_priority_governance r) with
    | Some ria, Some cp, Some ars, Some rpg =>
      {| rules_in_application := ria;
         force_in_priority_governance := row_force_in_priority_governance r;
         correct_placement := cp;
         affected_rating_services := ars;
         rating_priority_governance := rpg |}
    | _, _, _, _ => _get_default_file_state
    end
  | None => _get_default_file_state
  end.

(** [if x not in l: l.append(x)] *)
Definition append_if_absent (x : string) (l : list string) : list string :=
  if bool_decide (x ∈ l) then l else l ++ [x].

(** The [add_to] loop: [for key in dest_keys: if key and key not in p: p.append(key)]. *)
Definition add_placements (dest_keys : list string) (placement : list string) : list string :=
  foldl (fun p key => if truthy key then append_if_absent key p else p) placement dest_keys.

(** Step 2: mutate the state according to the successful action. *)
Definition mutate_state (ctx : RuleExecutionContext) (state : FileState) : FileState :=
  let state :=
    {| rules_in_application := append_if_absent (rule_id ctx) (rules_in_application state);
       force_in_priority_governance := force_in_priority_governance state;
       correct_placement := correct_placement state;
       affected_rating_services := affected_rating_services state;
       rating_priority_governance := rating_priority_governance state |} in
  if bool_decide (action_type ctx = "modify_rating") then
    match rating_service_key (action ctx) with
    | Some k =>
      if truthy k then
        {| rules_in_application := rules_in_application state;
           force_in_priority_governance := force_in_priority_governance state;
           correct_placement := correct_placement state;
           affected_rating_services := append_if_absent k (affected_rating_services state);
           rating_priority_governance :=
             <[k := rule_importance ctx]> (rating_priority_governance state) |}
      else state
    | None => state
    end
  else if bool_decide (action_type ctx = "add_to") then
    let dest_keys := default [] (destination_service_keys (action ctx)) in
    {| rules_in_application := rules_in_application state;
       force_in_priority_governance := force_in_priority_governance state;
       correct_placement := add_placements dest_keys (correct_placement state);
       affected_rating_services := affected_rating_services state;
       rating_priority_governance := rating_priority_governance state |}
  else if bool_decide (action_type ctx = "force_in") then
    let dest_keys := default [] (destination_service_keys (action ctx)) in
    {| rules_in_application := rules_in_application state;
       force_in_priority_governance := rule_importance ctx;
       correct_placement := filter (fun key => truthy key = true) dest_keys;
       affected_rating_services := affected_rating_services state;
       rating_priority_governance := rating_priority_governance state |}
  else state.

(** Step 3: the row written by [INSERT OR REPLACE]. *)
Definition row_of_state (state : FileState) (now : string) : FileRow :=
  {| row_rules_in_application := json_dumps (rules_in_application state);
     row_force_in_priority_governance := force_in_priority_governance state;
     row_correct_placement := json_dumps (correct_placement state);
     row_affected_rating_services := json_dumps (affected_rating_services state);
     row_rating_priority_governance := json_dumps (rating_priority_governance state);
     row_last_updated := now |}.

Definition update_state_after_success (ctx : RuleExecutionContext) (now : string)
    (files : FilesTable) (file_hash : string) : FilesTable :=
  if negb (governed (action_type ctx)) then files
  else
    let state := load_state (files !! file_hash) in
    <[file_hash := row_of_state (mutate_state ctx state) now]> files.

(** The governance record stored for a file: defined when the row exists and
    every JSON column decodes. *)
Definition stored_record (files : FilesTable) (file_hash : string) : option FileState :=
  r ← files !! file_hash;
  ria ← json_loads (row_rules_in_application r);
  cp ← json_loads (row_correct_placement r);
  ars ← json_loads (row_affected_rating_services r);
  rpg ← json_loads (row_rating_priority_governance r);
  Some {| rules_in_application := ria;
          force_in_priority_governance := row_force_in_priority_governance r;
          correct_placement := cp;
          affected_rating_services := ars;
          rating_priority_governance := rpg |}.


(** One orchestrator step for a file whose action succeeded: the file is
    filtered through [check_override] and, when admitted, the state is
    updated. *)
Definition successful_action (ctx : RuleExecutionContext) (now : string)
    (files : FilesTable) (file_hash : string) : FilesTable :=
  match check_override ctx files file_hash with
  | (run, _) => update_state_after_success ctx now files file_hash
  | (skipped, _) => files
  end.

(** The governance record a rule finds for a file: the default record when
    the file is not tracked yet, the stored one when its row decodes. *)
Definition governance_record (files : FilesTable) (file_hash : string) : option FileState :=
  match files !! file_hash with
  | None => Some _get_default_file_state
  | Some _ => stored_record files file_hash
  end.

(** A [modify_rating] action that targets the rating service [svc]. *)
Definition targets_rating (ctx : RuleExecutionContext) (svc : string) : Prop :=
  action_type ctx = "modify_rating" ∧ rating_service_key (action ctx) = Some svc.

(** The successive successful actions of a list of rule executions on one file. *)
Definition successive_actions (runs : list (RuleExecutionContext * string))
    (files : FilesTable) (file_hash : string) : FilesTable :=
  foldl (fun files r => successful_action r.1 r.2 files file_hash) files runs.


End Overrides.

(** ** app_config.py: merged rules and their execution order *)

(** A rule of rules.json. *)
Record RawRule := {
  raw_id : string;
  raw_name : string;
  raw_priority : option Z;       (* the 'priority' field, when present *)
  raw_action : Action
}.

(** A row of the [rules] table. *)
Record DbRule := {
  db_creation_timestamp : string;
  db_interval_seconds : PyVal;
  db_force_in_check_frequency : string;
  db_force_in_check_interval_runs : PyVal;
  db_run_count : Z;
  db_has_been_run : Z
}.

(** The merged rule dictionary that [load_rules] builds. *)
Record Rule := {
  id : string;
  name : string;
  priority : option Z;                     (* rule.get('priority') *)
  rule_action : Action;                    (* rule.get('action', {}) *)
  creation_timestamp : string;
  interval_seconds : PyVal;
  force_in_check_frequency : option string;
  force_in_check_interval_runs : PyVal;
  run_count : Z;
  has_been_run : bool
}.

Module AppConfig.

(** The sort key: [(importance_number, is_not_force_in_flag, creation_timestamp)]. *)
Definition SortKey : Type := Z * Z * string.

Definition _get_rule_sort_key (rule : Rule) : SortKey :=
  let importance_number := default 1 (priority rule) in
  let action_type := default "" (action_type_field (rule_action rule)) in
  let is_not_force_in_flag := if bool_decide (action_type = "force_in") then 0 else 1 in
  (importance_number, is_not_force_in_flag, creation_timestamp rule).

(** Python's [<] on these tuples: lexicographic, strings by code point. *)
Definition key_ltb (k1 k2 : SortKey) : bool :=
  match k1, k2 with
  | (i1, f1, t1), (i2, f2, t2) =>
    if bool_decide (i1 = i2) then
      if bool_decide (f1 = f2) then String.ltb t1 t2
      else bool_decide (f1 < f2)
    else bool_decide (i1 < i2)
  end.

(** [sorted(l, key=key)]: Python's sort is stable and compares keys with
    [<] only; a stable insertion sort computes the same list. *)
Section PySorted.
Context {A K : Type} (ltb : K → K → bool) (key : A → K).

Fixpoint insert_sorted (x : A) (l : list A) : list A :=
  match l with
  | [] => [x]
  | y :: l' => if ltb (key y) (key x) then y :: insert_sorted x l'
               else x :: y :: l'
  end.

Definition py_sorted (l : list A) : list A := foldr insert_sorted [] l.
End PySorted.

Definition _sort_rules_for_execution (rules : list Rule) : list Rule :=
  py_sorted key_ltb _get_rule_sort_key rules.

Definition merge_rule (rule_from_json : RawRule) (db_record : DbRule) : Rule :=
  {| id := raw_id rule_from_json;
     name := raw_name rule_from_json;
     priority := raw_priority rule_from_json;
     rule_action := raw_action rule_from_json;
     creation_timestamp := db_creation_timestamp db_record;
     interval_seconds := db_interval_seconds db_record;
     force_in_check_frequency := Some (db_force_in_check_frequency db_record);
     force_in_check_interval_runs := db_force_in_check_interval_runs db_record;
     run_count := db_run_count db_record;
     has_been_run := negb (bool_decide (db_has_been_run db_record = 0)) |}.

(** [load_rules]: merge the rules of rules.json with the [rules] table
    (a rule without a row is skipped) and sort them for execution.  The
    parsed [execution_override] is carried along by the source but plays no
    part in the order and is left out of [Rule]. *)
Definition load_rules (raw_rules : list RawRule) (db_rules_map : gmap string DbRule)
    : list Rule :=
  let merged_rules :=
    omap (fun rule_from_json =>
            merge_rule rule_from_json <$> db_rules_map !! raw_id rule_from_json)
         raw_rules in
  _sort_rules_for_execution merged_rules.

(** The order on sort keys, and a list of rules in cross-rule execution
    order: ascending by importance, then force_in first, then creation time. *)
Definition key_le (k1 k2 : SortKey) : Prop := key_ltb k2 k1 = false.

Definition in_execution_order (rules : list Rule) : Prop :=
  StronglySorted (fun a b => key_le (_get_rule_sort_key a) (_get_rule_sort_key b)) rules.

End AppConfig.

(** ** database.py: clearing a rule from the governance records *)

Module Database.

(** [l.remove(x)] guarded by [x in l]: the first occurrence of [x] goes. *)
Fixpoint remove_first (x : string) (l : list string) : list string :=
  match l with
  | [] => []
  | y :: l' => if bool_decide (y = x) then l' else y :: remove_first x l'
  end.

Section Like.
(** [rules_in_application LIKE '%"<id>"%'] on the stored text of the column. *)
Context (like_matches : string → json_text (list string) → bool).

(** The body of the loop over the affected rows; [None] stands for
    [json.JSONDecodeError]. *)
Definition clear_row (edited_rule_id old_type old_dest now : string) (row : FileRow)
    : option FileRow :=
  rules_app ← json_loads (row_rules_in_application row);
  placements ← json_loads (row_correct_placement row);
  rating_services ← json_loads (row_affected_rating_services row);
  rating_gov ← json_loads (row_rating_priority_governance row);
  let force_in_gov := row_force_in_priority_governance row in
  let rules_app := remove_first edited_rule_id rules_app in
  if bool_decide (old_type = "rating") then
    Some {| row_rules_in_application := json_dumps rules_app;
            row_force_in_priority_governance := force_in_gov;
            row_correct_placement := json_dumps placements;
            row_affected_rating_services := json_dumps (remove_first old_dest rating_services);
            row_rating_priority_governance := json_dumps (delete old_dest rating_gov);
            row_last_updated := now |}
  else if bool_decide (old_type = "force_in") then
    Some {| row_rules_in_application := json_dumps rules_app;
            row_force_in_priority_governance := -1;
            row_correct_placement := json_dumps (remove_first old_dest placements);
            row_affected_rating_services := json_dumps rating_services;
            row_rating_priority_governance := json_dumps rating_gov;
            row_last_updated := now |}
  else if bool_decide (old_type = "add_to") then
    Some {| row_rules_in_application := json_dumps rules_app;
            row_force_in_priority_governance := force_in_gov;
            row_correct_placement := json_dumps (remove_first old_dest placements);
            row_affected_rating_services := json_dumps rating_services;
            row_rating_priority_governance := json_dumps rating_gov;
            row_last_updated := now |}
  else
    Some {| row_rules_in_application := json_dumps rules_app;
            row_force_in_priority_governance := force_in_gov;
            row_correct_placement := json_dumps placements;
            row_affected_rating_services := json_dumps rating_services;
            row_rating_priority_governance := json_dumps rating_gov;
            row_last_updated := now |}.

(** The returned count (-1 after a rollback) and the table afterwards;
    [now h] is the clock reading when the row of [h] is written. *)
Definition clear_rule_from_file_state (files : FilesTable)
    (edited_rule_id edited_rule_old_type edited_rule_old_destination : string)
    (now : string → string) : Z * FilesTable :=
  let affected_files :=
    filter (fun kv => like_matches edited_rule_id (row_rules_in_application kv.2) = true)
           files in
  let cleared h row :=
    clear_row edited_rule_id edited_rule_old_type edited_rule_old_destination (now h) row in
  if bool_decide (affected_files = ∅) then (0, files)
  else if bool_decide (map_Forall (fun h row => is_Some (cleared h row)) affected_files)
  then (Z.of_nat (size affected_files), map_imap cleared affected_files ∪ files)
  else (-1, files).

End Like.

(** The LIKE test agrees with membership on the text of a list: the case of
    rule ids without quotes, backslashes or wildcard characters. *)
Definition like_decoded (like_matches : string → json_text (list string) → bool) : Prop :=
  ∀ rule_id l, like_matches rule_id (JsonOf l) = bool_decide (rule_id ∈ l).

(** Every row of the table decodes, and lists no rule twice. *)
Definition rows_decode (files : FilesTable) : Prop :=
  ∀ h row, files !! h = Some row →
    ∃ st, Overrides.stored_record files h = Some st
          ∧ NoDup (Overrides.rules_in_application st).

(** The record [clear_row] leaves for a decoded record. *)
Definition cleared_state (edited_rule_id old_type old_dest : string)
    (st : Overrides.FileState) : Overrides.FileState :=
  {| Overrides.rules_in_application :=
       remove_first edited_rule_id (Overrides.rules_in_application st);
     Overrides.force_in_priority_governance :=
       if bool_decide (old_type = "force_in") then -1
       else Overrides.force_in_priority_governance st;
     Overrides.correct_placement :=
       if bool_decide (old_type = "force_in") || bool_decide (old_type = "add_to")
       then remove_first old_dest (Overrides.correct_placement st)
       else Overrides.correct_placement st;
     Overrides.affected_rating_services :=
       if bool_decide (old_type = "rating")
       then remove_first old_dest (Overrides.affected_rating_services st)
       else Overrides.affected_rating_services st;
     Overrides.rating_priority_governance :=
       if bool_decide (old_type = "rating")
       then delete old_dest (Overrides.rating_priority_governance st)
       else Overrides.rating_priority_governance st |}.

(** *** Pruning duplicate log entries *)

(** A row of the [logs] table; [message] may be NULL. *)
Record LogRow := {
  log_id : Z;
  log_run_log_id : string;
  log_file_hash : string;
  log_status : string;
  log_details_json : string;
  log_message : option string
}.

#[global] Instance LogRow_eq_dec : EqDecision LogRow.
Proof. solve_decision. Defined.

(** The order of the rows of the table: ascending by the primary key. *)
Definition by_id (a b : LogRow) : Prop := log_id a < log_id b.

(** The columns of [GROUP BY file_hash, run_log_id, status, message]; rows
    with a NULL message fall into one group. *)
Definition GroupKey : Type := string * string * string * option string.

Definition group_of (r : LogRow) : GroupKey :=
  (log_file_hash r, log_run_log_id r, log_status r, log_message r).

(** [... GROUP BY ... HAVING cnt > total_to_keep]: the groups to prune, in
    the order of their first row. *)
Definition groups_to_prune (logs : list LogRow) (total_to_keep : Z) : list GroupKey :=
  filter (fun g => Z.of_nat (length (filter (fun r => group_of r = g) logs)) > total_to_keep)
         (remove_dups (group_of <$> logs)).

(** [column = ?] in a WHERE clause: not true when either side is NULL. *)
Definition sql_eq (a b : option string) : bool :=
  match a, b with
  | Some x, Some y => bool_decide (x = y)
  | _, _ => false
  end.

(** The second query: the ids of the rows equal to the group in the four
    columns, in ascending order. *)
Definition group_log_ids (logs : list LogRow) (g : GroupKey) : list Z :=
  let '(file_hash, run_log_id, status, message) := g in
  AppConfig.py_sorted Z.ltb (fun i : Z => i)
    (log_id <$> filter (fun r => log_file_hash r = file_hash
                                 ∧ log_run_log_id r = run_log_id
                                 ∧ log_status r = status
                                 ∧ sql_eq (log_message r) message = true) logs).

(** Python's [l[start:stop]]: a negative index counts from the end, and
    both indices are clipped to the list. *)
Definition py_slice {A} (l : list A) (start stop : Z) : list A :=
  let n := Z.of_nat (length l) in
  let norm i := if bool_decide (i < 0) then Z.max (n + i) 0 else Z.min i n in
  take (Z.to_nat (norm stop - norm start)) (drop (Z.to_nat (norm start)) l).

Section Prune.
(** The greatest number of parameters a statement may bind; a longer
    [IN (...)] list is refused with an [sqlite3.OperationalError]. *)
Context (max_variables : nat).

(** One turn of the loop over the groups; [None] is an [sqlite3.Error]. *)
Definition prune_group (keep_oldest keep_newest : Z)
    (st : option (Z * list LogRow)) (g : GroupKey) : option (Z * list LogRow) :=
  match st with
  | None => None
  | Some (total_deleted, logs) =>
    let log_ids := group_log_ids logs g in
    let ids_to_delete := py_slice log_ids keep_oldest (- keep_newest) in
    if bool_decide (ids_to_delete = []) then Some (total_deleted, logs)
    else if bool_decide (max_variables < length ids_to_delete)%nat then None
    else
      let kept := filter (fun r => log_id r ∉ ids_to_delete) logs in
      Some (total_deleted + (Z.of_nat (length logs) - Z.of_nat (length kept)), kept)
  end.

(** The returned count (-1 after a rollback) and the table afterwards. *)
Definition prune_duplicate_logs (logs : list LogRow) (keep_oldest keep_newest : Z)
    : Z * list LogRow :=
  let total_to_keep := keep_oldest + keep_newest in
  let groups := groups_to_prune logs total_to_keep in
  if bool_decide (groups = []) then (0, logs)
  else
    match foldl (prune_group keep_oldest keep_newest) (Some (0, logs)) groups with
    | Some (total_deleted, logs') => (total_deleted, logs')
    | None => (-1, logs)
    end.

End Prune.

End Database.

(** ** views/rules.py, views/sets.py, scheduler_tasks.py: batch runs *)

Module Views.

(** [rules.sort(key=lambda r: r.get('priority', 0))] *)
Definition sort_by_priority (rules : list Rule) : list Rule :=
  AppConfig.py_sorted Z.ltb (fun r => default 0 (priority r)) rules.

(** The rules in the order in which [run_all_rules_manual_route] iterates
    over them. *)
Definition run_all_rules_manual_order (raw_rules : list RawRule)
    (db_rules_map : gmap string DbRule) : list Rule :=
  sort_by_priority (AppConfig.load_rules raw_rules db_rules_map).

(** The rules in the order in which [run_set_route] executes them;
    [rule_ids_in_set = None] is the set id ['all']. *)
Definition run_set_order (raw_rules : list RawRule) (db_rules_map : gmap string DbRule)
    (rule_ids_in_set : option (gset string)) : list Rule :=
  let all_rules_from_db := AppConfig.load_rules raw_rules db_rules_map in
  let rules_to_run :=
    match rule_ids_in_set with
    | None => all_rules_from_db
    | Some ids => filter (fun rule => id rule ∈ ids) all_rules_from_db
    end in
  sort_by_priority rules_to_run.

(** The destination that [_get_rule_action_details] extracts. *)
Inductive Destination :=
| NoDestination
| RatingKey (k : string)
| ServiceKeys (l : list string).

Definition _get_rule_action_details (rule_action : Action) : option string * Destination :=
  let action_type := action_type_field rule_action in
  let destination :=
    if bool_decide (action_type = Some "rating") then
      match rating_service_key rule_action with
      | Some k => RatingKey k
      | None => NoDestination
      end
    else if bool_decide (action_type ∈ [Some "add_to"; Some "force_in"]) then
      ServiceKeys (default [] (destination_service_keys rule_action))
    else NoDestination in
  (action_type, destination).

(** [destinations if isinstance(destinations, list) else [destinations]];
    the empty list for a falsy value. *)
Definition dest_list (destinations : Destination) : list string :=
  match destinations with
  | NoDestination => []
  | RatingKey k => if truthy k then [k] else []
  | ServiceKeys l => l
  end.

(** What [add_rule_route] (on an update) and [delete_rule_route] do to the
    [files] table for the rule as it was: one call of
    [clear_rule_from_file_state] per old destination. *)
Definition clear_old_rule_state (like_matches : string → json_text (list string) → bool)
    (files : FilesTable) (rule_id : string) (old_rule_action : Action)
    (now : string → string) : FilesTable :=
  let '(old_type, old_destinations) := _get_rule_action_details old_rule_action in
  if truthy_opt old_type && negb (bool_decide (dest_list old_destinations = [])) then
    foldl (fun files dest =>
             (Database.clear_rule_from_file_state like_matches files rule_id
                (default "" old_type) dest now).2)
          files (dest_list old_destinations)
  else files.

End Views.

(** ** scheduler_tasks.py *)

Module Scheduler.

Definition _should_perform_deep_run (rule : Rule) : bool :=
  let frequency := default "first_run_only" (force_in_check_frequency rule) in
  if bool_decide (frequency = "always") then true
  else if bool_decide (frequency = "never") then false
  else if bool_decide (frequency = "every_x_runs") then
    match force_in_check_interval_runs rule with
    | PyInt interval =>
      if bool_decide (interval <= 0) then false
      else bool_decide ((run_count rule + 1) `mod` interval = 0)
    | _ => false
    end
  else bool_decide (run_count rule = 0).

(** A rule with the given cadence setting and run counter. *)
Definition with_cadence (rule : Rule) (frequency : string) (interval : PyVal)
    (count : Z) : Rule :=
  {| id := id rule; name := name rule; priority := priority rule;
     rule_action := rule_action rule; creation_timestamp := creation_timestamp rule;
     interval_seconds := interval_seconds rule;
     force_in_check_frequency := Some frequency;
     force_in_check_interval_runs := interval;
     run_count := count; has_been_run := has_been_run rule |}.

(** The rules a tick executes, in execution order, given the ids found due:
    [[rule for rule in all_rules if rule['id'] in rules_to_run_ids]]. *)
Definition rules_to_run_this_tick (raw_rules : list RawRule)
    (db_rules_map : gmap string DbRule) (rules_to_run_ids : gset string) : list Rule :=
  filter (fun rule => id rule ∈ rules_to_run_ids)
         (AppConfig.load_rules raw_rules db_rules_map).

(** *** The due set of a tick ([run_rules_tick_job]) *)

(** A row of [rule_sets] and a row of [rule_set_associations]. *)
Record RuleSet := {
  set_id : string;
  set_execution_override : option string;
  set_interval_seconds : PyVal
}.

Record Association := {
  assoc_rule_id : string;
  assoc_set_id : string
}.

(** A set with a schedule of its own: marked custom, with a positive
    interval. *)
Definition custom_timed (s : RuleSet) : Prop :=
  set_execution_override s = Some "custom"
  ∧ ∃ n, set_interval_seconds s = PyInt n ∧ n > 0.

(** Every set marked custom carries an integer interval. *)
Definition custom_sets_have_intervals (sets : list RuleSet) : Prop :=
  Forall (fun s => set_execution_override s ≠ Some "custom"
                   ∨ ∃ n, set_interval_seconds s = PyInt n) sets.

(** What [load_rules] stores under ['execution_override'] of a merged rule:
    the parsed override, which is a dictionary in every case. *)
Inductive ExecutionOverride :=
| OverrideDict (d : gmap string PyVal).

(** [v == 'custom'] for such a value: a dictionary never equals a string. *)
Definition override_is_custom (v : ExecutionOverride) : bool :=
  match v with OverrideDict _ => false end.

(** [x > 0] on a column value; [None] is the [TypeError] of comparing
    [None], a string or a list with an integer. *)
Definition py_gt_zero (v : PyVal) : option bool :=
  match v with
  | PyInt n => Some (bool_decide (n > 0))
  | _ => None
  end.

(** [a and b] where [b] may raise: [b] is evaluated only when [a] holds. *)
Definition py_and (a : bool) (b : option bool) : option bool :=
  if a then b else Some false.

Section Tick.
(** [datetime.fromisoformat(str(s).replace('Z', ''))] as microseconds;
    [None] stands for [ValueError]. *)
Context (parse_iso : string → option Z).
(** [get_last_run_timestamp_for_rule]: the greatest [start_time] logged for
    a rule, if any. *)
Context (last_run_of : string → option string).
(** The parsed override that [load_rules] attached to each merged rule. *)
Context (execution_override : Rule → ExecutionOverride).

Definition is_due (last_run_iso : option string) (interval_sec : PyVal)
    (current_time : Z) : bool :=
  if negb (truthy_opt last_run_iso) then true
  else
    match interval_sec with
    | PyInt n =>
      if bool_decide (n <= 0) then false
      else
        match parse_iso (default "" last_run_iso) with
        | Some last_run_dt => bool_decide (current_time >= last_run_dt + n * 1000000)
        | None => true
        end
    | _ => false
    end.

(** [{s['id'] for s in sets if s.get('execution_override') == 'custom'
      and s.get('interval_seconds', 0) > 0}] *)
Fixpoint custom_timed_set_ids (sets : list RuleSet) : option (gset string) :=
  match sets with
  | [] => Some ∅
  | s :: rest =>
    keep ← py_and (bool_decide (set_execution_override s = Some "custom"))
                  (py_gt_zero (set_interval_seconds s));
    ids ← custom_timed_set_ids rest;
    Some (if keep : bool then {[set_id s]} ∪ ids else ids)
  end.

Definition rules_governed_by_sets (associations : list Association)
    (custom_ids : gset string) : gset string :=
  list_to_set (assoc_rule_id <$>
                 filter (fun assoc => assoc_set_id assoc ∈ custom_ids) associations).

(** [rule.get('execution_override') == 'custom' and
     rule.get('interval_seconds', 0) > 0] *)
Definition is_custom_rule (rule : Rule) : option bool :=
  py_and (override_is_custom (execution_override rule))
         (py_gt_zero (interval_seconds rule)).

(** The first loop: rules with a schedule of their own. *)
Fixpoint custom_rules_due (tick_start_time : Z) (all_rules : list Rule)
    (rules_to_run_ids : gset string) : option (gset string) :=
  match all_rules with
  | [] => Some rules_to_run_ids
  | rule :: rest =>
    custom ← is_custom_rule rule;
    custom_rules_due tick_start_time rest
      (if (custom : bool)
          && is_due (last_run_of (id rule)) (interval_seconds rule) tick_start_time
       then {[id rule]} ∪ rules_to_run_ids else rules_to_run_ids)
  end.

(** The second loop: the sets with a schedule of their own. *)
Definition set_due (app_state : gmap string string) (associations : list Association)
    (custom_ids : gset string) (tick_start_time : Z)
    (st : gset string * gset string) (a_set : RuleSet) : gset string * gset string :=
  if bool_decide (set_id a_set ∈ custom_ids)
     && is_due (app_state !! ("last_run_ts_set_" +:+ set_id a_set))
               (set_interval_seconds a_set) tick_start_time
  then
    (list_to_set (assoc_rule_id <$>
                    filter (fun assoc => assoc_set_id assoc = set_id a_set) associations)
     ∪ st.1,
     {[set_id a_set]} ∪ st.2)
  else st.

(** The third loop: the global default schedule. *)
Fixpoint global_rules_due (global_interval tick_start_time : Z)
    (governed_by_sets : gset string) (all_rules : list Rule)
    (rules_to_run_ids : gset string) : option (gset string) :=
  match all_rules with
  | [] => Some rules_to_run_ids
  | rule :: rest =>
    custom ← is_custom_rule rule;
    global_rules_due global_interval tick_start_time governed_by_sets rest
      (if negb custom && negb (bool_decide (id rule ∈ governed_by_sets))
          && is_due (last_run_of (id rule)) (PyInt global_interval) tick_start_time
       then {[id rule]} ∪ rules_to_run_ids else rules_to_run_ids)
  end.

(** The ids found due by a tick and the sets it triggers; [None] when the
    computation raises (the tick is then abandoned).  Without rules the
    tick returns at once.  Times are in microseconds. *)
Definition tick_due (global_interval tick_start_time : Z) (all_rules : list Rule)
    (sets : list RuleSet) (associations : list Association)
    (app_state : gmap string string) : option (gset string * gset string) :=
  if bool_decide (all_rules = []) then Some (∅, ∅)
  else
    custom_ids ← custom_timed_set_ids sets;
    let governed_by_sets := rules_governed_by_sets associations custom_ids in
    ids1 ← custom_rules_due tick_start_time all_rules ∅;
    let st := foldl (set_due app_state associations custom_ids tick_start_time)
                    (ids1, ∅) sets in
    ids3 ← (if bool_decide (global_interval > 0)
            then global_rules_due global_interval tick_start_time governed_by_sets
                   all_rules st.1
            else Some st.1);
    Some (ids3, st.2).

End Tick.

End Scheduler.

(** ** rule_processing/translator.py *)

Module Translator.

(** An element of the predicate list: a predicate string or an OR-group. *)
Inductive Pred :=
| Literal (s : string)
| AnyOf (group : list string).

Definition is_file_service_predicate (p : string) : bool :=
  String.prefix "system:file service currently in " p
  || String.prefix "system:file service is not currently in " p.

Definition file_service_pred_count (pred_group : list string) : Z :=
  Z.of_nat (length (filter (fun p => is_file_service_predicate p = true) pred_group)).

(** Step 1: the scan for a single candidate group.  The accumulator is
    [candidate_group_info]; [None] as a result is the early return on a
    second splittable group. *)
Fixpoint find_candidate (min_to_split : Z) (i : nat) (preds : list Pred)
    (candidate_group_info : option (list string * nat))
    : option (option (list string * nat)) :=
  match preds with
  | [] => Some candidate_group_info
  | Literal _ :: rest => find_candidate min_to_split (S i) rest candidate_group_info
  | AnyOf pred_group :: rest =>
    if bool_decide (file_service_pred_count pred_group >= min_to_split) then
      match candidate_group_info with
      | Some _ => None
      | None => find_candidate min_to_split (S i) rest (Some (pred_group, i))
      end
    else find_candidate min_to_split (S i) rest candidate_group_info
  end.

(** [[p for i, p in enumerate(l) if i != index]] *)
Fixpoint remove_index {A} (index : nat) (l : list A) : list A :=
  match l, index with
  | [], _ => []
  | _ :: rest, O => rest
  | p :: rest, S k => p :: remove_index k rest
  end.

Definition prepare_sequential_searches_if_needed (hydrus_predicates : list Pred)
    (min_to_split : Z) : list (list Pred) :=
  match find_candidate min_to_split 0 hydrus_predicates None with
  | None => [hydrus_predicates]
  | Some None => [hydrus_predicates]
  | Some (Some (splittable_group, splittable_group_index)) =>
    let static_preds_outside_or_group :=
      remove_index splittable_group_index hydrus_predicates in
    let common_preds_in_or_group :=
      filter (fun p => is_file_service_predicate p ≠ true) splittable_group in
    let file_service_preds_for_sequencing :=
      filter (fun p => is_file_service_predicate p = true) splittable_group in
    let base_predicates :=
      static_preds_outside_or_group ++ (Literal <$> common_preds_in_or_group) in
    (fun file_service_pred => base_predicates ++ [Literal file_service_pred])
      <$> file_service_preds_for_sequencing
  end.

(** An OR-group that the scan counts as splittable. *)
Definition splittable (min_to_split : Z) (p : Pred) : Prop :=
  match p with
  | Literal _ => False
  | AnyOf g => file_service_pred_count g >= min_to_split
  end.

(** [str.lower] on the ASCII range. *)
Definition lower_ascii (a : Ascii.ascii) : Ascii.ascii :=
  let n := Ascii.nat_of_ascii a in
  if ((65 <=? n) && (n <=? 90))%nat then Ascii.ascii_of_nat (n + 32) else a.

Fixpoint lower (s : string) : string :=
  match s with
  | EmptyString => EmptyString
  | String a s' => String (lower_ascii a) (lower s')
  end.

(** [needle in hay] on strings. *)
Fixpoint contains (needle hay : string) : bool :=
  String.prefix needle hay
  || match hay with
     | EmptyString => false
     | String _ hay' => contains needle hay'
     end.

Definition critical_phrases : list string :=
  [ "skipping condition"; "unhandled condition"; "invalid value";
    "malformed 'file_service' condition"; "not found for condition"; "missing";
    "error translating"; "unsupported operator for"; "unknown specific url type";
    "target all files" ].

Definition is_critical_warning (warning_message : string) : bool :=
  let msg_lower := lower warning_message in
  if contains "note:" msg_lower && negb (contains "critical note:" msg_lower) then false
  else if String.prefix "critical warning:" msg_lower || String.prefix "critical:" msg_lower
  then true
  else existsb (fun phrase => contains phrase msg_lower) critical_phrases.

(** The reading of a predicate list by the client's search: a file matches
    when it satisfies every entry, an OR-group being satisfied by any of its
    members. *)
Definition query_matches (holds : string → bool) (query : list Pred) : bool :=
  forallb (fun p => match p with
                    | Literal s => holds s
                    | AnyOf group => existsb holds group
                    end) query.

End Translator.

(** ** hydrus_interface.py and rule_processing/actions.py *)

Module Actions.

(** What a call sends: the JSON body of a POST or the parameters of a GET. *)
Inductive Payload :=
| HashesPayload (hashes : list string) (file_service_key : string)
| HashPayload (hash : string) (file_service_key : string)
| MetadataParams (hashes : list string).

Record Request := {
  req_address : string;
  req_key : option string;
  endpoint : string;
  method : string;
  payload : Payload;
  timeout : Z
}.

(** One entry of the [metadata] list of [/get_files/file_metadata]. *)
Record FileMeta := {
  hash : option string;             (* meta.get('hash') *)
  current_services : list string    (* keys of meta['file_services']['current'] *)
}.

(** The pair [(result, status)] that [call_hydrus_api] returns; [data] is
    [Some metadata] when [result['data']] is a dictionary. *)
Record ApiResult := {
  success : bool;
  message : option string;
  data : option (list FileMeta);
  status_code : Z
}.

(** The hashes a request mentions. *)
Definition request_hashes (req : Request) : list string :=
  match payload req with
  | HashesPayload hs _ => hs
  | HashPayload h _ => [h]
  | MetadataParams hs => hs
  end.

Inductive Message :=
| Text (s : string)
| VerifyFail (missing current : gset string).

Record ErrDetail := {
  err_service_key : option string;
  err_message : Message;
  err_status_code : option Z
}.

Record ErrEntry := {
  phase : string;
  errors : list ErrDetail
}.

Inductive OverallError :=
| InvalidDestinationKeys (rule_name : string) (keys : PyVal)
| NoFilesCopied
| NoFilesVerified.

Record SummaryCounts := {
  initial_candidates : Z;
  copied_phase_success_count : Z;
  verified_phase_success_count : Z;
  deleted_phase_success_count : Z
}.

Record ForceInResult := {
  fi_success : bool;
  files_fully_successful : list string;
  files_with_errors : gmap string ErrEntry;
  summary_counts : SummaryCounts;
  overall_errors : list OverallError
}.

Record BatchResult := {
  successful_items : list string;
  failed_items_with_errors : list (string * string * option Z)
}.

(** [range(0, stop, step)]; [None] is the [ValueError] of a zero step. *)
Fixpoint range_from (fuel : nat) (i stop step : Z) : list Z :=
  match fuel with
  | O => []
  | S fuel' => if bool_decide (i < stop) then i :: range_from fuel' (i + step) stop step
               else []
  end.

Definition py_range (stop step : Z) : option (list Z) :=
  if bool_decide (step = 0) then None
  else if bool_decide (step < 0) then Some []
  else Some (range_from (Z.to_nat stop) 0 stop step).

(** [l[i : i + n]] for [0 <= i] and [0 < n]. *)
Definition slice {A} (l : list A) (i n : Z) : list A :=
  take (Z.to_nat n) (drop (Z.to_nat i) l).

(** [dict.setdefault(h, {"phase": ph, "errors": []})["errors"].append(detail)] *)
Definition record_error (h ph : string) (detail : ErrDetail)
    (m : gmap string ErrEntry) : gmap string ErrEntry :=
  match m !! h with
  | Some e => <[h := {| phase := phase e; errors := errors e ++ [detail] |}]> m
  | None => <[h := {| phase := ph; errors := [detail] |}]> m
  end.

(** [dict.setdefault(k, []).append(h)] on an insertion-ordered dictionary. *)
Fixpoint setdefault_append (k h : string) (d : list (string * list string))
    : list (string * list string) :=
  match d with
  | [] => [(k, [h])]
  | (k', hs) :: d' => if bool_decide (k' = k) then (k', hs ++ [h]) :: d'
                      else (k', hs) :: setdefault_append k h d'
  end.

(** The characters [str.strip()] removes are those of [str.isspace]:
    U+0009..U+000D, U+001C..U+0020, U+0085, U+00A0, U+1680, U+2000..U+200A,
    U+2028, U+2029, U+202F, U+205F and U+3000.  [is_space] is the test on
    the one-byte characters, [is_space2] and [is_space3] on the characters
    of two and three bytes. *)
Definition is_space (a : Ascii.ascii) : bool :=
  let n := Ascii.nat_of_ascii a in
  ((9 <=? n) && (n <=? 13) || (28 <=? n) && (n <=? 32))%nat.

Definition is_space2 (a b : Ascii.ascii) : bool :=
  let a := Ascii.nat_of_ascii a in
  let b := Ascii.nat_of_ascii b in
  ((a =? 194) && ((b =? 133) || (b =? 160)))%nat.

Definition is_space3 (a b c : Ascii.ascii) : bool :=
  let a := Ascii.nat_of_ascii a in
  let b := Ascii.nat_of_ascii b in
  let c := Ascii.nat_of_ascii c in
  ((a =? 225) && (b =? 154) && (c =? 128)
   || (a =? 226) && (b =? 128)
      && ((128 <=? c) && (c <=? 138) || (c =? 168) || (c =? 169) || (c =? 175))
   || (a =? 226) && (b =? 129) && (c =? 159)
   || (a =? 227) && (b =? 128) && (c =? 128))%nat.

(** A text of white space only: what [strip()] turns into the empty string. *)
Fixpoint blank (s : string) : bool :=
  match s with
  | EmptyString => true
  | String a s1 =>
    if is_space a then blank s1
    else
      match s1 with
      | EmptyString => false
      | String b s2 =>
        if is_space2 a b then blank s2
        else
          match s2 with
          | EmptyString => false
          | String c s3 => is_space3 a b c && blank s3
          end
      end
  end.

(** [bool(k.strip())] *)
Definition strip_truthy (k : string) : bool := negb (blank k).

Definition str_items (l : list PyVal) : list string :=
  omap (fun v => match v with PyStr s => Some s | _ => None end) l.

(** The guard of [force_in_services] on the destination keys: [Some keys]
    when the argument is a non-empty list of non-blank strings. *)
Definition valid_destination_keys (v : PyVal) : option (list string) :=
  match v with
  | PyList l =>
    if bool_decide (l = []) then None
    else if forallb (fun k => match k with PyStr s => strip_truthy s | _ => false end) l
         then Some (str_items l)
         else None
  | _ => None
  end.

(** [settings.get('hydrus_api_url') or settings.get('api_address')] *)
Definition api_address_of (ctx : RuleExecutionContext) : option string :=
  py_or (hydrus_api_url (app_config ctx)) (api_address (app_config ctx)).
Definition api_key_of (ctx : RuleExecutionContext) : option string :=
  py_or (hydrus_api_key (app_config ctx)) (api_key (app_config ctx)).

(** The request [call_hydrus_api] sends for the settings of [ctx]. *)
Definition request_for (ctx : RuleExecutionContext) (endpoint method : string)
    (timeout : Z) (p : Payload) : Request :=
  {| req_address := default "" (api_address_of ctx); req_key := api_key_of ctx;
     endpoint := endpoint; method := method; payload := p; timeout := timeout |}.

(** What happened to one batch: its items, the answer to the bulk call and,
    when that call failed, the answers to the individual retries in order. *)
Record BatchOutcome := {
  bo_items : list string;
  bo_bulk : ApiResult;
  bo_retries : list ApiResult
}.

(** Retries happen for every item of a failed batch and for no other item. *)
Definition outcome_wf (o : BatchOutcome) : Prop :=
  if success (bo_bulk o) then bo_retries o = []
  else length (bo_retries o) = length (bo_items o).

(** The calls of one batch: the bulk call, then one call per retried item. *)
Definition outcome_calls (mk : Payload → Request)
    (batch_fmt : list string → Payload) (single_fmt : string → Payload)
    (o : BatchOutcome) : list (Request * ApiResult) :=
  (mk (batch_fmt (bo_items o)), bo_bulk o)
  :: zip ((fun item => mk (single_fmt item)) <$> bo_items o) (bo_retries o).

Definition outcome_successes (o : BatchOutcome) : list string :=
  if success (bo_bulk o) then bo_items o
  else fst <$> filter (fun ir => success ir.2 = true) (zip (bo_items o) (bo_retries o)).

Definition outcome_failures (o : BatchOutcome) : list (string * string * option Z) :=
  if success (bo_bulk o) then []
  else (fun ir : string * ApiResult =>
          (ir.1,
           default ("Unknown API error for item " +:+ String.substring 0 50 ir.1)
                   (message ir.2),
           Some (status_code ir.2)))
       <$> filter (fun ir => success ir.2 ≠ true) (zip (bo_items o) (bo_retries o)).

(** [batches] cuts [items] into consecutive batches of [n] items, the last
    one possibly shorter. *)
Definition consecutive_batches (n : nat) (items : list string)
    (batches : list (list string)) : Prop :=
  concat batches = items
  ∧ Forall (fun b => b ≠ [] ∧ (length b ≤ n)%nat) batches
  ∧ ∀ i b, batches !! i = Some b → (S i < length batches)%nat → length b = n.

(** [{s['service_key'] for s in ctx.available_services if s.get('type') == 2}] *)
Definition local_service_keys (ctx : RuleExecutionContext) : gset string :=
  list_to_set (service_key <$>
                 filter (fun s => service_type s = Some 2) (available_services ctx)).

(** [[fm.get('hash') for fm in files_metadata_list if fm.get('hash')]] *)
Definition candidate_hashes (files_metadata_list : list FileMeta) : list string :=
  omap (fun fm => match hash fm with
                  | Some h => if truthy h then Some h else None
                  | None => None
                  end) files_metadata_list.

(** The phase under which a file is recorded in [files_with_errors]. *)
Definition phase_of (errs : gmap string ErrEntry) (h : string) : option string :=
  phase <$> errs !! h.

(** A call of a phase: to the given endpoint, about files of the given set. *)
Definition call_within (ep : string) (files : gset string)
    (c : Request * ApiResult) : Prop :=
  endpoint c.1 = ep ∧ ∀ h, h ∈ request_hashes c.1 → h ∈ files.

(** The hash a metadata entry is checked for, when it is checked. *)
Definition checked (C : gset string) (m : FileMeta) : option string :=
  match hash m with
  | Some h => if truthy h && bool_decide (h ∈ C) then Some h else None
  | None => None
  end.
(** A metadata entry shows the file in every destination. *)
Definition passes (dest : gset string) (m : FileMeta) : bool :=
  bool_decide (dest ⊆ list_to_set (C:=gset string) (current_services m)).
(** The checked files whose entry passes, and those whose entry fails. *)
Definition pass_hashes (C dest : gset string) (ms : list FileMeta) : list string :=
  omap (fun m => if passes dest m then checked C m else None) ms.
Definition fail_hashes (C dest : gset string) (ms : list FileMeta) : list string :=
  omap (fun m => if passes dest m then None else checked C m) ms.

(** The files listed in [deletions_by_service]. *)
Definition listed (d : list (string * list string)) (h : string) : Prop :=
  ∃ p, p ∈ d ∧ h ∈ p.2.

(** A destination-key argument that is not a list, is empty, or contains an
    entry that is not a string or is blank. *)
Definition invalid_destination_keys (v : PyVal) : Prop :=
  match v with
  | PyList l =>
    l = [] ∨ ∃ k, k ∈ l ∧ match k with PyStr s => strip_truthy s = false | _ => True end
  | _ => True
  end.

(** The item a failure entry [(item, message, status)] is about. *)
Definition failed_item (f : string * string * option Z) : string := f.1.1.

(** The metadata a logged metadata call delivered: [None] when the call
    failed or its [data] was not a dictionary. *)
Definition answered (c : Request * ApiResult) : option (list FileMeta) :=
  if success c.2 then data c.2 else None.

(** The service a migration or deletion request is aimed at. *)
Definition request_service_key (req : Request) : option string :=
  match payload req with
  | HashesPayload _ k => Some k
  | HashPayload _ k => Some k
  | MetadataParams _ => None
  end.

(** An entry of [files_with_some_errors] of [add_to_services]. *)
Record AddToError := {
  destination_service_key : string;
  ae_message : string;
  ae_status_code : option Z
}.

(** The dictionary [add_to_services] returns ([overall_errors] is always
    the empty list). *)
Record AddToResult := {
  at_success : bool;
  total_successful_migrations : Z;
  total_failed_migrations : Z;
  files_with_some_errors : gmap string (list AddToError)
}.

(** [files_with_errors_map.setdefault(h, []).append({...})] *)
Definition add_to_failure (dest_key : string) (m : gmap string (list AddToError))
    (f : string * string * option Z) : gmap string (list AddToError) :=
  let '(h, msg, status) := f in
  <[h := default [] (m !! h)
         ++ [{| destination_service_key := dest_key; ae_message := msg;
                ae_status_code := status |}]]> m.

(** The calls [force_in_services] may make for the destinations
    [dest_keys]: a migration into a destination, a metadata query, or a
    deletion from a local file service that is not a destination. *)
Definition permitted_call (ctx : RuleExecutionContext) (dest_keys : list string)
    (c : Request * ApiResult) : Prop :=
  (endpoint c.1 = "/add_files/migrate_files"
   ∧ ∃ k, request_service_key c.1 = Some k ∧ k ∈ dest_keys)
  ∨ (endpoint c.1 = "/get_files/file_metadata" ∧ request_service_key c.1 = None)
  ∨ (endpoint c.1 = "/add_files/delete_files"
     ∧ ∃ k, request_service_key c.1 = Some k
            ∧ k ∈ local_service_keys ctx ∧ k ∉ dest_keys).

Section WithApi.
(** The remote client: an arbitrary state machine answering requests. *)
Context {S : Type} (respond : S → Request → ApiResult * S).

Record World := {
  remote : S;
  calls : list (Request * ApiResult)
}.

(** A computation that calls the API and may raise. *)
Definition M (A : Type) : Type := World → option (A * World).

Definition ret {A} (a : A) : M A := fun w => Some (a, w).
Definition bind {A B} (m : M A) (k : A → M B) : M B :=
  fun w => match m w with Some (a, w') => k a w' | None => None end.
Definition raise {A} : M A := fun _ => None.

Notation "x <~ m ;; k" := (bind m (fun x => k))
  (at level 100, m at next level, right associativity).

(** [call_hydrus_api] with a configured address: the request is sent and
    the exchange is logged. *)
Definition call_hydrus_api (req : Request) : M ApiResult :=
  fun w =>
    let '(r, s') := respond (remote w) req in
    Some (r, {| remote := s'; calls := calls w ++ [(req, r)] |}).

Fixpoint for_each {A St} (body : A → St → M St) (l : list A) (st : St) : M St :=
  match l with
  | [] => ret st
  | x :: l' => st' <~ body x st ;; for_each body l' st'
  end.


Definition retry_item (mk : Payload → Request) (single_item_payload_formatter : string → Payload)
    (single_item : string) (acc : BatchResult) : M BatchResult :=
  retry_result <~ call_hydrus_api (mk (single_item_payload_formatter single_item)) ;;
  if success retry_result then
    ret {| successful_items := successful_items acc ++ [single_item];
           failed_items_with_errors := failed_items_with_errors acc |}
  else
    let retry_err_msg :=
      default ("Unknown API error for item " +:+ String.substring 0 50 single_item)
              (message retry_result) in
    ret {| successful_items := successful_items acc;
           failed_items_with_errors :=
             failed_items_with_errors acc ++
             [(single_item, retry_err_msg, Some (status_code retry_result))] |}.

Definition process_batch (mk : Payload → Request)
    (batch_payload_formatter : list string → Payload)
    (single_item_payload_formatter : string → Payload)
    (batch_items : list string) (acc : BatchResult) : M BatchResult :=
  if bool_decide (batch_items = []) then ret acc
  else
    batch_result <~ call_hydrus_api (mk (batch_payload_formatter batch_items)) ;;
    if success batch_result then
      ret {| successful_items := successful_items acc ++ batch_items;
             failed_items_with_errors := failed_items_with_errors acc |}
    else for_each (retry_item mk single_item_payload_formatter) batch_items acc.

Definition batch_api_call_with_retry (ctx : RuleExecutionContext)
    (endpoint method : string) (items_to_process : list string) (batch_size : Z)
    (batch_payload_formatter : list string → Payload)
    (single_item_payload_formatter : string → Payload)
    (timeout_per_call : Z) : M BatchResult :=
  let api_address := api_address_of ctx in
  let api_key := api_key_of ctx in
  if bool_decide (items_to_process = []) then
    ret {| successful_items := []; failed_items_with_errors := [] |}
  else if negb (truthy_opt api_address) then
    ret {| successful_items := [];
           failed_items_with_errors :=
             (fun item => (item, "API address not configured.", None)) <$> items_to_process |}
  else
    match py_range (Z.of_nat (length items_to_process)) batch_size with
    | None => raise
    | Some starts =>
      let mk := request_for ctx endpoint method timeout_per_call in
      for_each (fun i => process_batch mk batch_payload_formatter
                           single_item_payload_formatter
                           (slice items_to_process i batch_size))
               starts
               {| successful_items := []; failed_items_with_errors := [] |}
    end.

(** The behaviour the specification gives for a batched call: the items
    are cut into consecutive batches, each batch costs one bulk call, the
    items of a failed batch, and only those, are retried one by one, and
    the two result lists collect the items accordingly. *)
Definition batched_with_retries (ctx : RuleExecutionContext)
    (endpoint method : string) (items : list string) (batch_size : Z)
    (batch_fmt : list string → Payload) (single_fmt : string → Payload)
    (timeout_per_call : Z) (w : World) : Prop :=
  ∃ res w' outcomes,
    batch_api_call_with_retry ctx endpoint method items batch_size
      batch_fmt single_fmt timeout_per_call w = Some (res, w')
    ∧ consecutive_batches (Z.to_nat batch_size) items (bo_items <$> outcomes)
    ∧ Forall outcome_wf outcomes
    ∧ calls w' = calls w
        ++ concat (outcome_calls (request_for ctx endpoint method timeout_per_call)
                     batch_fmt single_fmt <$> outcomes)
    ∧ successful_items res = concat (outcome_successes <$> outcomes)
    ∧ failed_items_with_errors res = concat (outcome_failures <$> outcomes).

(** An entry of [metadata_errors_list]. *)
Record MetaError := {
  me_message : string;
  hashes_in_batch : list string;
  me_status_code : option Z
}.

Definition fetch_batch (mk : Payload → Request) (batch_hashes : list string)
    (acc : list FileMeta * list MetaError) : M (list FileMeta * list MetaError) :=
  result <~ call_hydrus_api (mk (MetadataParams batch_hashes)) ;;
  match success result, data result with
  | true, Some batch_metadata => ret (acc.1 ++ batch_metadata, acc.2)
  | _, _ =>
    let msg := "Metadata fetch failed for a batch: " +:+
               default "Unknown API error" (message result) in
    ret (acc.1, acc.2 ++ [{| me_message := msg; hashes_in_batch := batch_hashes;
                             me_status_code := Some (status_code result) |}])
  end.

Definition fetch_metadata (ctx : RuleExecutionContext) (hashes_list : list string)
    (batch_size : Z) : M (list FileMeta * list MetaError) :=
  if bool_decide (hashes_list = []) then ret ([], [])
  else
    let api_address := api_address_of ctx in
    let api_key := api_key_of ctx in
    if negb (truthy_opt api_address) then
      ret ([], [{| me_message := "API address not configured.";
                   hashes_in_batch := hashes_list; me_status_code := None |}])
    else
      match py_range (Z.of_nat (length hashes_list)) batch_size with
      | None => raise
      | Some starts =>
        let mk := request_for ctx "/get_files/file_metadata" "GET" 60 in
        for_each (fun i => fetch_batch mk (slice hashes_list i batch_size)) starts ([], [])
      end.


(** Phase 1 (copy): one batched migration per destination over the files
    that survived so far; a failed file is discarded and recorded. *)
Definition copy_failure (dest_key : string)
    (st : gset string * gmap string ErrEntry) (f : string * string * option Z)
    : gset string * gmap string ErrEntry :=
  let '(h, msg, status) := f in
  (st.1 ∖ {[h]},
   record_error h "copy"
     {| err_service_key := Some dest_key; err_message := Text ("Copy fail: " +:+ msg);
        err_status_code := status |} st.2).

Fixpoint copy_phase (ctx : RuleExecutionContext) (batch_size : Z)
    (dest_keys : list string) (st : gset string * gmap string ErrEntry)
    : M (gset string * gmap string ErrEntry) :=
  match dest_keys with
  | [] => ret st
  | dest_key :: rest =>
    if bool_decide (st.1 = ∅) then ret st
    else
      copy_results <~ batch_api_call_with_retry ctx "/add_files/migrate_files" "POST"
                        (elements st.1) batch_size
                        (fun bh => HashesPayload bh dest_key)
                        (fun sh => HashPayload sh dest_key) 180 ;;
      copy_phase ctx batch_size rest
        (foldl (copy_failure dest_key) st (failed_items_with_errors copy_results))
  end.

(** Phase 2 (verify), first part: the files of a failed metadata batch. *)
Definition meta_fetch_failure (err : MetaError)
    (st : gset string * gmap string ErrEntry) (h_err : string)
    : gset string * gmap string ErrEntry :=
  if bool_decide (h_err ∈ st.1) then
    (st.1 ∖ {[h_err]},
     record_error h_err "verify"
       {| err_service_key := None;
          err_message := Text ("Meta fetch fail: " +:+ me_message err);
          err_status_code := me_status_code err |} st.2)
  else st.

Definition discard_meta_errors (meta_errs : list MetaError)
    (st : gset string * gmap string ErrEntry) : gset string * gmap string ErrEntry :=
  foldl (fun st err => foldl (meta_fetch_failure err) st (hashes_in_batch err)) st meta_errs.

(** Phase 2, second part: a file passes when it is in every destination. *)
Definition verify_meta (copied dest_set : gset string)
    (st : gset string * gmap string ErrEntry) (meta : FileMeta)
    : gset string * gmap string ErrEntry :=
  match hash meta with
  | Some h =>
    if truthy h && bool_decide (h ∈ copied) then
      let current_services : gset string := list_to_set (current_services meta) in
      if bool_decide (dest_set ⊆ current_services) then ({[h]} ∪ st.1, st.2)
      else
        (st.1,
         record_error h "verify"
           {| err_service_key := None;
              err_message := VerifyFail (dest_set ∖ current_services) current_services;
              err_status_code := None |} st.2)
    else st
  | None => st
  end.

(** [{m['hash']: m for m in fresh_meta if m.get('hash') in verified}] *)
Definition meta_map_of (verified : gset string) (fresh_meta : list FileMeta)
    : gmap string FileMeta :=
  foldl (fun acc m =>
           match hash m with
           | Some h => if bool_decide (h ∈ verified) then <[h := m]> acc else acc
           | None => acc
           end) ∅ fresh_meta.

(** Phase 3, preparation: the services each verified file must leave. *)
Record DeletePrep := {
  dp_verified : gset string;
  dp_errors : gmap string ErrEntry;
  deletions_by_service : list (string * list string)
}.

Definition delete_prep (all_local dest_set : gset string)
    (meta_map_verified : gmap string FileMeta) (st : DeletePrep) (h_verified : string)
    : DeletePrep :=
  match meta_map_verified !! h_verified with
  | None =>
    {| dp_verified := dp_verified st ∖ {[h_verified]};
       dp_errors :=
         record_error h_verified "delete_prep"
           {| err_service_key := None;
              err_message := Text "Missing fresh metadata for delete.";
              err_status_code := None |} (dp_errors st);
       deletions_by_service := deletions_by_service st |}
  | Some meta_obj =>
    let current_services : gset string := list_to_set (current_services meta_obj) in
    let to_delete_from := (current_services ∩ all_local) ∖ dest_set in
    {| dp_verified := dp_verified st;
       dp_errors := dp_errors st;
       deletions_by_service :=
         foldl (fun d sk_del => setdefault_append sk_del h_verified d)
               (deletions_by_service st) (elements to_delete_from) |}
  end.

Definition delete_failure (service_key_del : string)
    (st : gset string * gmap string ErrEntry) (f : string * string * option Z)
    : gset string * gmap string ErrEntry :=
  let '(h, msg, status) := f in
  (st.1 ∖ {[h]},
   record_error h "delete"
     {| err_service_key := Some service_key_del;
        err_message := Text ("Delete fail: " +:+ msg);
        err_status_code := status |} st.2).

(** Phase 3 (delete): one batched deletion per other service. *)
Fixpoint delete_phase (ctx : RuleExecutionContext) (batch_size : Z)
    (deletions : list (string * list string)) (st : gset string * gmap string ErrEntry)
    : M (gset string * gmap string ErrEntry) :=
  match deletions with
  | [] => ret st
  | (service_key_del, hashes_on_service) :: rest =>
    if bool_decide (hashes_on_service = []) || bool_decide (st.1 = ∅) then ret st
    else
      delete_results <~ batch_api_call_with_retry ctx "/add_files/delete_files" "POST"
                          (filter (fun h => h ∈ st.1) hashes_on_service) batch_size
                          (fun bh => HashesPayload bh service_key_del)
                          (fun sh => HashPayload sh service_key_del) 180 ;;
      delete_phase ctx batch_size rest
        (foldl (delete_failure service_key_del) st
               (failed_items_with_errors delete_results))
  end.

(** [any(h_v in h_list for h_list in deletions_by_service.values())] *)
Definition needed_del (deletions : list (string * list string)) (h_v : string) : bool :=
  existsb (fun d => bool_decide (h_v ∈ d.2)) deletions.

Definition zero_counts (initial copied verified : Z) : SummaryCounts :=
  {| initial_candidates := initial; copied_phase_success_count := copied;
     verified_phase_success_count := verified; deleted_phase_success_count := 0 |}.

Definition force_in_services (ctx : RuleExecutionContext)
    (files_metadata_list : list FileMeta) (rule_configured_destination_keys : PyVal)
    (batch_size : Z) : M ForceInResult :=
  let initial_candidates := Z.of_nat (length files_metadata_list) in
  if bool_decide (files_metadata_list = []) then
    ret {| fi_success := true; files_fully_successful := []; files_with_errors := ∅;
           summary_counts := zero_counts 0 0 0; overall_errors := [] |}
  else
    match valid_destination_keys rule_configured_destination_keys with
    | None =>
      ret {| fi_success := false; files_fully_successful := []; files_with_errors := ∅;
             summary_counts := zero_counts initial_candidates 0 0;
             overall_errors :=
               [InvalidDestinationKeys (rule_name ctx) rule_configured_destination_keys] |}
    | Some dest_keys =>
      let all_local_service_keys_set := local_service_keys ctx in
      let candidate_hashes := candidate_hashes files_metadata_list in
      (* Phase 1: Copy *)
      st1 <~ copy_phase ctx batch_size dest_keys (list_to_set candidate_hashes, ∅) ;;
      let copied_count := Z.of_nat (size st1.1) in
      if bool_decide (st1.1 = ∅) then
        ret {| fi_success := false; files_fully_successful := [];
               files_with_errors := st1.2;
               summary_counts := zero_counts initial_candidates 0 0;
               overall_errors := [NoFilesCopied] |}
      else
        (* Phase 2: Verify *)
        fetched <~ fetch_metadata ctx (elements st1.1) 256 ;;
        let fresh_meta := fetched.1 in
        let st2 := discard_meta_errors fetched.2 st1 in
        let dest_set_for_verification : gset string := list_to_set dest_keys in
        let st3 := foldl (verify_meta st2.1 dest_set_for_verification) (∅, st2.2) fresh_meta in
        let verified_count := Z.of_nat (size st3.1) in
        if bool_decide (st3.1 = ∅) then
          ret {| fi_success := false; files_fully_successful := [];
                 files_with_errors := st3.2;
                 summary_counts := zero_counts initial_candidates copied_count 0;
                 overall_errors := [NoFilesVerified] |}
        else
          (* Phase 3: Delete from other local services *)
          let meta_map_verified := meta_map_of st3.1 fresh_meta in
          let prep :=
            foldl (delete_prep all_local_service_keys_set dest_set_for_verification
                               meta_map_verified)
                  {| dp_verified := st3.1; dp_errors := st3.2; deletions_by_service := [] |}
                  (elements st3.1) in
          st4 <~ delete_phase ctx batch_size (deletions_by_service prep)
                   (dp_verified prep, dp_errors prep) ;;
          let files_fully_successful :=
            filter (fun h_v => needed_del (deletions_by_service prep) h_v = false
                               ∨ h_v ∈ st4.1)
                   (elements (dp_verified prep)) in
          let deleted_phase_count := Z.of_nat (length files_fully_successful) in
          let final_success :=
            bool_decide (size st4.2 = 0%nat)
            && bool_decide (Z.of_nat (length files_fully_successful) = initial_candidates) in
          ret {| fi_success := final_success;
                 files_fully_successful := files_fully_successful;
                 files_with_errors := st4.2;
                 summary_counts :=
                   {| initial_candidates := initial_candidates;
                      copied_phase_success_count := copied_count;
                      verified_phase_success_count := verified_count;
                      deleted_phase_success_count := deleted_phase_count |};
                 overall_errors := [] |}
    end.

(** The interface of the metadata call: a successful answer carries one
    entry for each requested hash. *)
Definition metadata_contract : Prop :=
  ∀ s req hs metas,
    payload req = MetadataParams hs →
    success (respond s req).1 = true →
    data (respond s req).1 = Some metas →
    hash <$> metas ≡ₚ Some <$> hs.


(** The outcome the specification gives for invalid destination keys:
    failure with a critical error, nothing copied, verified or deleted,
    and no API call. *)
Definition aborts_on_invalid_keys (ctx : RuleExecutionContext)
    (files_metadata_list : list FileMeta) (keys : PyVal) (batch_size : Z)
    (w : World) : Prop :=
  ∃ r, force_in_services ctx files_metadata_list keys batch_size w = Some (r, w)
       ∧ fi_success r = false
       ∧ overall_errors r = [InvalidDestinationKeys (rule_name ctx) keys]
       ∧ files_fully_successful r = []
       ∧ copied_phase_success_count (summary_counts r) = 0
       ∧ verified_phase_success_count (summary_counts r) = 0
       ∧ deleted_phase_success_count (summary_counts r) = 0.

(** One turn of the loop of [add_to_services] over the destinations. *)
Definition add_to_dest (ctx : RuleExecutionContext) (file_hashes : list string)
    (batch_size : Z) (dest_key : string) (acc : AddToResult) : M AddToResult :=
  batch_results <~ batch_api_call_with_retry ctx "/add_files/migrate_files" "POST"
                     file_hashes batch_size
                     (fun batch_h => HashesPayload batch_h dest_key)
                     (fun single_h => HashPayload single_h dest_key) 180 ;;
  let total_successful_migrations :=
    total_successful_migrations acc
    + Z.of_nat (length (successful_items batch_results)) in
  if bool_decide (failed_items_with_errors batch_results = []) then
    ret {| at_success := at_success acc;
           total_successful_migrations := total_successful_migrations;
           total_failed_migrations := total_failed_migrations acc;
           files_with_some_errors := files_with_some_errors acc |}
  else
    ret {| at_success := false;
           total_successful_migrations := total_successful_migrations;
           total_failed_migrations :=
             total_failed_migrations acc
             + Z.of_nat (length (failed_items_with_errors batch_results));
           files_with_some_errors :=
             foldl (add_to_failure dest_key) (files_with_some_errors acc)
                   (failed_items_with_errors batch_results) |}.

Definition add_to_services (ctx : RuleExecutionContext) (file_hashes : list string)
    (destination_service_keys : list string) (batch_size : Z) : M AddToResult :=
  let start := {| at_success := true; total_successful_migrations := 0;
                  total_failed_migrations := 0; files_with_some_errors := ∅ |} in
  if bool_decide (file_hashes = []) || bool_decide (destination_service_keys = [])
  then ret start
  else for_each (add_to_dest ctx file_hashes batch_size) destination_service_keys start.

End WithApi.

(** The validation property as the specification words it: whenever the
    destination keys are invalid, the operation aborts. *)
Definition invalid_keys_always_abort : Prop :=
  ∀ (S : Type) (respond : S → Request → ApiResult * S) (ctx : RuleExecutionContext)
    (files_metadata_list : list FileMeta) (keys : PyVal) (batch_size : Z) (w : World),
    invalid_destination_keys keys →
    aborts_on_invalid_keys respond ctx files_metadata_list keys batch_size w.

End Actions.

(** ** rule_processing/orchestrator.py: filtering and action stages *)

Module Orchestrator.
Import Actions.

(** Stage 4, the override filter of [execute_single_rule]: the files the
    action is attempted on, in order, and the number of files skipped. *)
Record Filtered := {
  files_to_attempt_action_on : list string;
  files_skipped_due_to_override : Z
}.

(** One turn of the loop over the eligible files. *)
Definition override_step (ctx : RuleExecutionContext) (files : FilesTable)
    (acc : Filtered) (file_hash : string) : Filtered :=
  match Overrides.check_override ctx files file_hash with
  | (Overrides.skipped, _) =>
    {| files_to_attempt_action_on := files_to_attempt_action_on acc;
       files_skipped_due_to_override := files_skipped_due_to_override acc + 1 |}
  | (Overrides.run, _) =>
    {| files_to_attempt_action_on := files_to_attempt_action_on acc ++ [file_hash];
       files_skipped_due_to_override := files_skipped_due_to_override acc |}
  end.

Definition override_filter (ctx : RuleExecutionContext) (files : FilesTable)
    (eligible_hashes_after_view_filter : list string) : Filtered :=
  foldl (override_step ctx files)
        {| files_to_attempt_action_on := []; files_skipped_due_to_override := 0 |}
        eligible_hashes_after_view_filter.

(** What stage 5 leaves behind: the files it counts as succeeded, its two
    counters, the success flag of the rule and the [files] table. *)
Record Acted := {
  succeeded_hashes : list string;
  succeeded_count_total : Z;
  failed_count_total : Z;
  overall_rule_success_flag : bool;
  files_table : FilesTable
}.

(** [for h in succeeded_hashes: overrides.update_state_after_success(ctx, h)];
    [now h] is the clock reading when the row of [h] is written. *)
Definition record_successes (ctx : RuleExecutionContext) (now : string → string)
    (files : FilesTable) (succeeded_hashes : list string) : FilesTable :=
  foldl (fun files h => Overrides.update_state_after_success ctx (now h) files h)
        files succeeded_hashes.

Section WithApi.
Context {S : Type} (respond : S → Request → ApiResult * S).

(** Stage 5 for [action_type == 'add_to']. *)
Definition add_to_stage (ctx : RuleExecutionContext) (now : string → string)
    (files : FilesTable) (files_to_attempt_action_on : list string) : M (S:=S) Acted :=
  let dest_keys := default [] (destination_service_keys (action ctx)) in
  bind (add_to_services respond ctx files_to_attempt_action_on dest_keys 64)
    (fun result =>
       let succeeded_hashes :=
         elements (list_to_set (C:=gset string) files_to_attempt_action_on
                   ∖ dom (files_with_some_errors result)) in
       let failed_count_total := Z.of_nat (size (files_with_some_errors result)) in
       ret {| succeeded_hashes := succeeded_hashes;
              succeeded_count_total := Z.of_nat (length succeeded_hashes);
              failed_count_total := failed_count_total;
              overall_rule_success_flag := negb (bool_decide (failed_count_total > 0));
              files_table := record_successes ctx now files succeeded_hashes |}).

(** Stage 5 for [action_type == 'force_in']. *)
Definition force_in_stage (ctx : RuleExecutionContext) (now : string → string)
    (files : FilesTable) (files_to_attempt_action_on : list string) : M (S:=S) Acted :=
  let dest_keys := default [] (destination_service_keys (action ctx)) in
  bind (fetch_metadata respond ctx files_to_attempt_action_on 256)
    (fun fetched =>
       let meta_list := fetched.1 in
       bind (force_in_services respond ctx meta_list (PyList (PyStr <$> dest_keys)) 64)
         (fun result =>
            let succeeded_hashes := files_fully_successful result in
            let failed_count_total := Z.of_nat (size (files_with_errors result)) in
            ret {| succeeded_hashes := succeeded_hashes;
                   succeeded_count_total := Z.of_nat (length succeeded_hashes);
                   failed_count_total := failed_count_total;
                   overall_rule_success_flag :=
                     negb (bool_decide (failed_count_total > 0));
                   files_table := record_successes ctx now files succeeded_hashes |})).

End WithApi.

End Orchestrator.

(** ** Sample inputs *)

Module Samples.

Definition settings : HydrusSettings :=
  {| hydrus_api_url := Some "http://127.0.0.1:45869"; api_address := None;
     hydrus_api_key := Some "key"; api_key := None |}.

Definition services : list Service :=
  [ {| service_key := "dst"; service_type := Some 2 |};
    {| service_key := "old"; service_type := Some 2 |};
    {| service_key := "tags"; service_type := Some 5 |} ].

(** A context for a rule with the given id, importance, action and bypass list. *)
Definition context (rid : string) (importance : Z) (a : Action) (bypass : list string)
    : RuleExecutionContext :=
  {| app_config := settings; rule_id := rid; rule_name := rid;
     rule_importance := importance; action := a; is_manual_run := false;
     override_bypass_list := bypass; deep_run_list := [];
     available_services := services |}.


Definition add_to_action (dests : list string) : Action :=
  {| action_type_field := Some "add_to"; rating_service_key := None;
     destination_service_keys := Some dests |}.
Definition force_in_action (dests : list string) : Action :=
  {| action_type_field := Some "force_in"; rating_service_key := None;
     destination_service_keys := Some dests |}.
Definition modify_rating_action (svc : string) : Action :=
  {| action_type_field := Some "modify_rating"; rating_service_key := Some svc;
     destination_service_keys := None |}.

(** A tracked file won by a force_in rule of importance 3 and by a rating
    rule of importance 5 on the service "stars". *)
Definition tracked_row : FileRow :=
  {| row_rules_in_application := json_dumps ["r0"];
     row_force_in_priority_governance := 3;
     row_correct_placement := json_dumps ["old"];
     row_affected_rating_services := json_dumps ["stars"];
     row_rating_priority_governance := json_dumps {[ "stars" := 5 ]};
     row_last_updated := "2024-01-01T00:00:00Z" |}.

(** The same row with an undecodable rating column. *)
Definition corrupt_row : FileRow :=
  {| row_rules_in_application := json_dumps ["r0"];
     row_force_in_priority_governance := 3;
     row_correct_placement := json_dumps ["old"];
     row_affected_rating_services := json_dumps ["stars"];
     row_rating_priority_governance := Malformed;
     row_last_updated := "2024-01-01T00:00:00Z" |}.

(** The tracked row as a table without the column
    [rating_priority_governance] delivers it. *)
Definition row_without_rating_column : Overrides.SqliteRow :=
  {| Overrides.col_rules_in_application := Some (json_dumps ["r0"]);
     Overrides.col_force_in_priority_governance := Some 3;
     Overrides.col_correct_placement := Some (json_dumps ["old"]);
     Overrides.col_affected_rating_services := Some (json_dumps ["stars"]);
     Overrides.col_rating_priority_governance := None;
     Overrides.col_last_updated := Some "2024-01-01T00:00:00Z" |}.

Definition tracked : FilesTable := {[ "f1" := tracked_row ]}.
Definition corrupted : FilesTable := {[ "f1" := corrupt_row ]}.

(** A rule without a priority field and a force_in rule of priority 1. *)
Definition raw_no_priority : RawRule :=
  {| raw_id := "no_priority"; raw_name := "adds"; raw_priority := None;
     raw_action := add_to_action ["dst"] |}.
Definition raw_forcer : RawRule :=
  {| raw_id := "forcer"; raw_name := "forces"; raw_priority := Some 1;
     raw_action := force_in_action ["dst"] |}.

(** Rules of importance 2, 1, 1 with actions add_to, force_in, add_to. *)
Definition raw_rule (rid : string) (importance : Z) (a : Action) : RawRule :=
  {| raw_id := rid; raw_name := rid; raw_priority := Some importance; raw_action := a |}.

Definition db_rule (created : string) : DbRule :=
  {| db_creation_timestamp := created; db_interval_seconds := PyNone;
     db_force_in_check_frequency := "first_run_only";
     db_force_in_check_interval_runs := PyNone; db_run_count := 0;
     db_has_been_run := 0 |}.

Definition rules_table : gmap string DbRule :=
  {[ "no_priority" := db_rule "2024-01-01 10:00:00";
     "forcer" := db_rule "2024-01-02 10:00:00" ]}.

Definition three_rules : list RawRule :=
  [ raw_rule "first" 2 (add_to_action ["dst"]);
    raw_rule "second" 1 (force_in_action ["dst"]);
    raw_rule "third" 1 (add_to_action ["old"]) ].

Definition three_rules_table : gmap string DbRule :=
  {[ "first" := db_rule "2024-01-01 10:00:00";
     "second" := db_rule "2024-01-03 10:00:00";
     "third" := db_rule "2024-01-02 10:00:00" ]}.

(** A client that refuses every request. *)
Definition refusing_api (s : unit) (req : Actions.Request) : Actions.ApiResult * unit :=
  ({| Actions.success := false; Actions.message := Some "refused";
      Actions.data := None; Actions.status_code := 500 |}, s).

(** A client that accepts every request except those that mention "h6". *)
Definition flaky_api (s : unit) (req : Actions.Request) : Actions.ApiResult * unit :=
  if bool_decide ("h6" ∈ Actions.request_hashes req) then
    ({| Actions.success := false; Actions.message := Some "h6 is locked";
        Actions.data := None; Actions.status_code := 409 |}, s)
  else
    ({| Actions.success := true; Actions.message := None;
        Actions.data := None; Actions.status_code := 200 |}, s).

(** A client with a state: for every file, the services it is in.  The file
    "bb" is locked: every migration or deletion that mentions it is refused. *)
Definition shelf_services (s : gmap string (list string)) (h : string) : list string :=
  default [] (s !! h).

Definition shelf_update (ep k : string) (h : string) (s : gmap string (list string))
    : gmap string (list string) :=
  if bool_decide (ep = "/add_files/migrate_files")
  then <[h := k :: shelf_services s h]> s
  else <[h := filter (fun k' => k' ≠ k) (shelf_services s h)]> s.

Definition shelf_api (s : gmap string (list string)) (req : Actions.Request)
    : Actions.ApiResult * gmap string (list string) :=
  let ok d := {| Actions.success := true; Actions.message := None;
                 Actions.data := d; Actions.status_code := 200 |} in
  let locked := {| Actions.success := false; Actions.message := Some "bb is locked";
                   Actions.data := None; Actions.status_code := 409 |} in
  match Actions.payload req with
  | Actions.MetadataParams hs =>
    (ok (Some ((fun h => {| Actions.hash := Some h;
                            Actions.current_services := shelf_services s h |}) <$> hs)), s)
  | Actions.HashesPayload hs k =>
    if bool_decide ("bb" ∈ hs) then (locked, s)
    else (ok None, foldr (shelf_update (Actions.endpoint req) k) s hs)
  | Actions.HashPayload h k =>
    if bool_decide (h = "bb") then (locked, s)
    else (ok None, shelf_update (Actions.endpoint req) k h s)
  end.

(** Three files: "aa" and "bb" in the service "old", "cc" already in "dst". *)
Definition shelf_world : Actions.World (S:=gmap string (list string)) :=
  {| Actions.remote := {[ "aa" := ["old"]; "bb" := ["old"]; "cc" := ["dst"] ]};
     Actions.calls := [] |}.

Definition candidate (h : string) : Actions.FileMeta :=
  {| Actions.hash := Some h; Actions.current_services := [] |}.

Definition fresh_world : Actions.World := {| Actions.remote := (); Actions.calls := [] |}.

(** A destination key of white space beyond ASCII: U+00A0 (no-break space)
    followed by U+3000 (ideographic space). *)
Definition wide_blank : string :=
  String.string_of_list_ascii (Ascii.ascii_of_nat <$> [194; 160; 227; 128; 128]%nat).

(** A client that accepts every request. *)
Definition accepting_api (s : unit) (req : Actions.Request) : Actions.ApiResult * unit :=
  ({| Actions.success := true; Actions.message := None;
      Actions.data := None; Actions.status_code := 200 |}, s).

(** Settings without an API address. *)
Definition no_address : HydrusSettings :=
  {| hydrus_api_url := None; api_address := Some ""; hydrus_api_key := Some "key";
     api_key := None |}.

Definition offline_context (rid : string) (importance : Z) (a : Action)
    : RuleExecutionContext :=
  {| app_config := no_address; rule_id := rid; rule_name := rid;
     rule_importance := importance; action := a; is_manual_run := false;
     override_bypass_list := []; deep_run_list := [];
     available_services := services |}.

(** Two sets: "nightly" with a schedule of its own, "misc" without. *)
Definition nightly : Scheduler.RuleSet :=
  {| Scheduler.set_id := "nightly"; Scheduler.set_execution_override := Some "custom";
     Scheduler.set_interval_seconds := PyInt 3600 |}.
Definition misc : Scheduler.RuleSet :=
  {| Scheduler.set_id := "misc"; Scheduler.set_execution_override := None;
     Scheduler.set_interval_seconds := PyNone |}.
(** A set marked custom whose interval was never filled in. *)
Definition unfinished : Scheduler.RuleSet :=
  {| Scheduler.set_id := "unfinished"; Scheduler.set_execution_override := Some "custom";
     Scheduler.set_interval_seconds := PyNone |}.

Definition memberships : list Scheduler.Association :=
  [ {| Scheduler.assoc_rule_id := "second"; Scheduler.assoc_set_id := "nightly" |};
    {| Scheduler.assoc_rule_id := "third"; Scheduler.assoc_set_id := "misc" |} ].

(** A clock for timestamps written as a number of seconds. *)
Definition seconds_clock (s : string) : option Z :=
  match NilZero.int_of_string s with
  | Some i => Some (Z.of_int i * 1000000)
  | None => None
  end.

Definition dict_override (r : Rule) : Scheduler.ExecutionOverride :=
  Scheduler.OverrideDict ∅.

(** The LIKE test for rule ids without quotes, backslashes or wildcards:
    true on the text of a list exactly when the list holds the id. *)
Definition like_by_membership (rule_id : string) (t : json_text (list string)) : bool :=
  match t with
  | JsonOf l => bool_decide (rule_id ∈ l)
  | Malformed => false
  end.

(** Seven entries of one group with a message, six of one group without,
    and one other entry. *)
Definition log_entry (i : Z) (message : option string) : Database.LogRow :=
  {| Database.log_id := i; Database.log_run_log_id := "run"; Database.log_file_hash := "aa";
     Database.log_status := "failure"; Database.log_details_json := "{}";
     Database.log_message := message |}.

Definition log_table : list Database.LogRow :=
  (fun i => log_entry i (Some "timeout")) <$> [1; 2; 3; 4; 5; 6; 7].

Definition silent_log_table : list Database.LogRow :=
  ((fun i => log_entry i None) <$> [1; 2; 3; 4; 5; 6])
  ++ [log_entry 7 (Some "timeout")].

End Samples.

(** * Properties *)

(** ** Override resolver *)

Module OverridesFacts.
Import Overrides.

Lemma governed_cases t :
  governed t = true ↔ t = "add_to" ∨ t = "force_in" ∨ t = "modify_rating".
Proof. unfold governed. rewrite bool_decide_eq_true. set_solver. Qed.

Lemma stored_record_update ctx now files h :
  governed (action_type ctx) = true →
  stored_record (update_state_after_success ctx now files h) h
  = Some (mutate_state ctx (load_state (files !! h))).
Proof.
  intros Hg. unfold update_state_after_success. rewrite Hg. simpl.
  unfold stored_record. rewrite lookup_insert_eq. simpl.
  by destruct (mutate_state _ _).
Qed.

Lemma load_state_governance_record files h st :
  governance_record files h = Some st → load_state (files !! h) = st.
Proof.
  unfold governance_record, stored_record, load_state.
  destruct (files !! h) as [r|]; simpl; [|congruence].
  destruct (json_loads (row_rules_in_application r)); simpl; [|done].
  destruct (json_loads (row_correct_placement r)); simpl; [|done].
  destruct (json_loads (row_affected_rating_services r)); simpl; [|done].
  destruct (json_loads (row_rating_priority_governance r)); simpl; [|done].
  congruence.
Qed.

Lemma add_placements_set dests p :
  list_to_set (C:=gset string) (add_placements dests p)
  = list_to_set p ∪ list_to_set (filter (fun key => truthy key = true) dests).
Proof.
  unfold add_placements. revert p. induction dests as [|k dests IH]; intros p; simpl.
  - set_solver.
  - rewrite IH. rewrite filter_cons. destruct (truthy k) eqn:Hk.
    + rewrite decide_True by done. unfold append_if_absent. case_bool_decide.
      * set_solver.
      * rewrite list_to_set_app_L. set_solver.
    + rewrite decide_False by (by intros ?). done.
Qed.

Lemma string_app_nonempty a b c : (String a b +:+ c) ≠ "".
Proof. done. Qed.

(** C1. Override decision asymmetry.  For a file whose governance row decodes
    and has [force_in_priority] p, and rules that are not in the bypass list:
    an [add_to] rule runs iff its importance is >= p, a [force_in] rule runs
    iff its importance is strictly greater than p, and whenever such a rule
    does not run the answer is [skipped] with a non-empty reason. *)
Theorem check_override_asymmetry (ctx_add ctx_force : RuleExecutionContext)
    (files : FilesTable) (file_hash : string) (row : FileRow) (ratings : gmap string Z) :
  files !! file_hash = Some row →
  json_loads (row_rating_priority_governance row) = Some ratings →
  rule_id ctx_add ∉ override_bypass_list ctx_add →
  rule_id ctx_force ∉ override_bypass_list ctx_force →
  action_type ctx_add = "add_to" →
  action_type ctx_force = "force_in" →
  let p := row_force_in_priority_governance row in
  ((check_override ctx_add files file_hash).1 = run ↔ rule_importance ctx_add >= p)
  ∧ ((check_override ctx_force files file_hash).1 = run ↔ rule_importance ctx_force > p)
  ∧ ((check_override ctx_add files file_hash).1 = run
     ∨ ∃ reason, check_override ctx_add files file_hash = (skipped, Some reason)
                 ∧ reason ≠ "")
  ∧ ((check_override ctx_force files file_hash).1 = run
     ∨ ∃ reason, check_override ctx_force files file_hash = (skipped, Some reason)
                 ∧ reason ≠ "").
Proof.
  intros Hrow Hjson Hba Hbf Ha Hf p.
  unfold check_override.
  rewrite (bool_decide_eq_false_2 _ Hba), (bool_decide_eq_false_2 _ Hbf).
  rewrite Ha, Hf, Hrow, Hjson. simpl. fold p.
  repeat split.
  - case_bool_decide; simpl; [done|discriminate].
  - intros ?. by rewrite bool_decide_eq_true_2.
  - case_bool_decide; simpl; [done|discriminate].
  - intros ?. by rewrite bool_decide_eq_true_2.
  - case_bool_decide; simpl; [by left|right].
    eexists. split; [reflexivity|apply string_app_nonempty].
  - case_bool_decide; simpl; [by left|right].
    eexists. split; [reflexivity|apply string_app_nonempty].
Qed.

Lemma check_override_asymmetry_witness :
  let ctx_add := Samples.context "r1" 3 (Samples.add_to_action ["dst"]) [] in
  let ctx_force := Samples.context "r2" 3 (Samples.force_in_action ["dst"]) [] in
  ((check_override ctx_add Samples.tracked "f1").1 = run ↔ rule_importance ctx_add >= 3)
  ∧ ((check_override ctx_force Samples.tracked "f1").1 = run
     ↔ rule_importance ctx_force > 3)
  ∧ ((check_override ctx_add Samples.tracked "f1").1 = run
     ∨ ∃ reason, check_override ctx_add Samples.tracked "f1" = (skipped, Some reason)
                 ∧ reason ≠ "")
  ∧ ((check_override ctx_force Samples.tracked "f1").1 = run
     ∨ ∃ reason, check_override ctx_force Samples.tracked "f1" = (skipped, Some reason)
                 ∧ reason ≠ "").
Proof.
  intros ctx_add ctx_force.
  apply (check_override_asymmetry ctx_add ctx_force Samples.tracked "f1"
           Samples.tracked_row {[ "stars" := 5 ]}).
  - reflexivity.
  - reflexivity.
  - apply not_elem_of_nil.
  - apply not_elem_of_nil.
  - reflexivity.
  - reflexivity.
Defined.

(** C2. State update after success.  A successful [force_in] leaves a record
    whose placement is exactly the rule's non-empty destination keys, whatever
    was recorded before, and whose [force_in_priority] is the rule's
    importance; a successful [add_to] on a file whose governance record is
    [st] leaves the previous placement unioned with the rule's non-empty
    destination keys and leaves [force_in_priority] unchanged. *)
Theorem update_state_force_in_replaces_add_to_unions
    (ctx_force ctx_add : RuleExecutionContext) (now : string)
    (files : FilesTable) (file_hash : string) (st : FileState) :
  action_type ctx_force = "force_in" →
  action_type ctx_add = "add_to" →
  governance_record files file_hash = Some st →
  (∃ st',
      stored_record (update_state_after_success ctx_force now files file_hash) file_hash
      = Some st'
      ∧ correct_placement st'
        = filter (fun key => truthy key = true)
                 (default [] (destination_service_keys (action ctx_force)))
      ∧ force_in_priority_governance st' = rule_importance ctx_force)
  ∧ (∃ st',
      stored_record (update_state_after_success ctx_add now files file_hash) file_hash
      = Some st'
      ∧ list_to_set (C:=gset string) (correct_placement st')
        = list_to_set (correct_placement st)
          ∪ list_to_set (filter (fun key => truthy key = true)
                                (default [] (destination_service_keys (action ctx_add))))
      ∧ force_in_priority_governance st' = force_in_priority_governance st).
Proof.
  intros Hf Ha Hst. split.
  - eexists. split.
    + apply stored_record_update. apply governed_cases. auto.
    + unfold mutate_state. rewrite Hf. simpl. done.
  - eexists. split.
    + apply stored_record_update. apply governed_cases. auto.
    + rewrite (load_state_governance_record _ _ _ Hst).
      unfold mutate_state. rewrite Ha. simpl. split; [|done].
      apply add_placements_set.
Qed.

Lemma update_state_force_in_replaces_add_to_unions_witness :
  let ctx_force := Samples.context "r2" 7 (Samples.force_in_action ["dst"; ""]) [] in
  let ctx_add := Samples.context "r1" 1 (Samples.add_to_action ["dst"; "old"]) [] in
  (∃ st',
      stored_record (update_state_after_success ctx_force "now" Samples.tracked "f1") "f1"
      = Some st'
      ∧ correct_placement st' = ["dst"]
      ∧ force_in_priority_governance st' = 7)
  ∧ (∃ st',
      stored_record (update_state_after_success ctx_add "now" Samples.tracked "f1") "f1"
      = Some st'
      ∧ list_to_set (C:=gset string) (correct_placement st')
        = list_to_set ["old"] ∪ list_to_set ["dst"; "old"]
      ∧ force_in_priority_governance st' = 3).
Proof.
  intros ctx_force ctx_add.
  exact (update_state_force_in_replaces_add_to_unions ctx_force ctx_add "now"
           Samples.tracked "f1"
           {| rules_in_application := ["r0"]; force_in_priority_governance := 3;
              correct_placement := ["old"]; affected_rating_services := ["stars"];
              rating_priority_governance := {[ "stars" := 5 ]} |}
           eq_refl eq_refl eq_refl).
Defined.






(** On a row that has every column, [check_override_row] returns what
    [check_override] returns for the table. *)
Lemma check_override_row_full ctx (files : FilesTable) h :
  check_override_row ctx (sqlite_row <$> files !! h) = Returns (check_override ctx files h).
Proof.
  unfold check_override_row, check_override.
  case_bool_decide; [done|].
  destruct (governed (action_type ctx)); simpl; [|done].
  destruct (files !! h) as [row|]; simpl; [|done].
  destruct (json_loads (row_rating_priority_governance row)) as [m|]; [|done].
  case_bool_decide.
  { destruct (rating_service_key (action ctx)) as [k|]; [|done].
    destruct (truthy k); [|done]. by case_bool_decide. }
  case_bool_decide; [by case_bool_decide|].
  case_bool_decide; [by case_bool_decide|done].
Qed.

(** C10 as stated fails: when the row lacks a column that the resolver
    reads, the lookup raises [IndexError], which the handler for [KeyError]
    and [json.JSONDecodeError] does not catch; [check_override] does not
    return [run], it does not return at all. *)
Lemma check_override_raises_on_missing_column : ¬ fails_open_on_unparsable_state.
Proof.
  intros H.
  destruct (H (Samples.context "r2" 0 (Samples.force_in_action ["dst"]) [])
              Samples.row_without_rating_column) as [reason Hr].
  - right. by left.
  - discriminate Hr.
Qed.



End OverridesFacts.

(** ** Deep-check cadence *)

Module SchedulerFacts.
Import Scheduler.

(** C8. Deep-check cadence of force_in rules: [always] always selects a deep
    run, [never] never does, [first_run_only] selects it exactly when
    [run_count] is 0, [every_x_runs] with an integer interval k > 0 selects it
    exactly when (run_count + 1) mod k = 0, and with any other interval
    (not an integer, or <= 0) never; for k = 3 the deep runs are exactly at
    the run counts 2, 5, 8, ... *)
Theorem deep_run_cadence (rule : Rule) (interval : PyVal) (count : Z) :
  _should_perform_deep_run (with_cadence rule "always" interval count) = true
  ∧ _should_perform_deep_run (with_cadence rule "never" interval count) = false
  ∧ _should_perform_deep_run (with_cadence rule "first_run_only" interval count)
    = bool_decide (count = 0)
  ∧ (∀ k : Z,
       _should_perform_deep_run (with_cadence rule "every_x_runs" (PyInt k) count)
       = bool_decide (0 < k) && bool_decide ((count + 1) `mod` k = 0))
  ∧ match interval with
    | PyInt _ => True
    | _ => _should_perform_deep_run (with_cadence rule "every_x_runs" interval count)
           = false
    end
  ∧ (∀ n : nat,
       _should_perform_deep_run
         (with_cadence rule "every_x_runs" (PyInt 3) (Z.of_nat n)) = true
       ↔ ∃ j : nat, n = (3 * j + 2)%nat).
Proof.
  repeat split.
  - unfold _should_perform_deep_run; simpl. intros k.
    repeat case_bool_decide; simpl; try done; lia.
  - by destruct interval.
  - unfold _should_perform_deep_run; simpl. rewrite bool_decide_eq_true.
    intros H. apply Z.mod_divide in H; [|lia]. destruct H as [q Hq].
    exists (Z.to_nat (q - 1)). lia.
  - intros [j ->]. unfold _should_perform_deep_run; simpl. rewrite bool_decide_eq_true.
    apply Z.mod_divide; [lia|]. exists (Z.of_nat j + 1). lia.
Qed.

End SchedulerFacts.

(** ** Sequential search splitting *)

Module TranslatorFacts.
Import Translator.

Lemma find_candidate_none m i preds c :
  Forall (fun p => ¬ splittable m p) preds →
  find_candidate m i preds c = Some c.
Proof.
  intros H. revert i. induction H as [|[s|g] preds Hp _ IH]; intros i; simpl; [done|done|].
  rewrite bool_decide_eq_false_2 by exact Hp. done.
Qed.

Lemma find_candidate_second m i a g b x :
  splittable m (AnyOf g) →
  find_candidate m i (a ++ AnyOf g :: b) (Some x) = None.
Proof.
  intros Hg. revert i. induction a as [|[s|g'] a IH]; intros i; simpl.
  - by rewrite bool_decide_eq_true_2.
  - done.
  - case_bool_decide; done.
Qed.

Lemma find_candidate_one m i pre g post :
  Forall (fun p => ¬ splittable m p) pre →
  splittable m (AnyOf g) →
  Forall (fun p => ¬ splittable m p) post →
  find_candidate m i (pre ++ AnyOf g :: post) None = Some (Some (g, (i + length pre)%nat)).
Proof.
  intros Hpre Hg Hpost. revert i.
  induction Hpre as [|[s|g'] pre Hp _ IH]; intros i; simpl.
  - rewrite bool_decide_eq_true_2 by exact Hg.
    rewrite find_candidate_none by done. do 3 f_equal. lia.
  - rewrite IH. do 3 f_equal. lia.
  - rewrite bool_decide_eq_false_2 by exact Hp. rewrite IH. do 3 f_equal. lia.
Qed.

Lemma find_candidate_two m i a g1 b g2 c :
  splittable m (AnyOf g1) → splittable m (AnyOf g2) →
  find_candidate m i (a ++ AnyOf g1 :: b ++ AnyOf g2 :: c) None = None.
Proof.
  intros H1 H2. revert i. induction a as [|[s|g'] a IH]; intros i; simpl.
  - rewrite bool_decide_eq_true_2 by exact H1. by apply find_candidate_second.
  - done.
  - case_bool_decide; [|done]. by apply find_candidate_second.
Qed.

Lemma remove_index_middle {A} (pre : list A) x post :
  remove_index (length pre) (pre ++ x :: post) = pre ++ post.
Proof. induction pre; simpl; congruence. Qed.

(** C6. Sequential search splitting.  When exactly one OR-group of the
    predicate list has at least [m] file-service predicates (3 by default),
    the result is one query per file-service predicate of that group, in
    order, each made of all predicates outside the group, the other members
    of the group, and that one file-service predicate.  When no group or more
    than one group is splittable, the result is the original list as a single
    query. *)
Theorem prepare_sequential_searches_split (m : Z)
    (pre post : list Pred) (g : list string)
    (plain : list Pred)
    (a b c : list Pred) (g1 g2 : list string) :
  Forall (fun p => ¬ splittable m p) pre →
  splittable m (AnyOf g) →
  Forall (fun p => ¬ splittable m p) post →
  Forall (fun p => ¬ splittable m p) plain →
  splittable m (AnyOf g1) →
  splittable m (AnyOf g2) →
  prepare_sequential_searches_if_needed (pre ++ AnyOf g :: post) m
  = (fun file_service_pred =>
       (pre ++ post ++ (Literal <$> filter (fun p => is_file_service_predicate p ≠ true) g))
       ++ [Literal file_service_pred])
    <$> filter (fun p => is_file_service_predicate p = true) g
  ∧ prepare_sequential_searches_if_needed plain m = [plain]
  ∧ prepare_sequential_searches_if_needed (a ++ AnyOf g1 :: b ++ AnyOf g2 :: c) m
    = [a ++ AnyOf g1 :: b ++ AnyOf g2 :: c].
Proof.
  intros Hpre Hg Hpost Hplain H1 H2. unfold prepare_sequential_searches_if_needed.
  repeat split.
  - rewrite find_candidate_one by done. simpl.
    rewrite remove_index_middle. by rewrite <- app_assoc.
  - by rewrite find_candidate_none.
  - by rewrite find_candidate_two.
Qed.

Lemma prepare_sequential_searches_split_witness :
  let fs1 := "system:file service currently in a" in
  let fs2 := "system:file service currently in b" in
  let fs3 := "system:file service is not currently in c" in
  let fs4 := "system:file service currently in d" in
  let g := [fs1; "system:archive"; fs2; fs3; fs4] in
  prepare_sequential_searches_if_needed
    ([Literal "tag"; AnyOf ["x"; "y"]] ++ AnyOf g :: [Literal "system:inbox"]) 3
  = [ [Literal "tag"; AnyOf ["x"; "y"]; Literal "system:inbox";
       Literal "system:archive"; Literal fs1];
      [Literal "tag"; AnyOf ["x"; "y"]; Literal "system:inbox";
       Literal "system:archive"; Literal fs2];
      [Literal "tag"; AnyOf ["x"; "y"]; Literal "system:inbox";
       Literal "system:archive"; Literal fs3];
      [Literal "tag"; AnyOf ["x"; "y"]; Literal "system:inbox";
       Literal "system:archive"; Literal fs4] ]
  ∧ prepare_sequential_searches_if_needed [Literal "tag"; AnyOf [fs1; fs2]] 3
    = [[Literal "tag"; AnyOf [fs1; fs2]]]
  ∧ prepare_sequential_searches_if_needed
      ([Literal "tag"] ++ AnyOf [fs1; fs2; fs3] :: [] ++ AnyOf [fs2; fs3; fs4] :: []) 3
    = [[Literal "tag"] ++ AnyOf [fs1; fs2; fs3] :: [] ++ AnyOf [fs2; fs3; fs4] :: []].
Proof.
  intros fs1 fs2 fs3 fs4 g.
  apply (prepare_sequential_searches_split 3
           [Literal "tag"; AnyOf ["x"; "y"]] [Literal "system:inbox"] g
           [Literal "tag"; AnyOf [fs1; fs2]]
           [Literal "tag"] [] [] [fs1; fs2; fs3] [fs2; fs3; fs4]).
  - repeat constructor; vm_compute; [tauto|congruence].
  - vm_compute. congruence.
  - repeat constructor; vm_compute; tauto.
  - repeat constructor; vm_compute; [tauto|congruence].
  - vm_compute. congruence.
  - vm_compute. congruence.
Defined.

End TranslatorFacts.

(** ** Cross-rule execution order *)

Module OrderFacts.
Import AppConfig.

Lemma string_ltb_false t1 t2 : String.ltb t2 t1 = false ↔ String.le t1 t2.
Proof.
  unfold String.le, String.leb, String.ltb. rewrite (String.compare_antisym t1 t2).
  destruct (String.compare t2 t1); simpl; split; try done.
Qed.

Lemma string_ltb_asym t1 t2 : String.ltb t1 t2 = true → String.ltb t2 t1 = false.
Proof.
  unfold String.ltb. rewrite (String.compare_antisym t2 t1).
  by destruct (String.compare t1 t2).
Qed.

Lemma key_ltb_asym k1 k2 : key_ltb k1 k2 = true → key_ltb k2 k1 = false.
Proof.
  destruct k1 as [[i1 f1] t1], k2 as [[i2 f2] t2]. unfold key_ltb.
  repeat case_bool_decide; subst; try done; try lia.
  apply string_ltb_asym.
Qed.

Lemma key_le_trans k1 k2 k3 : key_le k1 k2 → key_le k2 k3 → key_le k1 k3.
Proof.
  destruct k1 as [[i1 f1] t1], k2 as [[i2 f2] t2], k3 as [[i3 f3] t3].
  unfold key_le, key_ltb.
  repeat case_bool_decide; subst; try done; try lia.
  rewrite !string_ltb_false. intros. by etrans.
Qed.

Section SortFacts.
Context {A K : Type} (ltb : K → K → bool) (key : A → K).
Let le (a b : A) : Prop := ltb (key b) (key a) = false.
Hypothesis ltb_asym : ∀ k1 k2, ltb k1 k2 = true → ltb k2 k1 = false.
Hypothesis le_trans : ∀ a b c, le a b → le b c → le a c.

Lemma insert_sorted_elem_of x l y :
  y ∈ insert_sorted ltb key x l ↔ y = x ∨ y ∈ l.
Proof.
  induction l as [|z l IH]; simpl; [set_solver|].
  destruct (ltb (key z) (key x)); [|set_solver].
  rewrite elem_of_cons, IH. set_solver.
Qed.

Lemma insert_sorted_sorted x l :
  StronglySorted le l → StronglySorted le (insert_sorted ltb key x l).
Proof.
  induction 1 as [|y l Hl IH Hy]; simpl; [by repeat constructor|].
  destruct (ltb (key y) (key x)) eqn:Hyx.
  - constructor; [done|]. apply Forall_forall. intros z [->|Hz]%insert_sorted_elem_of.
    + by apply ltb_asym.
    + by eapply Forall_forall in Hy.
  - constructor; [by constructor|]. constructor; [done|].
    eapply Forall_impl; [exact Hy|]. intros z Hz. by apply (le_trans x y z).
Qed.

Lemma py_sorted_sorted l : StronglySorted le (py_sorted ltb key l).
Proof.
  induction l as [|x l IH]; simpl; [constructor|]. by apply insert_sorted_sorted.
Qed.

Lemma insert_sorted_perm x l : insert_sorted ltb key x l ≡ₚ x :: l.
Proof.
  induction l as [|y l IH]; simpl; [done|].
  destruct (ltb (key y) (key x)); [|done]. rewrite IH. apply Permutation_swap.
Qed.

Lemma py_sorted_perm l : py_sorted ltb key l ≡ₚ l.
Proof.
  induction l as [|x l IH]; simpl; [done|]. by rewrite insert_sorted_perm, IH.
Qed.

(** Sorting a list that is already in order changes nothing. *)
Lemma py_sorted_id l : StronglySorted le l → py_sorted ltb key l = l.
Proof.
  induction 1 as [|x l Hl IH Hx]; simpl; [done|]. rewrite IH.
  destruct l as [|y l]; simpl; [done|].
  apply Forall_cons in Hx as [Hxy _]. unfold le in Hxy. by rewrite Hxy.
Qed.
End SortFacts.

Lemma StronglySorted_filter {A} (R : relation A) (P : A → Prop) `{∀ x, Decision (P x)} l :
  StronglySorted R l → StronglySorted R (filter P l).
Proof.
  induction 1 as [|x l Hl IH Hx]; [constructor|].
  rewrite filter_cons. case_decide; [|done]. constructor; [done|].
  apply Forall_forall. intros y [_ Hy]%list_elem_of_filter. by eapply Forall_forall in Hx.
Qed.

Lemma load_rules_in_execution_order raw_rules db :
  in_execution_order (load_rules raw_rules db).
Proof.
  apply (py_sorted_sorted key_ltb _get_rule_sort_key).
  - apply key_ltb_asym.
  - intros a b c. apply key_le_trans.
Qed.

(** The scheduler tick executes the due rules in the cross-rule order. *)
Lemma tick_in_execution_order raw_rules db ids :
  in_execution_order (Scheduler.rules_to_run_this_tick raw_rules db ids).
Proof. apply StronglySorted_filter, load_rules_in_execution_order. Qed.

Lemma load_rules_priority raw_rules db r :
  r ∈ load_rules raw_rules db → ∃ raw, raw ∈ raw_rules ∧ priority r = raw_priority raw.
Proof.
  unfold load_rules, _sort_rules_for_execution.
  rewrite (py_sorted_perm key_ltb _get_rule_sort_key).
  intros (raw & Hraw & Hr)%list_elem_of_omap. exists raw. split; [done|].
  destruct (db !! raw_id raw); simplify_eq/=. done.
Qed.

(** When every rule carries an explicit priority, the second sort of the
    manual routes changes nothing: they run in the cross-rule order too. *)
Lemma manual_order_with_explicit_priorities raw_rules db ids :
  Forall (fun raw => is_Some (raw_priority raw)) raw_rules →
  in_execution_order (Views.run_set_order raw_rules db ids)
  ∧ Views.run_all_rules_manual_order raw_rules db = load_rules raw_rules db.
Proof.
  intros Hprio.
  assert (∀ l, in_execution_order l → (∀ r, r ∈ l → is_Some (priority r)) →
               Views.sort_by_priority l = l) as Hid.
  { intros l Hl Hp. apply py_sorted_id.
    induction Hl as [|x l Hl IH Hx]; [constructor|]. constructor.
    - apply IH. intros r Hr. apply Hp. by right.
    - apply Forall_forall. intros y Hy.
      eapply Forall_forall in Hx; [|exact Hy].
      destruct (Hp x) as [px Hpx]; [by left|]. destruct (Hp y) as [py Hpy]; [by right|].
      revert Hx. unfold key_le, _get_rule_sort_key, key_ltb. rewrite Hpx, Hpy. simpl.
      intros Hx. apply Z.ltb_ge. destruct (decide (py = px)) as [->|Hne]; [lia|].
      rewrite bool_decide_eq_false_2 in Hx by done.
      apply bool_decide_eq_false in Hx. lia. }
  assert (∀ r, r ∈ load_rules raw_rules db → is_Some (priority r)) as Hall.
  { intros r (raw & Hraw & ->)%load_rules_priority.
    by eapply Forall_forall in Hprio. }
  split.
  - unfold Views.run_set_order. destruct ids as [ids|].
    + rewrite Hid.
      * apply StronglySorted_filter, load_rules_in_execution_order.
      * apply StronglySorted_filter, load_rules_in_execution_order.
      * intros r [_ Hr]%list_elem_of_filter. auto.
    + rewrite Hid; [apply load_rules_in_execution_order..|done].
  - apply Hid; [apply load_rules_in_execution_order|done].
Qed.

(** The scenario of the specification: importances 2, 1, 1 with actions
    add_to, force_in, add_to run as force_in (1), add_to (1), add_to (2), on
    every path. *)
Example three_rules_order :
  id <$> load_rules Samples.three_rules Samples.three_rules_table
  = ["second"; "third"; "first"]
  ∧ id <$> Views.run_set_order Samples.three_rules Samples.three_rules_table None
    = ["second"; "third"; "first"]
  ∧ id <$> Scheduler.rules_to_run_this_tick Samples.three_rules Samples.three_rules_table
             {[ "first"; "second"; "third" ]}
    = ["second"; "third"; "first"].
Proof. repeat split; by vm_compute. Qed.

(** C7. On a rule without a priority field the manual routes diverge from
    the documented order.  [_get_rule_sort_key] gives such a rule importance
    1, so after [load_rules] the force_in rule of priority 1 comes first, and
    the scheduler tick keeps that order; [run_set_route] and
    [run_all_rules_manual_route] then sort again with the default 0 and
    execute the rule without priority first, although its composite key is
    the greater one. *)
Theorem manual_runs_resort_with_default_zero :
  let raw_rules := [Samples.raw_no_priority; Samples.raw_forcer] in
  let executed := Views.run_set_order raw_rules Samples.rules_table None in
  id <$> executed = ["no_priority"; "forcer"]
  ∧ (∃ first second,
       executed = [first; second]
       ∧ key_ltb (_get_rule_sort_key second) (_get_rule_sort_key first) = true)
  ∧ id <$> Views.run_all_rules_manual_order raw_rules Samples.rules_table
    = ["no_priority"; "forcer"]
  ∧ id <$> Scheduler.rules_to_run_this_tick raw_rules Samples.rules_table
             {[ "no_priority"; "forcer" ]}
    = ["forcer"; "no_priority"].
Proof.
  intros raw_rules executed. split; [by vm_compute|]. split.
  - eexists _, _. split; by vm_compute.
  - split; by vm_compute.
Qed.

End OrderFacts.

(** ** Action executor *)

Module ActionsFacts.
Import Actions.

Section BatchFacts.
Context {S : Type} (respond : S → Request → ApiResult * S).
Implicit Types (w : World (S:=S)) (acc : BatchResult).

Lemma for_each_fmap {A B St} (g : A → B) (body : B → St → M (S:=S) St) l st w :
  for_each (fun x => body (g x)) l st w = for_each body (g <$> l) st w.
Proof.
  revert st w. induction l as [|x l IH]; intros st w; simpl; [done|].
  unfold bind. destruct (body (g x) st w) as [[st' w']|]; [apply IH|done].
Qed.

Lemma retry_items_outcome mk sfmt items acc w :
  ∃ rs acc' w',
    for_each (retry_item respond mk sfmt) items acc w = Some (acc', w')
    ∧ length rs = length items
    ∧ calls w' = calls w ++ zip ((fun item => mk (sfmt item)) <$> items) rs
    ∧ successful_items acc'
      = successful_items acc
        ++ (fst <$> filter (fun ir => success ir.2 = true) (zip items rs))
    ∧ failed_items_with_errors acc'
      = failed_items_with_errors acc
        ++ ((fun ir : string * ApiResult =>
               (ir.1,
                default ("Unknown API error for item " +:+ String.substring 0 50 ir.1)
                        (message ir.2),
                Some (status_code ir.2)))
            <$> filter (fun ir => success ir.2 ≠ true) (zip items rs)).
Proof.
  revert acc w. induction items as [|item items IH]; intros acc w.
  - exists [], acc, w. simpl. by rewrite !app_nil_r.
  - simpl. unfold bind at 1. unfold retry_item at 1. unfold bind, call_hydrus_api.
    destruct (respond (remote w) (mk (sfmt item))) as [r s'] eqn:Hr.
    destruct (success r) eqn:Hok; simpl.
    + edestruct IH as (rs & acc' & w' & -> & Hlen & Hcalls & Hs & Hf).
      exists (r :: rs), acc', w'. split; [done|]. simpl in *.
      rewrite Hcalls, Hs, Hf. rewrite !filter_cons. simpl.
      rewrite decide_True by done. rewrite decide_False by (rewrite Hok; auto).
      simpl. rewrite <- !app_assoc. auto.
    + edestruct IH as (rs & acc' & w' & -> & Hlen & Hcalls & Hs & Hf).
      exists (r :: rs), acc', w'. split; [done|]. simpl in *.
      rewrite Hcalls, Hs, Hf. rewrite !filter_cons. simpl.
      rewrite decide_False by (rewrite Hok; auto).
      rewrite decide_True by (rewrite Hok; auto).
      simpl. rewrite <- !app_assoc. auto.
Qed.

Lemma process_batch_outcome mk bfmt sfmt b acc w :
  b ≠ [] →
  ∃ o acc' w',
    process_batch respond mk bfmt sfmt b acc w = Some (acc', w')
    ∧ bo_items o = b
    ∧ outcome_wf o
    ∧ calls w' = calls w ++ outcome_calls mk bfmt sfmt o
    ∧ successful_items acc' = successful_items acc ++ outcome_successes o
    ∧ failed_items_with_errors acc' = failed_items_with_errors acc ++ outcome_failures o.
Proof.
  intros Hb. unfold process_batch. rewrite bool_decide_eq_false_2 by done.
  unfold bind, call_hydrus_api.
  destruct (respond (remote w) (mk (bfmt b))) as [r s'] eqn:Hr.
  destruct (success r) eqn:Hok.
  - exists {| bo_items := b; bo_bulk := r; bo_retries := [] |}. eexists _, _.
    split; [reflexivity|].
    unfold outcome_wf, outcome_calls, outcome_successes, outcome_failures. simpl.
    rewrite Hok. rewrite zip_with_nil_r. rewrite app_nil_r. done.
  - edestruct (retry_items_outcome mk sfmt b acc) as (rs & acc' & w' & -> & Hlen & Hcalls & Hs & Hf).
    exists {| bo_items := b; bo_bulk := r; bo_retries := rs |}. eexists _, _.
    split; [reflexivity|].
    unfold outcome_wf, outcome_calls, outcome_successes, outcome_failures. simpl.
    rewrite Hok. simpl in Hcalls. rewrite Hcalls, <- app_assoc. done.
Qed.

Lemma batches_outcome mk bfmt sfmt batches acc w :
  Forall (fun b => b ≠ []) batches →
  ∃ outcomes acc' w',
    for_each (process_batch respond mk bfmt sfmt) batches acc w = Some (acc', w')
    ∧ bo_items <$> outcomes = batches
    ∧ Forall outcome_wf outcomes
    ∧ calls w' = calls w ++ concat (outcome_calls mk bfmt sfmt <$> outcomes)
    ∧ successful_items acc'
      = successful_items acc ++ concat (outcome_successes <$> outcomes)
    ∧ failed_items_with_errors acc'
      = failed_items_with_errors acc ++ concat (outcome_failures <$> outcomes).
Proof.
  intros Hne. revert acc w. induction Hne as [|b batches Hb _ IH]; intros acc w.
  - exists [], acc, w. simpl. by rewrite !app_nil_r.
  - simpl. unfold bind at 1.
    destruct (process_batch_outcome mk bfmt sfmt b acc w Hb)
      as (o & acc1 & w1 & -> & Ho & Hwf & Hcalls & Hs & Hf).
    destruct (IH acc1 w1) as (os & acc' & w' & -> & Hos & Hwfs & Hcalls' & Hs' & Hf').
    exists (o :: os), acc', w'. split; [done|]. rewrite !fmap_cons. cbn [concat].
    rewrite Ho, Hos, Hcalls', Hcalls, Hs', Hs, Hf', Hf, <- !app_assoc. auto.
Qed.
End BatchFacts.

Lemma consecutive_batches_cons n l batches :
  (0 < n)%nat → l ≠ [] →
  consecutive_batches n (drop n l) batches →
  consecutive_batches n l (take n l :: batches).
Proof.
  intros Hn Hl (Hc & Hall & Hfull). split; [|split].
  - simpl. rewrite Hc. apply take_drop.
  - constructor; [|done]. split.
    + destruct l; [done|]. destruct n; [lia|done].
    + rewrite length_take. lia.
  - intros [|i] b Hi Hlen; simpl in *.
    + injection Hi as <-. rewrite length_take.
      destruct batches as [|b' batches]; [simpl in Hlen; lia|].
      apply Forall_cons in Hall as [[Hb' _] _].
      assert (drop n l ≠ []) as Hd.
      { rewrite <- Hc. simpl. destruct b'; done. }
      assert (n < length l)%nat; [|lia].
      destruct (decide (n < length l)%nat); [done|].
      rewrite drop_ge in Hd by lia. done.
    + apply (Hfull i); [done|lia].
Qed.

Lemma range_batches (items : list string) (bs : Z) fuel (i : nat) :
  0 < bs →
  (length items - i ≤ fuel)%nat →
  consecutive_batches (Z.to_nat bs) (drop i items)
    ((fun j => slice items j bs)
       <$> range_from fuel (Z.of_nat i) (Z.of_nat (length items)) bs).
Proof.
  intros Hbs. revert i. induction fuel as [|fuel IH]; intros i Hfuel; simpl.
  - rewrite drop_ge by lia. split; [done|]. split; [constructor|]. intros ? ? [=].
  - case_bool_decide as Hi.
    + simpl. unfold slice at 1. rewrite Nat2Z.id.
      apply consecutive_batches_cons; [lia| |].
      * intros Hd. apply (f_equal length) in Hd. rewrite length_drop in Hd. simpl in Hd. lia.
      * rewrite drop_drop.
        replace (Z.of_nat i + bs) with (Z.of_nat (i + Z.to_nat bs)) by lia.
        apply IH. lia.
    + rewrite drop_ge by lia. split; [done|]. split; [constructor|]. intros ? ? [=].
Qed.

(** C5. [batch_api_call_with_retry], with an API address configured and a
    positive batch size, cuts the items into consecutive batches of that size
    and issues one bulk call per batch; when the bulk call of a batch fails,
    exactly the items of that batch are retried individually, those whose
    retry succeeds go to [successful_items] and the others to
    [failed_items_with_errors] with the message and status of their own retry;
    the items of a batch whose bulk call succeeds are not retried and all go
    to [successful_items]. *)
Theorem batch_api_call_with_retry_batches {S : Type}
    (respond : S → Request → ApiResult * S)
    (ctx : RuleExecutionContext) (endpoint method : string) (items : list string)
    (batch_size : Z) (batch_fmt : list string → Payload) (single_fmt : string → Payload)
    (timeout : Z) (w : World) :
  truthy_opt (api_address_of ctx) = true →
  0 < batch_size →
  batched_with_retries respond ctx endpoint method items batch_size
    batch_fmt single_fmt timeout w.
Proof.
  intros Haddr Hbs. unfold batched_with_retries, batch_api_call_with_retry.
  case_bool_decide as Hitems.
  - subst items. eexists _, w, []. split; [reflexivity|]. simpl.
    rewrite app_nil_r. repeat split; done.
  - rewrite Haddr. simpl. unfold py_range.
    rewrite bool_decide_eq_false_2 by lia. rewrite bool_decide_eq_false_2 by lia.
    rewrite for_each_fmap. rewrite Nat2Z.id.
    pose proof (range_batches items batch_size (length items) 0 Hbs) as Hcons.
    rewrite drop_0 in Hcons. specialize (Hcons ltac:(lia)).
    edestruct (batches_outcome respond (request_for ctx endpoint method timeout)
                 batch_fmt single_fmt) as (os & acc' & w' & -> & Hos & Hwf & Hcalls & Hs & Hf).
    { destruct Hcons as (_ & Hall & _). eapply Forall_impl; [exact Hall|]. by intros ? [? _]. }
    exists acc', w', os. split; [done|]. rewrite Hos. auto.
Qed.

Lemma batch_api_call_with_retry_batches_witness :
  let ctx := Samples.context "r1" 1 (Samples.add_to_action ["dst"]) [] in
  truthy_opt (api_address_of ctx) = true
  ∧ 0 < 4
  ∧ batched_with_retries Samples.flaky_api ctx "/add_files/migrate_files" "POST"
      ["h1"; "h2"; "h3"; "h4"; "h5"; "h6"; "h7"; "h8"; "h9"; "h10"] 4
      (fun bh => HashesPayload bh "dst") (fun sh => HashPayload sh "dst") 180
      Samples.fresh_world.
Proof.
  intros ctx.
  assert (truthy_opt (api_address_of ctx) = true) as Haddr by reflexivity.
  assert (0 < 4) as Hbs by lia.
  split; [exact Haddr|]. split; [exact Hbs|].
  exact (batch_api_call_with_retry_batches Samples.flaky_api ctx _ _ _ 4 _ _ 180
           Samples.fresh_world Haddr Hbs).
Defined.

(** The scenario of the specification: ten items in batches of four, where
    the bulk call of the second batch fails and one of its items fails again
    on its own. *)
Example batch_of_ten_by_four :
  let ctx := Samples.context "r1" 1 (Samples.add_to_action ["dst"]) [] in
  ∃ w',
    batch_api_call_with_retry Samples.flaky_api ctx "/add_files/migrate_files" "POST"
      ["h1"; "h2"; "h3"; "h4"; "h5"; "h6"; "h7"; "h8"; "h9"; "h10"] 4
      (fun bh => HashesPayload bh "dst") (fun sh => HashPayload sh "dst") 180
      Samples.fresh_world
    = Some ({| successful_items := ["h1"; "h2"; "h3"; "h4"; "h5"; "h7"; "h8"; "h9"; "h10"];
               failed_items_with_errors := [("h6", "h6 is locked", Some 409)] |}, w')
    ∧ (payload ∘ fst) <$> calls w'
      = [ HashesPayload ["h1"; "h2"; "h3"; "h4"] "dst";
          HashesPayload ["h5"; "h6"; "h7"; "h8"] "dst";
          HashPayload "h5" "dst"; HashPayload "h6" "dst";
          HashPayload "h7" "dst"; HashPayload "h8" "dst";
          HashesPayload ["h9"; "h10"] "dst" ].
Proof. intros ctx. eexists. split; by vm_compute. Qed.

Lemma phase_of_record_error h ph d E h' :
  phase_of (record_error h ph d E) h'
  = if decide (h' = h) then Some (default ph (phase_of E h)) else phase_of E h'.
Proof.
  unfold phase_of, record_error.
  destruct (E !! h) as [e|] eqn:He; case_decide; subst;
    rewrite ?lookup_insert_eq, ?lookup_insert_ne by done; rewrite ?He; done.
Qed.

Ltac decide_cases :=
  repeat (case_decide; simplify_eq; try done); try done; try (exfalso; set_solver).

(** A loop that discards each failed file and records it under [ph]. *)
Lemma discard_failures_spec {A} (f : gset string * gmap string ErrEntry → A → gset string * gmap string ErrEntry)
    (key : A → string) (ph : string) xs st :
  (∀ st x, ∃ d, f st x = (st.1 ∖ {[key x]}, record_error (key x) ph d st.2)) →
  (foldl f st xs).1 = st.1 ∖ list_to_set (key <$> xs)
  ∧ ∀ h, phase_of (foldl f st xs).2 h
         = if decide (h ∈ key <$> xs) then Some (default ph (phase_of st.2 h))
           else phase_of st.2 h.
Proof.
  intros Hf. revert st. induction xs as [|x xs IH]; intros st.
  - split; [set_solver|]. intros h. simpl. decide_cases.
  - simpl foldl. destruct (IH (f st x)) as [HC HE]. rewrite HC.
    destruct (Hf st x) as [d Hd]. rewrite Hd in *. simpl fst in *. simpl snd in *.
    split; [set_solver|]. intros h. rewrite HE.
    rewrite !phase_of_record_error. rewrite fmap_cons.
    decide_cases.
Qed.

(** A loop that discards a listed file only while it is still alive. *)
Lemma discard_alive_spec (d : ErrDetail) (ph : string) xs (st : gset string * gmap string ErrEntry) :
  let g := fun (st : gset string * gmap string ErrEntry) (h : string) =>
             if bool_decide (h ∈ st.1) then (st.1 ∖ {[h]}, record_error h ph d st.2) else st in
  (foldl g st xs).1 = st.1 ∖ list_to_set xs
  ∧ ∀ h, phase_of (foldl g st xs).2 h
         = if decide (h ∈ xs ∧ h ∈ st.1) then Some (default ph (phase_of st.2 h))
           else phase_of st.2 h.
Proof.
  intros g. revert st. induction xs as [|x xs IH]; intros st.
  - split; [set_solver|]. intros h. simpl. decide_cases.
  - simpl foldl. destruct (IH (g st x)) as [HC HE]. rewrite HC.
    assert (g st x = if bool_decide (x ∈ st.1) then (st.1 ∖ {[x]}, record_error x ph d st.2) else st) as Hg by done.
    split.
    + rewrite Hg. case_bool_decide; simpl; set_solver.
    + intros h. rewrite HE. rewrite Hg. case_bool_decide; simpl fst; simpl snd.
      * rewrite !phase_of_record_error. decide_cases.
      * decide_cases.
Qed.

Lemma elem_of_concat {A} (x : A) (ls : list (list A)) :
  x ∈ concat ls ↔ ∃ l, x ∈ l ∧ l ∈ ls.
Proof.
  induction ls as [|l ls IH]; simpl.
  - split; [by intros ?%elem_of_nil|]. by intros (? & _ & ?%elem_of_nil).
  - rewrite elem_of_app, IH. split.
    + intros [?|(l' & ? & ?)]; [exists l|exists l']; split; try done; by constructor.
    + intros (l' & Hx & [->|?]%elem_of_cons); [by left|right; eauto].
Qed.

Section Phases.
Context {S : Type} (respond : S → Request → ApiResult * S).
Implicit Types (w : World (S:=S)).

Lemma outcome_calls_within ctx ep meth t k (o : BatchOutcome) (X : gset string) :
  (∀ h, h ∈ bo_items o → h ∈ X) →
  Forall (call_within ep X)
    (outcome_calls (request_for ctx ep meth t)
       (fun bh => HashesPayload bh k) (fun sh => HashPayload sh k) o).
Proof.
  intros HX. unfold outcome_calls. constructor.
  - split; [done|]. simpl. done.
  - apply Forall_forall. intros [req r] Hin.
    apply elem_of_zip_l in Hin. simpl in Hin.
    apply list_elem_of_fmap in Hin as (item & -> & Hitem).
    split; [done|]. simpl. intros h ->%list_elem_of_singleton. auto.
Qed.

Lemma outcome_failures_items (o : BatchOutcome) f :
  f ∈ outcome_failures o → f.1.1 ∈ bo_items o.
Proof.
  unfold outcome_failures. destruct (success (bo_bulk o)); [by intros ?%elem_of_nil|].
  intros (ir & -> & Hir)%list_elem_of_fmap. simpl.
  apply list_elem_of_filter in Hir as [_ Hir]. destruct ir. by apply elem_of_zip_l in Hir.
Qed.

(** The footprint of a batched call made by a phase: all its calls go to
    the phase's endpoint and mention only the given files, and only given
    files can fail. *)
Lemma batch_footprint ctx ep meth items bs k t w (X : gset string) :
  0 < bs →
  (∀ h, h ∈ items → h ∈ X) →
  ∃ res w' tr,
    batch_api_call_with_retry respond ctx ep meth items bs
      (fun bh => HashesPayload bh k) (fun sh => HashPayload sh k) t w = Some (res, w')
    ∧ calls w' = calls w ++ tr
    ∧ Forall (call_within ep X) tr
    ∧ ∀ f, f ∈ failed_items_with_errors res → f.1.1 ∈ X.
Proof.
  intros Hbs HX. unfold batch_api_call_with_retry.
  case_bool_decide as Hitems.
  { eexists _, w, []. split; [reflexivity|]. rewrite app_nil_r. simpl.
    split; [done|]. split; [constructor|]. by intros ? ?%elem_of_nil. }
  destruct (truthy_opt (api_address_of ctx)) eqn:Haddr; simpl.
  2:{ eexists _, w, []. split; [reflexivity|]. rewrite app_nil_r. simpl.
      split; [done|]. split; [constructor|].
      intros f (item & -> & Hitem)%list_elem_of_fmap. simpl. auto. }
  unfold py_range.
  rewrite bool_decide_eq_false_2 by lia. rewrite bool_decide_eq_false_2 by lia.
  rewrite for_each_fmap. rewrite Nat2Z.id.
  pose proof (range_batches items bs (length items) 0 Hbs) as Hcons.
  rewrite drop_0 in Hcons. specialize (Hcons ltac:(lia)).
  destruct Hcons as (Hconcat & Hall & _).
  edestruct (batches_outcome respond (request_for ctx ep meth t)
               (fun bh => HashesPayload bh k) (fun sh => HashPayload sh k))
    as (os & acc' & w' & -> & Hos & Hwf & Hcalls & Hs & Hf).
  { eapply Forall_impl; [exact Hall|]. by intros ? [? _]. }
  eexists acc', w', _. split; [done|]. split; [exact Hcalls|].
  assert (∀ o, o ∈ os → ∀ h, h ∈ bo_items o → h ∈ X) as Hos_items.
  { assert (items = concat (bo_items <$> os)) as Hitems'.
    { rewrite Hos. symmetry. exact Hconcat. }
    intros o Ho h Hh. apply HX. rewrite Hitems'.
    apply elem_of_concat. exists (bo_items o). split; [done|].
    apply list_elem_of_fmap. eauto. }
  split.
  - apply Forall_concat, Forall_fmap, Forall_forall. intros o Ho.
    apply outcome_calls_within. eauto.
  - intros f Hfin. rewrite Hf in Hfin. simpl in Hfin.
    apply elem_of_concat in Hfin as (fs & Hfs & Hin).
    apply list_elem_of_fmap in Hin as (o & -> & Ho).
    eapply Hos_items; [done|]. by apply outcome_failures_items.
Qed.

Lemma copy_failure_step dest_key st f :
  ∃ d, copy_failure dest_key st f = (st.1 ∖ {[f.1.1]}, record_error f.1.1 "copy" d st.2).
Proof. destruct f as [[h msg] status]. eexists. reflexivity. Qed.

Lemma delete_failure_step sk st f :
  ∃ d, delete_failure sk st f = (st.1 ∖ {[f.1.1]}, record_error f.1.1 "delete" d st.2).
Proof. destruct f as [[h msg] status]. eexists. reflexivity. Qed.

Lemma copy_phase_spec ctx bs dest_keys (C : gset string) E w :
  0 < bs →
  ∃ C' E' w' tr,
    copy_phase respond ctx bs dest_keys (C, E) w = Some ((C', E'), w')
    ∧ calls w' = calls w ++ tr
    ∧ Forall (call_within "/add_files/migrate_files" C) tr
    ∧ C' ⊆ C
    ∧ ∀ h, phase_of E' h
           = if decide (h ∈ C ∖ C') then Some (default "copy" (phase_of E h))
             else phase_of E h.
Proof.
  intros Hbs. revert C E w. induction dest_keys as [|dest_key rest IH]; intros C E w.
  - exists C, E, w, []. simpl. rewrite app_nil_r. repeat split; try done.
    intros h. decide_cases.
  - simpl. case_bool_decide as Hempty.
    { exists C, E, w, []. simpl. rewrite app_nil_r. repeat split; try done.
      intros h. decide_cases. }
    unfold bind.
    destruct (batch_footprint ctx "/add_files/migrate_files" "POST" (elements C) bs
                dest_key 180 w C Hbs) as (res & w1 & tr1 & -> & Hcalls1 & Htr1 & Hfail).
    { intros h. by rewrite elem_of_elements. }
    destruct (discard_failures_spec (copy_failure dest_key) (fun f => f.1.1) "copy"
                (failed_items_with_errors res) (C, E)) as [HC1 HE1].
    { intros. apply copy_failure_step. }
    destruct (foldl (copy_failure dest_key) (C, E) (failed_items_with_errors res))
      as [C1 E1] eqn:Hfold. simpl in HC1, HE1.
    destruct (IH C1 E1 w1) as (C' & E' & w' & tr & -> & Hcalls & Htr & Hsub & HE').
    exists C', E', w', (tr1 ++ tr). split; [done|].
    assert (C1 ⊆ C) by set_solver.
    split; [by rewrite Hcalls, Hcalls1, app_assoc|].
    split.
    { apply Forall_app. split; [done|]. eapply Forall_impl; [exact Htr|].
      intros c [? Hc]. split; [done|]. set_solver. }
    split; [set_solver|].
    intros h. rewrite HE', HE1.
    assert (h ∈ (fun f : string * string * option Z => f.1.1) <$> failed_items_with_errors res
            → h ∈ C) as Hin.
    { intros (f & -> & Hf)%list_elem_of_fmap. auto. }
    assert (h ∈ C1 ↔ h ∈ C ∧ h ∉ (fun f : string * string * option Z => f.1.1) <$> failed_items_with_errors res) as HC1'.
    { rewrite HC1. set_solver. }
    decide_cases.
    all: try (destruct (phase_of E h); done).
    all: exfalso; set_solver.
Qed.

(** Phase 2: what the metadata fetch returns. *)
Lemma fetch_batches_spec ctx t batches acc w (X : gset string) :
  metadata_contract respond →
  (∀ b h, b ∈ batches → h ∈ b → h ∈ X) →
  ∃ fresh errs w' tr good,
    for_each (fetch_batch respond (request_for ctx "/get_files/file_metadata" "GET" t))
      batches acc w = Some ((acc.1 ++ fresh, acc.2 ++ errs), w')
    ∧ calls w' = calls w ++ tr
    ∧ Forall (call_within "/get_files/file_metadata" X) tr
    ∧ hash <$> fresh ≡ₚ Some <$> good
    ∧ good ++ concat (hashes_in_batch <$> errs) ≡ₚ concat batches.
Proof.
  intros Hcontract. revert acc w.
  induction batches as [|b batches IH]; intros acc w HX.
  - exists [], [], w, [], []. simpl. rewrite !app_nil_r. by destruct acc.
  - simpl. unfold bind at 1. unfold fetch_batch at 1. unfold bind, call_hydrus_api.
    set (req := request_for ctx "/get_files/file_metadata" "GET" t (MetadataParams b)).
    pose proof (Hcontract (remote w) req b) as Hc.
    destruct (respond (remote w) req) as [r s'] eqn:Hr. simpl in Hc.
    assert (call_within "/get_files/file_metadata" X (req, r)) as Hcall.
    { split; [done|]. simpl. intros h Hh. apply (HX b); [by left|done]. }
    assert (∀ b' h, b' ∈ batches → h ∈ b' → h ∈ X) as HX'.
    { intros b' h Hb'. apply HX. by right. }
    destruct (success r) eqn:Hok; [destruct (data r) as [metas|] eqn:Hdata|]; simpl.
    + edestruct (IH (acc.1 ++ metas, acc.2)) as (fresh & errs & w' & tr & good & -> & Hcalls & Htr & Hfresh & Hperm);
        [done|].
      exists (metas ++ fresh), errs, w', ((req, r) :: tr), (b ++ good).
      simpl in *. rewrite <- !app_assoc. split; [done|].
      split; [by rewrite Hcalls, <- app_assoc|]. split; [by constructor|].
      split.
      * rewrite !fmap_app. rewrite Hfresh. by rewrite (Hc metas eq_refl eq_refl eq_refl).
      * by rewrite Hperm.
    + match goal with
      | |- context [for_each _ _ (_, _ ++ [?e]) _] => set (err := e)
      end.
      edestruct (IH (acc.1, acc.2 ++ [err])) as (fresh & errs & w' & tr & good & -> & Hcalls & Htr & Hfresh & Hperm);
        [done|].
      exists fresh, (err :: errs), w', ((req, r) :: tr), good.
      split; [by simpl; rewrite <- app_assoc|].
      split; [by rewrite Hcalls; simpl; rewrite <- app_assoc|]. split; [by constructor|].
      split; [done|].
      rewrite fmap_cons. cbn [concat]. change (hashes_in_batch err) with b.
      rewrite <- Hperm. rewrite !app_assoc. f_equiv. apply Permutation_app_comm.
    + match goal with
      | |- context [for_each _ _ (_, _ ++ [?e]) _] => set (err := e)
      end.
      edestruct (IH (acc.1, acc.2 ++ [err])) as (fresh & errs & w' & tr & good & -> & Hcalls & Htr & Hfresh & Hperm);
        [done|].
      exists fresh, (err :: errs), w', ((req, r) :: tr), good.
      split; [by simpl; rewrite <- app_assoc|].
      split; [by rewrite Hcalls; simpl; rewrite <- app_assoc|]. split; [by constructor|].
      split; [done|].
      rewrite fmap_cons. cbn [concat]. change (hashes_in_batch err) with b.
      rewrite <- Hperm. rewrite !app_assoc. f_equiv. apply Permutation_app_comm.
Qed.

Lemma fetch_metadata_spec ctx hs bs w (X : gset string) :
  0 < bs →
  metadata_contract respond →
  (∀ h, h ∈ hs → h ∈ X) →
  ∃ fresh errs w' tr good,
    fetch_metadata respond ctx hs bs w = Some ((fresh, errs), w')
    ∧ calls w' = calls w ++ tr
    ∧ Forall (call_within "/get_files/file_metadata" X) tr
    ∧ hash <$> fresh ≡ₚ Some <$> good
    ∧ good ++ concat (hashes_in_batch <$> errs) ≡ₚ hs.
Proof.
  intros Hbs Hcontract HX. unfold fetch_metadata.
  case_bool_decide as Hhs.
  { subst hs. exists [], [], w, [], []. simpl. by rewrite app_nil_r. }
  destruct (truthy_opt (api_address_of ctx)) eqn:Haddr; simpl.
  2:{ eexists [], [_], w, [], []. simpl. rewrite !app_nil_r. done. }
  unfold py_range.
  rewrite bool_decide_eq_false_2 by lia. rewrite bool_decide_eq_false_2 by lia.
  rewrite for_each_fmap. rewrite Nat2Z.id.
  pose proof (range_batches hs bs (length hs) 0 Hbs) as Hcons.
  rewrite drop_0 in Hcons. specialize (Hcons ltac:(lia)).
  destruct Hcons as (Hconcat & _ & _). change (Z.of_nat 0) with 0 in Hconcat.
  set (batches := (fun j => slice hs j bs) <$> _) in *.
  destruct (fetch_batches_spec ctx 60 batches ([], []) w X Hcontract)
    as (fresh & errs & w' & tr & good & -> & Hcalls & Htr & Hfresh & Hperm).
  { intros b h Hb Hh. apply HX. rewrite <- Hconcat. apply elem_of_concat. eauto. }
  exists fresh, errs, w', tr, good. simpl. split; [done|].
  rewrite Hconcat in Hperm. done.
Qed.

Lemma discard_meta_errors_spec errs (st : gset string * gmap string ErrEntry) :
  let bad := concat (hashes_in_batch <$> errs) in
  (discard_meta_errors errs st).1 = st.1 ∖ list_to_set bad
  ∧ ∀ h, phase_of (discard_meta_errors errs st).2 h
         = if decide (h ∈ bad ∧ h ∈ st.1) then Some (default "verify" (phase_of st.2 h))
           else phase_of st.2 h.
Proof.
  unfold discard_meta_errors. revert st. induction errs as [|err errs IH]; intros st.
  - simpl. split; [set_solver|]. intros h. decide_cases.
  - rewrite fmap_cons. cbn [concat foldl].
    set (st1 := foldl (meta_fetch_failure err) st (hashes_in_batch err)).
    destruct (IH st1) as [HC HE]. simpl in HC, HE.
    destruct (discard_alive_spec
                {| err_service_key := None;
                   err_message := Text ("Meta fetch fail: " +:+ me_message err);
                   err_status_code := me_status_code err |}
                "verify" (hashes_in_batch err) st) as [HC1 HE1].
    fold (meta_fetch_failure err) in HC1, HE1. fold st1 in HC1, HE1.
    split.
    + rewrite HC, HC1. rewrite list_to_set_app_L. set_solver.
    + intros h. rewrite HE, HE1.
      assert (h ∈ st1.1 ↔ h ∈ st.1 ∧ h ∉ hashes_in_batch err) as Hst1.
      { rewrite HC1. set_solver. }
      pose proof (elem_of_app (hashes_in_batch err) (concat (hashes_in_batch <$> errs)) h).
      decide_cases.
      all: try (destruct (phase_of st.2 h); done).
      all: exfalso; naive_solver.
Qed.

Lemma verify_meta_step C dest st m :
  verify_meta C dest st m
  = match checked C m with
    | Some h =>
      if passes dest m then ({[h]} ∪ st.1, st.2)
      else (st.1,
            record_error h "verify"
              {| err_service_key := None;
                 err_message :=
                   VerifyFail (dest ∖ list_to_set (current_services m))
                              (list_to_set (current_services m));
                 err_status_code := None |} st.2)
    | None => st
    end.
Proof.
  unfold verify_meta, checked, passes. destruct (hash m) as [h|]; [|done].
  destruct (truthy h && bool_decide (h ∈ C)); done.
Qed.

Lemma verify_fold_spec C dest ms (st : gset string * gmap string ErrEntry) :
  (foldl (verify_meta C dest) st ms).1 = st.1 ∪ list_to_set (pass_hashes C dest ms)
  ∧ ∀ h, phase_of (foldl (verify_meta C dest) st ms).2 h
         = if decide (h ∈ fail_hashes C dest ms)
           then Some (default "verify" (phase_of st.2 h))
           else phase_of st.2 h.
Proof.
  revert st. induction ms as [|m ms IH]; intros st.
  - simpl. split; [set_solver|]. intros h. decide_cases.
  - cbn [foldl]. destruct (IH (verify_meta C dest st m)) as [HV HE].
    rewrite HV. unfold pass_hashes, fail_hashes in *. cbn [omap list_omap].
    rewrite verify_meta_step in *.
    destruct (checked C m) as [h0|] eqn:Hchk.
    2:{ split; [by destruct (passes dest m)|]. intros h. rewrite HE.
        by destruct (passes dest m). }
    destruct (passes dest m) eqn:Hpass; simpl.
    + split; [set_solver|]. intros h. rewrite HE. done.
    + split; [done|]. intros h. rewrite HE. simpl.
      rewrite phase_of_record_error. decide_cases.
Qed.

Lemma NoDup_fmap_eq {A B} (f : A → B) (l : list A) x y :
  NoDup (f <$> l) → x ∈ l → y ∈ l → f x = f y → x = y.
Proof.
  induction l as [|a l IH]; simpl; [by intros _ ?%elem_of_nil|].
  rewrite NoDup_cons. intros [Hni Hnd] Hx Hy Hxy.
  apply elem_of_cons in Hx as [->|Hx]; apply elem_of_cons in Hy as [->|Hy]; auto.
  - destruct Hni. rewrite Hxy. apply list_elem_of_fmap. eauto.
  - destruct Hni. rewrite <- Hxy. apply list_elem_of_fmap. eauto.
Qed.

Lemma elem_of_pass_hashes C dest ms h :
  h ∈ pass_hashes C dest ms
  ↔ ∃ m, m ∈ ms ∧ hash m = Some h ∧ truthy h = true ∧ h ∈ C ∧ passes dest m = true.
Proof.
  unfold pass_hashes. rewrite list_elem_of_omap. unfold checked. split.
  - intros (m & Hm & Hc). exists m. destruct (passes dest m); [|done].
    destruct (hash m) as [h'|]; [|done]. destruct (truthy h') eqn:?; [|done].
    simpl in Hc. case_bool_decide; naive_solver.
  - intros (m & Hm & Hh & Ht & HC & Hp). exists m. split; [done|].
    rewrite Hp, Hh, Ht. simpl. by rewrite bool_decide_eq_true_2.
Qed.







Lemma delete_phase_spec ctx bs deletions (D : gset string) E w :
  0 < bs →
  ∃ D' E' w' tr,
    delete_phase respond ctx bs deletions (D, E) w = Some ((D', E'), w')
    ∧ calls w' = calls w ++ tr
    ∧ Forall (call_within "/add_files/delete_files" D) tr
    ∧ D' ⊆ D
    ∧ (∀ h, h ∈ D ∖ D' → listed deletions h)
    ∧ ∀ h, phase_of E' h
           = if decide (h ∈ D ∖ D') then Some (default "delete" (phase_of E h))
             else phase_of E h.
Proof.
  intros Hbs. revert D E w.
  induction deletions as [|[sk hs] rest IH]; intros D E w.
  - exists D, E, w, []. simpl. rewrite app_nil_r. repeat split; try done.
    + set_solver.
    + intros h. decide_cases.
  - simpl. destruct (bool_decide (hs = []) || bool_decide (D = ∅)) eqn:Hbrk.
    { exists D, E, w, []. simpl. rewrite app_nil_r. repeat split; try done.
      - set_solver.
      - intros h. decide_cases. }
    unfold bind.
    destruct (batch_footprint ctx "/add_files/delete_files" "POST"
                (filter (fun h => h ∈ D) hs) bs sk 180 w
                (D ∩ list_to_set hs) Hbs)
      as (res & w1 & tr1 & -> & Hcalls1 & Htr1 & Hfail).
    { intros h [? ?]%list_elem_of_filter. set_solver. }
    destruct (discard_failures_spec (delete_failure sk) (fun f => f.1.1) "delete"
                (failed_items_with_errors res) (D, E)) as [HD1 HE1].
    { intros. apply delete_failure_step. }
    destruct (foldl (delete_failure sk) (D, E) (failed_items_with_errors res))
      as [D1 E1] eqn:Hfold. simpl in HD1, HE1.
    destruct (IH D1 E1 w1) as (D' & E' & w' & tr & -> & Hcalls & Htr & Hsub & Hlisted & HE').
    exists D', E', w', (tr1 ++ tr). split; [done|].
    assert (D1 ⊆ D) by set_solver.
    split; [by rewrite Hcalls, Hcalls1, app_assoc|].
    split.
    { apply Forall_app. split.
      - eapply Forall_impl; [exact Htr1|]. intros c [? Hc]. split; [done|]. set_solver.
      - eapply Forall_impl; [exact Htr|]. intros c [? Hc]. split; [done|]. set_solver. }
    split; [set_solver|].
    assert (∀ h, h ∈ (fun f : string * string * option Z => f.1.1) <$> failed_items_with_errors res
            → h ∈ D ∧ h ∈ hs) as Hin.
    { intros h (f & -> & Hf)%list_elem_of_fmap. apply Hfail in Hf. set_solver. }
    assert (∀ h, h ∈ D1 ↔ h ∈ D ∧ h ∉ (fun f : string * string * option Z => f.1.1) <$> failed_items_with_errors res) as HD1'.
    { intros h. rewrite HD1. set_solver. }
    split.
    { intros h Hh. destruct (decide (h ∈ D1)) as [Hh1|Hh1].
      - destruct (Hlisted h) as (p & Hp & Hhp); [set_solver|].
        exists p. split; [by right|done].
      - exists (sk, hs). split; [by left|]. simpl.
        destruct (decide (h ∈ (fun f : string * string * option Z => f.1.1) <$> failed_items_with_errors res)) as [Hf|Hf].
        + by apply Hin.
        + exfalso. apply Hh1. apply HD1'. set_solver. }
    intros h. rewrite HE', HE1. specialize (Hin h). specialize (HD1' h).
    decide_cases.
    all: try (destruct (phase_of E h); done).
    all: exfalso; set_solver.
Qed.
End Phases.

Lemma size_list_to_set_le (l : list string) :
  (size (list_to_set (C:=gset string) l) ≤ length l)%nat.
Proof.
  induction l as [|x l IH].
  - rewrite list_to_set_nil, size_empty. done.
  - rewrite list_to_set_cons, size_union_alt, size_singleton. cbn [length].
    pose proof (subseteq_size (list_to_set l ∖ {[x]}) (list_to_set (C:=gset string) l)) as H.
    specialize (H ltac:(set_solver)). lia.
Qed.

Lemma length_omap_le {A B} (f : A → option B) (l : list A) :
  (length (omap f l) ≤ length l)%nat.
Proof.
  induction l as [|a l IH]; [done|]. cbn [omap list_omap].
  destruct (f a); cbn [length]; lia.
Qed.




Lemma phase_of_empty h : phase_of ∅ h = None.
Proof. unfold phase_of. by rewrite lookup_empty. Qed.



Lemma shelf_api_contract : metadata_contract Samples.shelf_api.
Proof.
  intros s req hs metas Hp. unfold Samples.shelf_api. rewrite Hp. simpl.
  intros _ [= <-]. by rewrite <- list_fmap_compose.
Qed.


(** The scenario of the specification: of three candidates the second one
    fails the copy phase; it is reported under [copy] only and reaches no
    later call, the two others are verified and fully successful, and the
    operation as a whole reports failure. *)
Example force_in_second_file_fails_copy :
  let ctx := Samples.context "r2" 1 (Samples.force_in_action ["dst"]) [] in
  let files := [Samples.candidate "aa"; Samples.candidate "bb"; Samples.candidate "cc"] in
  ∃ res w',
    force_in_services Samples.shelf_api ctx files (PyList [PyStr "dst"]) 64
      Samples.shelf_world = Some (res, w')
    ∧ fi_success res = false
    ∧ list_to_set (C:=gset string) (files_fully_successful res) = {[ "aa"; "cc" ]}
    ∧ phase <$> files_with_errors res = {[ "bb" := "copy" ]}
    ∧ (fun c : Request * ApiResult => (endpoint c.1, payload c.1, success c.2)) <$> calls w'
      = [ ("/add_files/migrate_files", HashesPayload ["cc"; "aa"; "bb"] "dst", false);
          ("/add_files/migrate_files", HashPayload "cc" "dst", true);
          ("/add_files/migrate_files", HashPayload "aa" "dst", true);
          ("/add_files/migrate_files", HashPayload "bb" "dst", false);
          ("/get_files/file_metadata", MetadataParams ["cc"; "aa"], true);
          ("/add_files/delete_files", HashesPayload ["aa"] "old", true) ]
    ∧ remote w' = {[ "aa" := ["dst"]; "bb" := ["old"]; "cc" := ["dst"; "dst"] ]}.
Proof.
  intros ctx files. eexists _, _. split; [by vm_compute|].
  repeat split; by vm_compute.
Qed.

Lemma forallb_false_elem {A} (f : A → bool) (l : list A) :
  forallb f l = false → ∃ k, k ∈ l ∧ f k = false.
Proof.
  induction l as [|x l IH]; simpl; [done|].
  destruct (f x) eqn:Hx; simpl.
  - intros (k & Hk & Hf)%IH. exists k. split; [by right|done].
  - intros _. exists x. split; [by left|done].
Qed.

Lemma valid_destination_keys_none v :
  valid_destination_keys v = None ↔ invalid_destination_keys v.
Proof.
  destruct v as [| |s|l]; simpl; try done.
  case_bool_decide as Hl; [by split; auto|].
  destruct (forallb _ l) eqn:Hall.
  - split; [done|]. intros [?|(k & Hk & Hbad)]; [done|].
    rewrite forallb_forall in Hall. apply list_elem_of_In, Hall in Hk.
    destruct k; try done. congruence.
  - split; [|done]. intros _. right.
    apply forallb_false_elem in Hall as (k & Hin & Hk). exists k. split; [done|].
    by destruct k.
Qed.

(** C9 as stated fails: with no candidate file the operation returns before
    the destination keys are looked at, and reports success. *)
Lemma invalid_keys_accepted_without_candidates : ¬ invalid_keys_always_abort.
Proof.
  intros H.
  destruct (H unit Samples.refusing_api
              (Samples.context "r2" 1 (Samples.force_in_action []) [])
              [] (PyList []) 64 Samples.fresh_world) as (r & Hr & Hfail & _).
  - by left.
  - vm_compute in Hr. injection Hr as <-. discriminate Hfail.
Qed.

(** C9, amended.  Whenever [force_in_services] is invoked on at least one
    candidate file with a destination-key argument that is not a list, is
    empty, or contains a non-string or blank entry, it returns success = false
    with a critical error, zero copied, verified and deleted counts, and makes
    no API call: the world, with its log of calls, is unchanged. *)
Theorem force_in_invalid_keys_abort {S : Type} (respond : S → Request → ApiResult * S)
    (ctx : RuleExecutionContext) (files_metadata_list : list FileMeta) (keys : PyVal)
    (batch_size : Z) (w : World) :
  files_metadata_list ≠ [] →
  invalid_destination_keys keys →
  aborts_on_invalid_keys respond ctx files_metadata_list keys batch_size w.
Proof.
  intros Hfiles Hinv. apply valid_destination_keys_none in Hinv.
  unfold aborts_on_invalid_keys, force_in_services.
  rewrite bool_decide_eq_false_2 by done. rewrite Hinv.
  eexists. split; [reflexivity|]. simpl. done.
Qed.

Lemma force_in_invalid_keys_abort_witness :
  let file := {| hash := Some "aa"; current_services := ["old"] |} in
  let keys := PyList [PyStr "dst"; PyStr Samples.wide_blank] in
  [file] ≠ []
  ∧ invalid_destination_keys keys
  ∧ aborts_on_invalid_keys Samples.refusing_api
      (Samples.context "r2" 1 (Samples.force_in_action ["dst"; Samples.wide_blank]) [])
      [file] keys 64 Samples.fresh_world.
Proof.
  intros file keys.
  assert ([file] ≠ []) as Hne by done.
  assert (invalid_destination_keys keys) as Hinv.
  { right. exists (PyStr Samples.wide_blank). split; [set_solver|reflexivity]. }
  split; [exact Hne|]. split; [exact Hinv|].
  exact (force_in_invalid_keys_abort Samples.refusing_api _ [file] _ 64
           Samples.fresh_world Hne Hinv).
Defined.

End ActionsFacts.

(** ** Governance records over successive runs *)

Module GovernanceFacts.
Import Overrides OverridesFacts.

Lemma truthy_ne s : s ≠ "" → truthy s = true.
Proof. intros. unfold truthy. by rewrite bool_decide_eq_false_2. Qed.

Lemma load_state_row_of_state st now : load_state (Some (row_of_state st now)) = st.
Proof. by destruct st. Qed.

Lemma append_if_absent_elem x l : x ∈ append_if_absent x l.
Proof. unfold append_if_absent. case_bool_decide; set_solver. Qed.

Lemma append_if_absent_present x l : x ∈ l → append_if_absent x l = l.
Proof. intros. unfold append_if_absent. by rewrite bool_decide_eq_true_2. Qed.

Lemma append_if_absent_prefix x l : l `prefix_of` append_if_absent x l.
Proof. unfold append_if_absent. case_bool_decide; [done|]. by apply prefix_app_r. Qed.

Lemma append_if_absent_NoDup x l : NoDup l → NoDup (append_if_absent x l).
Proof.
  intros Hl. unfold append_if_absent. case_bool_decide; [done|].
  apply NoDup_app. split_and!; [done| |apply NoDup_singleton].
  intros y Hy ->%list_elem_of_singleton. done.
Qed.

Lemma add_placements_present dests p :
  (∀ k, k ∈ dests → truthy k = true → k ∈ p) → add_placements dests p = p.
Proof.
  unfold add_placements. induction dests as [|k dests IH]; intros Hp; simpl; [done|].
  destruct (truthy k) eqn:Hk.
  - rewrite append_if_absent_present by (apply Hp; [left|done]).
    apply IH. intros k' ? ?. apply Hp; [by right|done].
  - apply IH. intros k' ? ?. apply Hp; [by right|done].
Qed.

Lemma add_placements_idem dests p :
  add_placements dests (add_placements dests p) = add_placements dests p.
Proof.
  apply add_placements_present. intros k Hk Ht.
  apply (elem_of_list_to_set (C:=gset string)). rewrite add_placements_set.
  apply elem_of_union_r, elem_of_list_to_set, list_elem_of_filter. done.
Qed.

Lemma mutate_state_idem ctx st :
  mutate_state ctx (mutate_state ctx st) = mutate_state ctx st.
Proof.
  unfold mutate_state.
  repeat case_bool_decide; simpl;
    rewrite ?(append_if_absent_present (rule_id ctx) (append_if_absent _ _))
      by apply append_if_absent_elem; try done.
  - destruct (rating_service_key (action ctx)) as [k|]; simpl.
    + destruct (truthy k); simpl.
      * rewrite ?(append_if_absent_present _ (append_if_absent _ _))
          by apply append_if_absent_elem.
        by rewrite insert_insert_eq.
      * by rewrite ?(append_if_absent_present _ (append_if_absent _ _))
          by apply append_if_absent_elem.
    + by rewrite ?(append_if_absent_present _ (append_if_absent _ _))
          by apply append_if_absent_elem.
  - by rewrite add_placements_idem.
Qed.

(** X1. Recording the same successful rule twice on a file leaves the table as
    recording it once (with the later timestamp): the governance record is
    unchanged by a re-run. *)
Theorem update_state_rerun_is_single_run (ctx : RuleExecutionContext) (now1 now2 : string)
    (files : FilesTable) (file_hash : string) :
  update_state_after_success ctx now2
    (update_state_after_success ctx now1 files file_hash) file_hash
  = update_state_after_success ctx now2 files file_hash.
Proof.
  unfold update_state_after_success.
  destruct (governed (action_type ctx)); simpl; [|done].
  rewrite lookup_insert_eq, load_state_row_of_state, mutate_state_idem.
  by rewrite insert_insert_eq.
Qed.


Lemma check_override_after_update later winner now files h :
  governed (action_type winner) = true →
  rule_id later ∉ override_bypass_list later →
  governed (action_type later) = true →
  check_override later (update_state_after_success winner now files h) h
  = check_override later
      {[ h := row_of_state (mutate_state winner (load_state (files !! h))) now ]} h.
Proof.
  intros Hw Hb Hl. unfold update_state_after_success, check_override.
  rewrite Hw. simpl. by rewrite lookup_insert_eq, lookup_singleton_eq.
Qed.

(** X2. Once a [force_in] rule of importance p has been recorded for a file,
    whatever the table held before, a later [force_in] rule outside the
    bypass list runs on that file iff its importance is strictly greater
    than p, and a later [add_to] rule iff its importance is at least p. *)
Theorem force_in_success_governs_placement
    (winner later_force later_add : RuleExecutionContext) (now : string)
    (files : FilesTable) (file_hash : string) :
  action_type winner = "force_in" →
  action_type later_force = "force_in" →
  rule_id later_force ∉ override_bypass_list later_force →
  action_type later_add = "add_to" →
  rule_id later_add ∉ override_bypass_list later_add →
  let files' := update_state_after_success winner now files file_hash in
  ((check_override later_force files' file_hash).1 = run
     ↔ rule_importance later_force > rule_importance winner)
  ∧ ((check_override later_add files' file_hash).1 = run
     ↔ rule_importance later_add >= rule_importance winner).
Proof.
  intros Hw Hf Hbf Ha Hba files'. subst files'.
  rewrite !check_override_after_update by (try done; apply governed_cases; auto).
  unfold check_override.
  rewrite (bool_decide_eq_false_2 _ Hbf), (bool_decide_eq_false_2 _ Hba).
  assert (governed (action_type later_force) = true) as -> by (apply governed_cases; auto).
  assert (governed (action_type later_add) = true) as -> by (apply governed_cases; auto).
  simpl. rewrite !lookup_singleton_eq. simpl.
  rewrite Hf, Ha. simpl.
  unfold mutate_state. rewrite Hw. simpl.
  split; case_bool_decide; simpl; split; (done || lia).
Qed.


Lemma force_in_success_governs_placement_witness :
  let winner := Samples.context "r5" 5 (Samples.force_in_action ["dst"]) [] in
  let later_force := Samples.context "r6" 5 (Samples.force_in_action ["old"]) [] in
  let later_add := Samples.context "r7" 5 (Samples.add_to_action ["old"]) [] in
  let files' := update_state_after_success winner "now" Samples.tracked "f1" in
  ((check_override later_force files' "f1").1 = run ↔ 5 > 5)
  ∧ ((check_override later_add files' "f1").1 = run ↔ 5 >= 5).
Proof.
  intros winner later_force later_add.
  apply (force_in_success_governs_placement winner later_force later_add "now"
           Samples.tracked "f1"); try reflexivity; apply not_elem_of_nil.
Defined.

(** X3. Once a [modify_rating] rule of importance p has been recorded for a
    file and a rating service, a later [modify_rating] rule on the same
    service, outside the bypass list, runs iff its importance is strictly
    greater than p. *)
Theorem rating_success_governs_rating (winner later : RuleExecutionContext)
    (now : string) (files : FilesTable) (file_hash svc : string) :
  svc ≠ "" →
  targets_rating winner svc →
  targets_rating later svc →
  rule_id later ∉ override_bypass_list later →
  (check_override later (update_state_after_success winner now files file_hash)
                  file_hash).1 = run
  ↔ rule_importance later > rule_importance winner.
Proof.
  intros Hsvc [Hw Hwk] [Hl Hlk] Hb.
  rewrite check_override_after_update by (try done; apply governed_cases; auto).
  unfold check_override. rewrite (bool_decide_eq_false_2 _ Hb).
  assert (governed (action_type later) = true) as -> by (apply governed_cases; auto).
  simpl. rewrite lookup_singleton_eq. simpl.
  rewrite Hl, Hlk. simpl. rewrite (truthy_ne _ Hsvc).
  unfold mutate_state. rewrite Hw, Hwk. simpl. rewrite (truthy_ne _ Hsvc). simpl.
  rewrite lookup_insert_eq. simpl.
  case_bool_decide; simpl; split; (done || lia).
Qed.

Lemma rating_success_governs_rating_witness :
  let winner := Samples.context "r5" 2 (Samples.modify_rating_action "stars") ["r5"] in
  let later := Samples.context "r6" 3 (Samples.modify_rating_action "stars") [] in
  "stars" ≠ ""
  ∧ ((check_override later (update_state_after_success winner "now" Samples.tracked "f1")
                     "f1").1 = run
     ↔ 3 > 2).
Proof.
  intros winner later. split; [done|].
  apply (rating_success_governs_rating winner later "now" Samples.tracked "f1" "stars");
    try done. apply not_elem_of_nil.
Defined.

(** X4. A success of an [add_to] or [modify_rating] rule on a file whose row
    does not decode starts from the default record: the stored force-in
    priority is dropped to -1, so that afterwards every [force_in] rule of
    non-negative importance outside the bypass list runs on the file. *)
Theorem update_state_discards_corrupt_row (ctx later : RuleExecutionContext)
    (now : string) (files : FilesTable) (file_hash : string) (row : FileRow) :
  action_type ctx = "add_to" ∨ action_type ctx = "modify_rating" →
  files !! file_hash = Some row →
  stored_record files file_hash = None →
  action_type later = "force_in" →
  rule_id later ∉ override_bypass_list later →
  0 <= rule_importance later →
  let files' := update_state_after_success ctx now files file_hash in
  stored_record files' file_hash = Some (mutate_state ctx _get_default_file_state)
  ∧ (check_override later files' file_hash).1 = run.
Proof.
  intros Hty Hrow Hnone Hl Hb Himp files'. subst files'.
  assert (governed (action_type ctx) = true) as Hg.
  { apply governed_cases. destruct Hty; auto. }
  assert (load_state (files !! file_hash) = _get_default_file_state) as Hload.
  { revert Hnone. unfold stored_record, load_state. rewrite Hrow. simpl.
    destruct (json_loads (row_rules_in_application row)); simpl; [|done].
    destruct (json_loads (row_correct_placement row)); simpl; [|done].
    destruct (json_loads (row_affected_rating_services row)); simpl; [|done].
    destruct (json_loads (row_rating_priority_governance row)); simpl; done. }
  split.
  - by rewrite stored_record_update, Hload.
  - rewrite check_override_after_update by (try done; apply governed_cases; auto).
    rewrite Hload. unfold check_override. rewrite (bool_decide_eq_false_2 _ Hb).
    assert (governed (action_type later) = true) as -> by (apply governed_cases; auto).
    simpl. rewrite lookup_singleton_eq. simpl. rewrite Hl. simpl.
    assert (force_in_priority_governance (mutate_state ctx _get_default_file_state) = -1)
      as ->.
    { unfold mutate_state. destruct Hty as [-> | ->]; simpl; [done|].
      destruct (rating_service_key (action ctx)) as [k|]; [|done].
      by destruct (truthy k). }
    rewrite bool_decide_eq_true_2 by lia. done.
Qed.

Lemma update_state_discards_corrupt_row_witness :
  let ctx := Samples.context "r1" 9 (Samples.add_to_action ["dst"]) [] in
  let later := Samples.context "r2" 0 (Samples.force_in_action ["old"]) [] in
  let files' := update_state_after_success ctx "now" Samples.corrupted "f1" in
  row_force_in_priority_governance Samples.corrupt_row = 3
  ∧ stored_record files' "f1" = Some (mutate_state ctx _get_default_file_state)
  ∧ (check_override later files' "f1").1 = run.
Proof.
  intros ctx later. split; [reflexivity|].
  apply (update_state_discards_corrupt_row ctx later "now" Samples.corrupted "f1"
           Samples.corrupt_row); try reflexivity.
  - by left.
  - apply not_elem_of_nil.
Defined.

(** X5. After a governed success the record of the file decodes and lists the
    rule; the rules listed before keep their places, and a list without
    duplicates stays without duplicates. *)
Theorem update_state_tracks_rule_once (ctx : RuleExecutionContext) (now : string)
    (files : FilesTable) (file_hash : string) :
  governed (action_type ctx) = true →
  NoDup (rules_in_application (load_state (files !! file_hash))) →
  ∃ st', stored_record (update_state_after_success ctx now files file_hash) file_hash
         = Some st'
    ∧ rule_id ctx ∈ rules_in_application st'
    ∧ NoDup (rules_in_application st')
    ∧ rules_in_application (load_state (files !! file_hash))
        `prefix_of` rules_in_application st'.
Proof.
  intros Hg Hnd. eexists. split; [by apply stored_record_update|].
  set (st := load_state (files !! file_hash)) in *.
  assert (rules_in_application (mutate_state ctx st)
          = append_if_absent (rule_id ctx) (rules_in_application st)) as ->.
  { unfold mutate_state. repeat case_bool_decide; simpl; try done.
    destruct (rating_service_key (action ctx)) as [k|]; [|done]. by destruct (truthy k). }
  split_and!.
  - apply append_if_absent_elem.
  - by apply append_if_absent_NoDup.
  - apply append_if_absent_prefix.
Qed.

Lemma update_state_tracks_rule_once_witness :
  let ctx := Samples.context "r1" 9 (Samples.add_to_action ["dst"]) [] in
  ∃ st', stored_record (update_state_after_success ctx "now" Samples.tracked "f1") "f1"
         = Some st'
    ∧ rule_id ctx ∈ rules_in_application st'
    ∧ NoDup (rules_in_application st')
    ∧ rules_in_application (load_state (Samples.tracked !! "f1"))
        `prefix_of` rules_in_application st'.
Proof.
  intros ctx.
  apply (update_state_tracks_rule_once ctx "now" Samples.tracked "f1"); [reflexivity|].
  vm_compute. apply NoDup_singleton.
Defined.

Lemma successful_action_force_in_step ctx now files h st :
  rule_id ctx ∉ override_bypass_list ctx →
  0 <= rule_importance ctx →
  governance_record files h = Some st →
  ∃ st', governance_record (successful_action ctx now files h) h = Some st'
         ∧ force_in_priority_governance st <= force_in_priority_governance st'.
Proof.
  intros Hb Himp Hst. unfold successful_action.
  destruct (check_override ctx files h) as [[] reason] eqn:Hc; [|eauto with lia].
  destruct (governed (action_type ctx)) eqn:Hg; cycle 1.
  { unfold update_state_after_success. rewrite Hg. simpl. eauto with lia. }
  exists (mutate_state ctx st). split.
  - unfold governance_record.
    assert (update_state_after_success ctx now files h !! h
            = Some (row_of_state (mutate_state ctx (load_state (files !! h))) now)) as ->.
    { unfold update_state_after_success. rewrite Hg. simpl. by rewrite lookup_insert_eq. }
    rewrite stored_record_update by done.
    by rewrite (load_state_governance_record _ _ _ Hst).
  - unfold mutate_state. repeat case_bool_decide; simpl; try lia.
    + destruct (rating_service_key (action ctx)) as [k|]; simpl; [|lia].
      destruct (truthy k); simpl; lia.
    + revert Hc Hst. unfold check_override, governance_record, stored_record.
      rewrite (bool_decide_eq_false_2 _ Hb), Hg. simpl.
      destruct (files !! h) as [row|]; simpl; [|intros _ [= <-]; simpl; lia].
      destruct (json_loads (row_rules_in_application row)); simpl; [|done].
      destruct (json_loads (row_correct_placement row)); simpl; [|done].
      destruct (json_loads (row_affected_rating_services row)); simpl; [|done].
      destruct (json_loads (row_rating_priority_governance row)); simpl; [|done].
      repeat case_bool_decide; simpl; try done.
      intros _ [= <-]. simpl. lia.
Qed.

(** X6. Over any sequence of admitted successes of rules of non-negative
    importance that are not in the bypass list, the force-in priority
    recorded for a file never decreases. *)
Theorem force_in_priority_monotone_without_bypass
    (runs : list (RuleExecutionContext * string)) (files : FilesTable)
    (file_hash : string) (st : FileState) :
  Forall (fun r : RuleExecutionContext * string =>
            let ctx := fst r in
            (rule_id ctx ∉ override_bypass_list ctx) ∧ (0 <= rule_importance ctx)) runs →
  governance_record files file_hash = Some st →
  ∃ st', governance_record (successive_actions runs files file_hash) file_hash = Some st'
         ∧ force_in_priority_governance st <= force_in_priority_governance st'.
Proof.
  intros Hruns. revert files st.
  induction Hruns as [|[ctx now] runs [Hb Himp] _ IH]; intros files st Hst; simpl.
  - eauto with lia.
  - destruct (successful_action_force_in_step ctx now files file_hash st)
      as (st1 & Hst1 & Hle); [done..|].
    destruct (IH _ _ Hst1) as (st' & Hst' & Hle').
    exists st'. split; [done|lia].
Qed.

Lemma force_in_priority_monotone_without_bypass_witness :
  let runs :=
    [ (Samples.context "r7" 7 (Samples.force_in_action ["dst"]) [], "t1");
      (Samples.context "r4" 4 (Samples.add_to_action ["old"]) [], "t2");
      (Samples.context "r5" 5 (Samples.force_in_action ["old"]) [], "t3") ] in
  ∃ st', governance_record (successive_actions runs Samples.tracked "f1") "f1" = Some st'
         ∧ 3 <= force_in_priority_governance st'.
Proof.
  intros runs.
  apply (force_in_priority_monotone_without_bypass runs Samples.tracked "f1"
           {| rules_in_application := ["r0"]; force_in_priority_governance := 3;
              correct_placement := ["old"]; affected_rating_services := ["stars"];
              rating_priority_governance := {[ "stars" := 5 ]} |}).
  - repeat constructor; simpl; try apply not_elem_of_nil; lia.
  - reflexivity.
Defined.

End GovernanceFacts.

(** ** Loading and ordering the rules *)

Module ExecutionOrderFacts.
Import AppConfig OrderFacts.

Lemma key_ltb_irrefl k : key_ltb k k = false.
Proof.
  destruct (key_ltb k k) eqn:Hk; [|done]. by rewrite (key_ltb_asym _ _ Hk) in Hk.
Qed.

(** The merged rules before sorting. *)
Lemma load_rules_perm raw_rules db :
  load_rules raw_rules db
  ≡ₚ omap (fun raw => merge_rule raw <$> db !! raw_id raw) raw_rules.
Proof. apply (py_sorted_perm key_ltb _get_rule_sort_key). Qed.

(** X7. [load_rules] returns the rules of the document that have a row in
    the [rules] table, each merged with its row, in cross-rule execution
    order; a rule without a row is left out and no rule is added. *)
Theorem load_rules_merges_and_orders (raw_rules : list RawRule)
    (db_rules_map : gmap string DbRule) :
  in_execution_order (load_rules raw_rules db_rules_map)
  ∧ (∀ r, r ∈ load_rules raw_rules db_rules_map
          ↔ ∃ raw db_record, raw ∈ raw_rules
                             ∧ db_rules_map !! raw_id raw = Some db_record
                             ∧ r = merge_rule raw db_record)
  ∧ length (load_rules raw_rules db_rules_map)
    = length (filter (fun raw => is_Some (db_rules_map !! raw_id raw)) raw_rules).
Proof.
  split_and!.
  - apply load_rules_in_execution_order.
  - intros r. rewrite load_rules_perm, list_elem_of_omap. split.
    + intros (raw & Hraw & Hr). exists raw.
      destruct (db_rules_map !! raw_id raw) as [d|]; simplify_eq/=. eauto.
    + intros (raw & d & Hraw & Hd & ->). exists raw. by rewrite Hd.
  - rewrite load_rules_perm. induction raw_rules as [|raw l IH]; simpl; [done|].
    rewrite filter_cons. case_decide as Hrow.
    + destruct Hrow as [d Hd]. rewrite Hd. simpl. f_equal. exact IH.
    + apply eq_None_not_Some in Hrow. rewrite Hrow. done.
Qed.

Section Stable.
Context {A K : Type} `{EqDecision K} (ltb : K → K → bool) (key : A → K).
Hypothesis ltb_irrefl : ∀ k, ltb k k = false.

Lemma insert_sorted_filter_key k x l :
  filter (fun a => key a = k) (insert_sorted ltb key x l)
  = filter (fun a => key a = k) (x :: l).
Proof.
  induction l as [|y l IH]; [done|]. cbn [insert_sorted].
  destruct (ltb (key y) (key x)) eqn:Hyx; [|done].
  rewrite (filter_cons _ y), IH, !(filter_cons _ x), (filter_cons _ y).
  destruct (decide (key x = k)) as [Hx|Hx]; [|done].
  assert (key y ≠ k) as Hy.
  { intros Hy. rewrite Hx, Hy, ltb_irrefl in Hyx. done. }
  repeat case_decide; done.
Qed.

Lemma py_sorted_filter_key k l :
  filter (fun a => key a = k) (py_sorted ltb key l) = filter (fun a => key a = k) l.
Proof.
  induction l as [|x l IH]; [done|]. cbn [py_sorted foldr].
  fold (py_sorted ltb key l).
  by rewrite insert_sorted_filter_key, !filter_cons, IH.
Qed.
End Stable.

(** X8. The sort of [load_rules] is stable: the rules that share a sort key
    (importance, kind and creation time) stay in the order of the
    document. *)
Theorem load_rules_stable (raw_rules : list RawRule) (db_rules_map : gmap string DbRule)
    (k : SortKey) :
  filter (fun r => _get_rule_sort_key r = k) (load_rules raw_rules db_rules_map)
  = filter (fun r => _get_rule_sort_key r = k)
      (omap (fun raw => merge_rule raw <$> db_rules_map !! raw_id raw) raw_rules).
Proof. apply py_sorted_filter_key, key_ltb_irrefl. Qed.

(** X9. A scheduler tick executes the loaded rules whose id is due, each
    once per occurrence and no other, in cross-rule execution order. *)
Theorem tick_runs_due_rules_in_order (raw_rules : list RawRule)
    (db_rules_map : gmap string DbRule) (rules_to_run_ids : gset string) :
  let tick := Scheduler.rules_to_run_this_tick raw_rules db_rules_map rules_to_run_ids in
  in_execution_order tick
  ∧ tick `sublist_of` load_rules raw_rules db_rules_map
  ∧ ∀ r, r ∈ tick ↔ r ∈ load_rules raw_rules db_rules_map ∧ id r ∈ rules_to_run_ids.
Proof.
  intros tick. split_and!.
  - apply StronglySorted_filter, load_rules_in_execution_order.
  - apply sublist_filter.
  - intros r. unfold tick, Scheduler.rules_to_run_this_tick.
    rewrite list_elem_of_filter. tauto.
Qed.

Lemma sort_by_priority_id l :
  in_execution_order l → (∀ r, r ∈ l → is_Some (priority r)) →
  Views.sort_by_priority l = l.
Proof.
  intros Hl Hp. apply py_sorted_id.
  induction Hl as [|x l Hl IH Hx]; [constructor|]. constructor.
  - apply IH. intros r Hr. apply Hp. by right.
  - apply Forall_forall. intros y Hy.
    eapply Forall_forall in Hx; [|exact Hy].
    destruct (Hp x) as [px Hpx]; [by left|]. destruct (Hp y) as [py Hpy]; [by right|].
    revert Hx. unfold key_le, _get_rule_sort_key, key_ltb. rewrite Hpx, Hpy. simpl.
    intros Hx. apply Z.ltb_ge. destruct (decide (py = px)) as [->|Hne]; [lia|].
    rewrite bool_decide_eq_false_2 in Hx by done.
    apply bool_decide_eq_false in Hx. lia.
Qed.

(** X10. When every rule of the document carries a priority, a manual run of
    a set executes exactly the sequence a scheduler tick executes for the
    same rule ids, and a manual run of all rules executes the loaded list
    as it is. *)
Theorem manual_runs_agree_with_tick (raw_rules : list RawRule)
    (db_rules_map : gmap string DbRule) (rule_ids_in_set : gset string) :
  Forall (fun raw => is_Some (raw_priority raw)) raw_rules →
  Views.run_set_order raw_rules db_rules_map (Some rule_ids_in_set)
  = Scheduler.rules_to_run_this_tick raw_rules db_rules_map rule_ids_in_set
  ∧ Views.run_set_order raw_rules db_rules_map None = load_rules raw_rules db_rules_map
  ∧ Views.run_all_rules_manual_order raw_rules db_rules_map
    = load_rules raw_rules db_rules_map.
Proof.
  intros Hprio.
  assert (∀ r, r ∈ load_rules raw_rules db_rules_map → is_Some (priority r)) as Hall.
  { intros r (raw & Hraw & ->)%load_rules_priority.
    by eapply Forall_forall in Hprio. }
  split_and!.
  - apply sort_by_priority_id.
    + apply StronglySorted_filter, load_rules_in_execution_order.
    + intros r [_ Hr]%list_elem_of_filter. auto.
  - apply sort_by_priority_id; [apply load_rules_in_execution_order|done].
  - apply sort_by_priority_id; [apply load_rules_in_execution_order|done].
Qed.

Lemma manual_runs_agree_with_tick_witness :
  Forall (fun raw => is_Some (raw_priority raw)) Samples.three_rules
  ∧ Views.run_set_order Samples.three_rules Samples.three_rules_table
      (Some {[ "first"; "second" ]})
    = Scheduler.rules_to_run_this_tick Samples.three_rules Samples.three_rules_table
        {[ "first"; "second" ]}
  ∧ Views.run_set_order Samples.three_rules Samples.three_rules_table None
    = load_rules Samples.three_rules Samples.three_rules_table
  ∧ Views.run_all_rules_manual_order Samples.three_rules Samples.three_rules_table
    = load_rules Samples.three_rules Samples.three_rules_table.
Proof.
  assert (Forall (fun raw => is_Some (raw_priority raw)) Samples.three_rules) as H.
  { repeat constructor; by eexists. }
  split; [exact H|].
  exact (manual_runs_agree_with_tick Samples.three_rules Samples.three_rules_table
           {[ "first"; "second" ]} H).
Defined.

End ExecutionOrderFacts.

(** ** Search splitting and warning levels *)

Module SplitFacts.
Import Translator TranslatorFacts.

Lemma find_candidate_kept m i preds x r :
  find_candidate m i preds (Some x) = Some r →
  r = Some x ∧ Forall (fun p => ¬ splittable m p) preds.
Proof.
  revert i. induction preds as [|[s|g] preds IH]; intros i; simpl.
  - intros [= <-]. by split.
  - intros [-> H]%IH. split; [done|]. constructor; [by intros []|done].
  - case_bool_decide as Hg; [done|]. intros [-> H]%IH. split; [done|].
    constructor; [exact Hg|done].
Qed.

Lemma find_candidate_found m i preds g j :
  find_candidate m i preds None = Some (Some (g, j)) →
  ∃ pre post, preds = pre ++ AnyOf g :: post
              ∧ j = (i + length pre)%nat
              ∧ Forall (fun p => ¬ splittable m p) pre
              ∧ splittable m (AnyOf g)
              ∧ Forall (fun p => ¬ splittable m p) post.
Proof.
  revert i. induction preds as [|[s|g'] preds IH]; intros i; simpl.
  - done.
  - intros (pre & post & -> & -> & Hpre & Hg & Hpost)%IH.
    exists (Literal s :: pre), post. split_and!; try done.
    + simpl. lia.
    + constructor; [by intros []|done].
  - case_bool_decide as Hg'.
    + intros [[= <- <-] Hpost]%find_candidate_kept.
      exists [], preds. split_and!; try done; simpl; lia.
    + intros (pre & post & -> & -> & Hpre & Hg & Hpost)%IH.
      exists (AnyOf g' :: pre), post. split_and!; try done.
      * simpl. lia.
      * constructor; [exact Hg'|done].
Qed.

(** The two shapes of the result. *)
Lemma prepare_cases preds m :
  prepare_sequential_searches_if_needed preds m = [preds]
  ∨ ∃ pre g post,
      preds = pre ++ AnyOf g :: post
      ∧ Forall (fun p => ¬ splittable m p) pre
      ∧ splittable m (AnyOf g)
      ∧ Forall (fun p => ¬ splittable m p) post
      ∧ prepare_sequential_searches_if_needed preds m
        = (fun fs =>
             (pre ++ post ++ (Literal <$> filter (fun p => is_file_service_predicate p ≠ true) g))
             ++ [Literal fs])
          <$> filter (fun p => is_file_service_predicate p = true) g.
Proof.
  unfold prepare_sequential_searches_if_needed.
  destruct (find_candidate m 0 preds None) as [[[g j]|]|] eqn:Hf; auto.
  right. apply find_candidate_found in Hf
    as (pre & post & -> & -> & Hpre & Hg & Hpost).
  exists pre, g, post. split_and!; try done.
  simpl. rewrite remove_index_middle. by rewrite <- app_assoc.
Qed.

(** X11. The queries that [prepare_sequential_searches_if_needed] returns are
    final: given any of them again, the function returns it unchanged as a
    single query. *)
Theorem prepare_sequential_searches_final (hydrus_predicates : list Pred)
    (min_to_split : Z) (query : list Pred) :
  query ∈ prepare_sequential_searches_if_needed hydrus_predicates min_to_split →
  prepare_sequential_searches_if_needed query min_to_split = [query].
Proof.
  destruct (prepare_cases hydrus_predicates min_to_split)
    as [Hsame | (pre & g & post & -> & Hpre & Hg & Hpost & ->)].
  - rewrite Hsame. intros ->%list_elem_of_singleton. done.
  - intros (fs & -> & _)%list_elem_of_fmap.
    unfold prepare_sequential_searches_if_needed.
    rewrite find_candidate_none; [done|].
    rewrite !Forall_app. split_and!; try done.
    + apply Forall_fmap, Forall_forall. by intros s _ [].
    + constructor; [by intros []|constructor].
Qed.

Lemma prepare_sequential_searches_final_witness :
  let fs1 := "system:file service currently in a" in
  let fs2 := "system:file service currently in b" in
  let fs3 := "system:file service is not currently in c" in
  let preds := [Literal "tag"; AnyOf [fs1; "system:archive"; fs2; fs3]] in
  let query := [Literal "tag"; Literal "system:archive"; Literal fs2] in
  query ∈ prepare_sequential_searches_if_needed preds 3
  ∧ prepare_sequential_searches_if_needed query 3 = [query].
Proof.
  intros fs1 fs2 fs3 preds query.
  assert (query ∈ prepare_sequential_searches_if_needed preds 3) as H.
  { vm_compute. right. left. }
  split; [exact H|].
  exact (prepare_sequential_searches_final preds 3 query H).
Defined.

Lemma existsb_elem {A} (f : A → bool) l x : x ∈ l → f x = true → existsb f l = true.
Proof. intros Hx Hf. apply existsb_exists. exists x. split; [|done]. by apply list_elem_of_In. Qed.

Lemma query_matches_app holds q1 q2 :
  query_matches holds (q1 ++ q2) = query_matches holds q1 && query_matches holds q2.
Proof. apply forallb_app. Qed.

(** X12. Splitting never widens a search, and with a threshold of at least 1
    it never returns an empty list of queries: a file that matches one of
    the returned queries matches the original predicate list. *)
Theorem prepare_sequential_searches_sound (hydrus_predicates : list Pred)
    (min_to_split : Z) (holds : string → bool) :
  1 <= min_to_split →
  prepare_sequential_searches_if_needed hydrus_predicates min_to_split ≠ []
  ∧ ∀ query,
      query ∈ prepare_sequential_searches_if_needed hydrus_predicates min_to_split →
      query_matches holds query = true →
      query_matches holds hydrus_predicates = true.
Proof.
  intros Hm.
  destruct (prepare_cases hydrus_predicates min_to_split)
    as [Hsame | (pre & g & post & -> & Hpre & Hg & Hpost & ->)].
  - rewrite Hsame. split; [done|]. by intros q ->%list_elem_of_singleton.
  - split.
    + simpl in Hg. unfold file_service_pred_count in Hg.
      destruct (filter _ g) as [|fs l]; simpl in *; [lia|done].
    + intros q (fs & -> & [Hfs Hin]%list_elem_of_filter)%list_elem_of_fmap.
      unfold query_matches. rewrite !forallb_app. simpl.
      rewrite !andb_true_iff. intros [(Hp & Hq & _) [Hh _]].
      split_and!; try done. by eapply existsb_elem.
Qed.

Lemma prepare_sequential_searches_sound_witness :
  let fs1 := "system:file service currently in a" in
  let fs2 := "system:file service currently in b" in
  let fs3 := "system:file service is not currently in c" in
  let preds := [Literal "tag"; AnyOf [fs1; "system:archive"; fs2; fs3]] in
  let holds := fun s => bool_decide (s ∈ ["tag"; "system:archive"; fs2]) in
  1 <= 3
  ∧ prepare_sequential_searches_if_needed preds 3 ≠ []
  ∧ ∀ query,
      query ∈ prepare_sequential_searches_if_needed preds 3 →
      query_matches holds query = true →
      query_matches holds preds = true.
Proof.
  intros fs1 fs2 fs3 preds holds. split; [lia|].
  apply (prepare_sequential_searches_sound preds 3 holds). lia.
Defined.


Lemma lower_app a b : lower (a +:+ b) = lower a +:+ lower b.
Proof.
  induction a as [|c a IH]; [done|]. change (String (lower_ascii c) (lower (a +:+ b))
          = String (lower_ascii c) (lower a +:+ lower b)). by rewrite IH.
Qed.

(** X13. A warning that starts with "CRITICAL Warning: " is classified as
    critical unless the rest of its text contains "note:" (in any letter
    case) without containing "critical note:"; in that case it is
    classified as informational, whatever else it says. *)
Theorem critical_prefix_yields_to_note (rest : string) :
  is_critical_warning ("CRITICAL Warning: " +:+ rest) = false
  ↔ contains "note:" (lower rest) = true ∧ contains "critical note:" (lower rest) = false.
Proof.
  unfold is_critical_warning. rewrite lower_app.
  change (lower "CRITICAL Warning: ") with "critical warning: ".
  assert (contains "note:" ("critical warning: " +:+ lower rest)
          = contains "note:" (lower rest)) as -> by reflexivity.
  assert (contains "critical note:" ("critical warning: " +:+ lower rest)
          = contains "critical note:" (lower rest)) as -> by reflexivity.
  assert (String.prefix "critical warning:" ("critical warning: " +:+ lower rest) = true)
    as -> by reflexivity.
  destruct (contains "note:" (lower rest)), (contains "critical note:" (lower rest));
    simpl; split; try done; intros []; done.
Qed.

End SplitFacts.

(** ** Batched calls and [add_to_services] *)

Module ExecutorFacts.
Import Actions ActionsFacts.

Lemma outcome_partition (o : BatchOutcome) :
  outcome_wf o →
  outcome_successes o ++ (failed_item <$> outcome_failures o) ≡ₚ bo_items o.
Proof.
  unfold outcome_wf, outcome_successes, outcome_failures.
  destruct (success (bo_bulk o)); intros Hwf.
  - by rewrite app_nil_r.
  - rewrite <- list_fmap_compose.
    match goal with
    | |- context [(failed_item ∘ ?g) <$> _] =>
        change (failed_item ∘ g) with (fst (A:=string) (B:=ApiResult))
    end.
    rewrite <- fmap_app.
    rewrite (filter_app_complement (fun ir : string * ApiResult => success ir.2 = true)).
    by rewrite fst_zip by lia.
Qed.

Lemma outcomes_partition (os : list BatchOutcome) :
  Forall outcome_wf os →
  concat (outcome_successes <$> os) ++ (failed_item <$> concat (outcome_failures <$> os))
  ≡ₚ concat (bo_items <$> os).
Proof.
  induction 1 as [|o os Ho _ IH]; [done|].
  rewrite !fmap_cons. cbn [concat]. rewrite fmap_app.
  rewrite <- (outcome_partition o Ho), <- IH.
  rewrite <- !app_assoc. f_equiv. rewrite !app_assoc. f_equiv.
  apply Permutation_app_comm.
Qed.


Lemma range_from_length fuel i n bs :
  0 < bs → 0 <= i →
  (Z.to_nat (n - i) ≤ fuel)%nat →
  Z.of_nat (length (range_from fuel i n bs))
  = if bool_decide (i < n) then (n - i + bs - 1) / bs else 0.
Proof.
  intros Hbs. revert i. induction fuel as [|fuel IH]; intros i Hi Hfuel; simpl.
  - rewrite bool_decide_eq_false_2 by lia. done.
  - case_bool_decide as Hlt; [|done]. simpl length.
    rewrite Nat2Z.inj_succ, IH by lia.
    case_bool_decide as Hnext.
    + replace (n - i + bs - 1) with ((n - (i + bs) + bs - 1) + 1 * bs) by lia.
      rewrite Z.div_add by lia. lia.
    + apply Z.div_unique with (r := n - i - 1); lia.
Qed.

Section Executor.
Context {S : Type} (respond : S → Request → ApiResult * S).
Implicit Types (w : World (S:=S)).

(** A run of [batch_api_call_with_retry] with an address configured, as a
    list of batch outcomes. *)
Lemma batch_outcomes ctx ep meth items bs bfmt sfmt t w :
  0 < bs →
  truthy_opt (api_address_of ctx) = true →
  ∃ res w' os,
    batch_api_call_with_retry respond ctx ep meth items bs bfmt sfmt t w = Some (res, w')
    ∧ concat (bo_items <$> os) = items
    ∧ Forall outcome_wf os
    ∧ calls w' = calls w ++ concat (outcome_calls (request_for ctx ep meth t) bfmt sfmt <$> os)
    ∧ successful_items res = concat (outcome_successes <$> os)
    ∧ failed_items_with_errors res = concat (outcome_failures <$> os).
Proof.
  intros Hbs Haddr. unfold batch_api_call_with_retry.
  case_bool_decide as Hitems.
  { subst items. eexists _, w, []. split; [reflexivity|]. simpl.
    by rewrite app_nil_r. }
  rewrite Haddr. simpl. unfold py_range.
  rewrite bool_decide_eq_false_2 by lia. rewrite bool_decide_eq_false_2 by lia.
  rewrite for_each_fmap. rewrite Nat2Z.id.
  pose proof (range_batches items bs (length items) 0 Hbs) as Hcons.
  rewrite drop_0 in Hcons. specialize (Hcons ltac:(lia)).
  destruct Hcons as (Hconcat & Hall & _).
  edestruct (batches_outcome respond (request_for ctx ep meth t) bfmt sfmt)
    as (os & acc' & w' & -> & Hos & Hwf & Hcalls & Hs & Hf).
  { eapply Forall_impl; [exact Hall|]. by intros ? [? _]. }
  exists acc', w', os. split; [done|]. rewrite Hos. auto.
Qed.

Lemma batch_api_call_with_retry_partitions_aux ctx ep meth items bs bfmt sfmt t w :
  truthy_opt (api_address_of ctx) = false →
  ∃ res,
    batch_api_call_with_retry respond ctx ep meth items bs bfmt sfmt t w = Some (res, w)
    ∧ successful_items res ++ (failed_item <$> failed_items_with_errors res) ≡ₚ items
    ∧ successful_items res = [].
Proof.
  intros Haddr. unfold batch_api_call_with_retry. rewrite Haddr.
  case_bool_decide as Hitems.
  - subst. eexists. split; [reflexivity|]. done.
  - eexists. split; [reflexivity|]. simpl. split; [|done].
    rewrite <- list_fmap_compose. by rewrite list_fmap_id.
Qed.

(** X14. With a positive batch size [batch_api_call_with_retry] returns, and
    every item is reported exactly once: the successful items together
    with the items of the failure entries are a rearrangement of the input.
    Without an API address no call is made and every item fails. *)
Theorem batch_api_call_with_retry_partitions (ctx : RuleExecutionContext)
    (endpoint method : string) (items : list string) (batch_size : Z)
    (batch_fmt : list string → Payload) (single_fmt : string → Payload)
    (timeout : Z) (w : World) :
  0 < batch_size →
  ∃ res w',
    batch_api_call_with_retry respond ctx endpoint method items batch_size
      batch_fmt single_fmt timeout w = Some (res, w')
    ∧ successful_items res ++ (failed_item <$> failed_items_with_errors res) ≡ₚ items
    ∧ (truthy_opt (api_address_of ctx) = false →
       w' = w ∧ successful_items res = []).
Proof.
  intros Hbs. destruct (truthy_opt (api_address_of ctx)) eqn:Haddr.
  - destruct (batch_outcomes ctx endpoint method items batch_size batch_fmt single_fmt
                timeout w Hbs Haddr) as (res & w' & os & Hrun & Hitems & Hwf & _ & Hs & Hf).
    exists res, w'. split; [done|]. split; [|done].
    rewrite Hs, Hf, <- Hitems. by apply outcomes_partition.
  - destruct (batch_api_call_with_retry_partitions_aux ctx endpoint method items
                batch_size batch_fmt single_fmt timeout w Haddr) as (res & Hrun & Hperm & Hs).
    exists res, w. by split_and!.
Qed.

Lemma batches_all_accepted mk bfmt sfmt (batches : list (list string)) acc w :
  (∀ s req, success (respond s req).1 = true) →
  Forall (fun b => b ≠ []) batches →
  ∃ w' tr,
    for_each (process_batch respond mk bfmt sfmt) batches acc w
    = Some ({| successful_items := successful_items acc ++ concat batches;
               failed_items_with_errors := failed_items_with_errors acc |}, w')
    ∧ calls w' = calls w ++ tr
    ∧ tr.*1 = (fun b => mk (bfmt b)) <$> batches.
Proof.
  intros Hok Hne. revert acc w. induction Hne as [|b batches Hb _ IH]; intros acc w.
  - exists w, []. simpl. rewrite !app_nil_r. by destruct acc.
  - simpl. unfold bind at 1. unfold process_batch at 1.
    rewrite bool_decide_eq_false_2 by done. unfold bind, call_hydrus_api.
    pose proof (Hok (remote w) (mk (bfmt b))) as Hb_ok.
    destruct (respond (remote w) (mk (bfmt b))) as [r s']. simpl in Hb_ok.
    rewrite Hb_ok. simpl.
    edestruct IH as (w' & tr & -> & Hcalls & Htr).
    exists w', ((mk (bfmt b), r) :: tr). simpl.
    rewrite <- !app_assoc. split; [done|]. rewrite Hcalls. simpl.
    rewrite <- app_assoc. split; [done|]. f_equal. exact Htr.
Qed.

(** X15. When the client accepts every request, a batched call with an
    address configured and a positive batch size reports every item as
    successful, in the order given, and costs one call per batch and no
    retry: the number of calls is the number of items divided by the batch
    size, rounded up. *)
Theorem batch_api_call_all_accepted (ctx : RuleExecutionContext)
    (endpoint method : string) (items : list string) (batch_size : Z)
    (batch_fmt : list string → Payload) (single_fmt : string → Payload)
    (timeout : Z) (w : World) :
  0 < batch_size →
  truthy_opt (api_address_of ctx) = true →
  (∀ s req, success (respond s req).1 = true) →
  ∃ w' tr,
    batch_api_call_with_retry respond ctx endpoint method items batch_size
      batch_fmt single_fmt timeout w
    = Some ({| successful_items := items; failed_items_with_errors := [] |}, w')
    ∧ calls w' = calls w ++ tr
    ∧ Z.of_nat (length tr) = (Z.of_nat (length items) + batch_size - 1) / batch_size.
Proof.
  intros Hbs Haddr Hok. unfold batch_api_call_with_retry.
  case_bool_decide as Hitems.
  { subst items. exists w, []. rewrite app_nil_r. simpl.
    split; [done|]. split; [done|]. symmetry. apply Z.div_small. lia. }
  rewrite Haddr. simpl. unfold py_range.
  rewrite bool_decide_eq_false_2 by lia. rewrite bool_decide_eq_false_2 by lia.
  rewrite for_each_fmap. rewrite Nat2Z.id.
  pose proof (range_batches items batch_size (length items) 0 Hbs) as Hcons.
  rewrite drop_0 in Hcons. specialize (Hcons ltac:(lia)).
  destruct Hcons as (Hconcat & Hall & _). change (Z.of_nat 0) with 0 in *.
  edestruct (batches_all_accepted (request_for ctx endpoint method timeout)
               batch_fmt single_fmt) as (w' & tr & -> & Hcalls & Htr);
    [done| |].
  { eapply Forall_impl; [exact Hall|]. by intros ? [? _]. }
  exists w', tr. simpl. rewrite Hconcat. split; [done|]. split; [done|].
  apply (f_equal length) in Htr. rewrite !length_fmap in Htr. rewrite Htr.
  rewrite range_from_length by lia.
  rewrite bool_decide_eq_true_2; [f_equal; lia|].
  destruct items; [done|]. simpl. lia.
Qed.

Lemma outcome_calls_key ctx ep meth t k (o : BatchOutcome) c :
  c ∈ outcome_calls (request_for ctx ep meth t) (fun bh => HashesPayload bh k)
        (fun sh => HashPayload sh k) o →
  endpoint c.1 = ep ∧ request_service_key c.1 = Some k.
Proof.
  unfold outcome_calls. intros [->|Hc]%elem_of_cons; [done|].
  destruct c as [req r]. apply elem_of_zip_l in Hc.
  apply list_elem_of_fmap in Hc as (item & -> & _). done.
Qed.

(** A batched migration or deletion aimed at the service [k]. *)
Lemma batch_summary ctx ep meth items bs k t w :
  0 < bs →
  ∃ res w' tr,
    batch_api_call_with_retry respond ctx ep meth items bs
      (fun bh => HashesPayload bh k) (fun sh => HashPayload sh k) t w = Some (res, w')
    ∧ calls w' = calls w ++ tr
    ∧ Forall (fun c => endpoint c.1 = ep ∧ request_service_key c.1 = Some k) tr
    ∧ successful_items res ++ (failed_item <$> failed_items_with_errors res) ≡ₚ items
    ∧ (truthy_opt (api_address_of ctx) = false → tr = [] ∧ successful_items res = []).
Proof.
  intros Hbs. destruct (truthy_opt (api_address_of ctx)) eqn:Haddr.
  - destruct (batch_outcomes ctx ep meth items bs (fun bh => HashesPayload bh k)
                (fun sh => HashPayload sh k) t w Hbs Haddr)
      as (res & w' & os & Hrun & Hitems & Hwf & Hcalls & Hs & Hf).
    eexists res, w', _. split; [done|]. split; [exact Hcalls|]. split_and!; [| |done].
    + apply Forall_forall. intros c (cs & Hc & Hcs)%elem_of_concat.
      apply list_elem_of_fmap in Hcs as (o & -> & _). by eapply outcome_calls_key.
    + rewrite Hs, Hf, <- Hitems. by apply outcomes_partition.
  - destruct (batch_api_call_with_retry_partitions_aux ctx ep meth items bs
                (fun bh => HashesPayload bh k) (fun sh => HashPayload sh k) t w Haddr)
      as (res & Hrun & Hperm & Hs).
    exists res, w, []. rewrite app_nil_r. by split_and!.
Qed.

Lemma add_to_failures_dom k (m : gmap string (list AddToError)) fs :
  dom (foldl (add_to_failure k) m fs) = dom m ∪ list_to_set (failed_item <$> fs).
Proof.
  revert m. induction fs as [|[[h msg] st] fs IH]; intros m; simpl.
  - set_solver.
  - rewrite IH, dom_insert_L. unfold failed_item at 2. simpl. set_solver.
Qed.

Lemma add_to_loop ctx items bs dests acc w :
  0 < bs →
  ∃ res w' tr,
    for_each (add_to_dest respond ctx items bs) dests acc w = Some (res, w')
    ∧ calls w' = calls w ++ tr
    ∧ Forall (fun c => endpoint c.1 = "/add_files/migrate_files"
                       ∧ ∃ k, request_service_key c.1 = Some k ∧ k ∈ dests) tr
    ∧ total_successful_migrations res + total_failed_migrations res
      = total_successful_migrations acc + total_failed_migrations acc
        + Z.of_nat (length items) * Z.of_nat (length dests)
    ∧ total_failed_migrations acc <= total_failed_migrations res
    ∧ (at_success res = true
       ↔ at_success acc = true
         ∧ total_failed_migrations res = total_failed_migrations acc)
    ∧ dom (files_with_some_errors res)
      ⊆ dom (files_with_some_errors acc) ∪ list_to_set items
    ∧ (total_failed_migrations res = total_failed_migrations acc →
       files_with_some_errors res = files_with_some_errors acc)
    ∧ (total_failed_migrations acc < total_failed_migrations res →
       files_with_some_errors res ≠ ∅)
    ∧ (truthy_opt (api_address_of ctx) = false → tr = []).
Proof.
  intros Hbs. revert acc w. induction dests as [|k dests IH]; intros acc w.
  - exists acc, w, []. simpl. rewrite app_nil_r. split_and!; try done; try lia.
    + tauto.
    + set_solver.
  - simpl. unfold bind at 1. unfold add_to_dest at 1. unfold bind.
    destruct (batch_summary ctx "/add_files/migrate_files" "POST" items bs k 180 w Hbs)
      as (br & w1 & tr1 & -> & Hcalls1 & Htr1 & Hperm & Hoff1).
    pose proof (Permutation_length Hperm) as Hlen.
    rewrite length_app, length_fmap in Hlen.
    assert (∀ h, h ∈ failed_item <$> failed_items_with_errors br → h ∈ items) as Hsub.
    { intros h Hh. rewrite <- Hperm. set_solver. }
    case_bool_decide as Hfail; unfold ret.
    + match goal with |- context [for_each _ _ ?a w1] => set (acc1 := a) end.
      destruct (IH acc1 w1)
        as (res & w' & tr & -> & Hcalls & Htr & Hsum & Hle & Hok & Hdom & Hsame & Hne & Hoff).
      exists res, w', (tr1 ++ tr). split; [done|].
      split; [by rewrite Hcalls, Hcalls1, app_assoc|].
      rewrite Hfail in Hlen. simpl in *.
      split_and!; try done; try lia.
      * apply Forall_app. split.
        -- eapply Forall_impl; [exact Htr1|]. intros c [? ?]. split; [done|].
           exists k. split; [done|]. by left.
        -- eapply Forall_impl; [exact Htr|]. intros c [? (k' & ? & ?)]. split; [done|].
           exists k'. split; [done|]. by right.
      * intros Ha. destruct (Hoff1 Ha) as [-> _]. by rewrite (Hoff Ha).
    + match goal with |- context [for_each _ _ ?a w1] => set (acc1 := a) end.
      destruct (IH acc1 w1)
        as (res & w' & tr & -> & Hcalls & Htr & Hsum & Hle & Hok & Hdom & Hsame & Hne & Hoff).
      exists res, w', (tr1 ++ tr). split; [done|].
      split; [by rewrite Hcalls, Hcalls1, app_assoc|].
      assert (0 < length (failed_items_with_errors br))%nat as Hpos.
      { destruct (failed_items_with_errors br); [done|simpl; lia]. }
      assert (files_with_some_errors acc1 ≠ ∅) as Hne1.
      { intros He. apply (f_equal dom) in He. revert He. simpl.
        rewrite add_to_failures_dom, dom_empty_L.
        destruct (failed_items_with_errors br) as [|f fs]; [done|].
        rewrite fmap_cons. set_solver. }
      assert (dom (files_with_some_errors acc1)
              = dom (files_with_some_errors acc)
                ∪ list_to_set (failed_item <$> failed_items_with_errors br)) as Hdom1.
      { simpl. apply add_to_failures_dom. }
      simpl in *.
      split_and!; try lia.
      * apply Forall_app. split.
        -- eapply Forall_impl; [exact Htr1|]. intros c [? ?]. split; [done|].
           exists k. split; [done|]. by left.
        -- eapply Forall_impl; [exact Htr|]. intros c [? (k' & ? & ?)]. split; [done|].
           exists k'. split; [done|]. by right.
      * split; [|lia]. intros Ha. apply Hok in Ha as [? _]. done.
      * rewrite Hdom1 in Hdom. set_solver.
      * intros _. destruct (decide (total_failed_migrations res
                                    = total_failed_migrations acc
                                      + Z.of_nat (length (failed_items_with_errors br))))
          as [Heq|Hneq].
        -- rewrite Hsame by done. done.
        -- apply Hne. lia.
      * intros Ha. destruct (Hoff1 Ha) as [-> _]. by rewrite (Hoff Ha).
Qed.

(** X16. [add_to_services] with a positive batch size returns; it only calls
    the migration endpoint, for the given destinations; every pair of a file
    and a destination is counted exactly once, as a successful or as a
    failed migration; the success flag is set exactly when no migration
    failed, which is exactly when no file is reported in
    [files_with_some_errors]; and only given files are reported there. *)
Theorem add_to_services_accounts (ctx : RuleExecutionContext)
    (file_hashes destination_service_keys : list string) (batch_size : Z) (w : World) :
  0 < batch_size →
  ∃ res w' tr,
    add_to_services respond ctx file_hashes destination_service_keys batch_size w
    = Some (res, w')
    ∧ calls w' = calls w ++ tr
    ∧ Forall (fun c => endpoint c.1 = "/add_files/migrate_files"
                       ∧ ∃ k, request_service_key c.1 = Some k
                              ∧ k ∈ destination_service_keys) tr
    ∧ total_successful_migrations res + total_failed_migrations res
      = Z.of_nat (length file_hashes) * Z.of_nat (length destination_service_keys)
    ∧ (at_success res = true ↔ total_failed_migrations res = 0)
    ∧ (at_success res = true ↔ files_with_some_errors res = ∅)
    ∧ dom (files_with_some_errors res) ⊆ list_to_set file_hashes.
Proof.
  intros Hbs. unfold add_to_services.
  destruct (bool_decide (file_hashes = []) || bool_decide (destination_service_keys = []))
    eqn:Hguard.
  - exists {| at_success := true; total_successful_migrations := 0;
              total_failed_migrations := 0; files_with_some_errors := ∅ |}, w, [].
    rewrite app_nil_r. simpl. split_and!; try done.
    apply orb_true_iff in Hguard as [->%bool_decide_eq_true | ->%bool_decide_eq_true];
      simpl; lia.
  - match goal with |- context [for_each _ _ ?a w] => set (start := a) end.
    destruct (add_to_loop ctx file_hashes batch_size destination_service_keys start w Hbs)
      as (res & w' & tr & -> & Hcalls & Htr & Hsum & Hle & Hok & Hdom & Hsame & Hne & _).
    exists res, w', tr. simpl in *. split_and!; try done.
    + split; [by intros [_ ?]%Hok|]. intros H0. by apply Hok.
    + split.
      * intros [_ H0]%Hok. by apply Hsame.
      * intros He. apply Hok. split; [done|].
        destruct (decide (total_failed_migrations res = 0)) as [|Hnz]; [done|].
        exfalso. apply Hne; [lia|done].
    + rewrite dom_empty_L in Hdom. set_solver.
Qed.

End Executor.

Lemma batch_api_call_with_retry_partitions_witness :
  let ctx := Samples.context "r1" 1 (Samples.add_to_action ["dst"]) [] in
  let items := ["h1"; "h2"; "h3"; "h4"; "h5"; "h6"; "h7"; "h8"; "h9"; "h10"] in
  0 < 4
  ∧ ∃ res w',
      batch_api_call_with_retry Samples.flaky_api ctx "/add_files/migrate_files" "POST"
        items 4 (fun bh => HashesPayload bh "dst") (fun sh => HashPayload sh "dst") 180
        Samples.fresh_world = Some (res, w')
      ∧ successful_items res ++ (failed_item <$> failed_items_with_errors res) ≡ₚ items
      ∧ (truthy_opt (api_address_of ctx) = false →
         w' = Samples.fresh_world ∧ successful_items res = []).
Proof.
  intros ctx items. split; [lia|].
  apply (batch_api_call_with_retry_partitions Samples.flaky_api ctx
           "/add_files/migrate_files" "POST" items 4
           (fun bh => HashesPayload bh "dst") (fun sh => HashPayload sh "dst") 180
           Samples.fresh_world).
  lia.
Defined.

Lemma batch_api_call_all_accepted_witness :
  let ctx := Samples.context "r1" 1 (Samples.add_to_action ["dst"]) [] in
  let items := ["h1"; "h2"; "h3"; "h4"; "h5"; "h6"; "h7"; "h8"; "h9"; "h10"] in
  0 < 4
  ∧ truthy_opt (api_address_of ctx) = true
  ∧ (∀ s req, success (Samples.accepting_api s req).1 = true)
  ∧ ∃ w' tr,
      batch_api_call_with_retry Samples.accepting_api ctx "/add_files/migrate_files"
        "POST" items 4 (fun bh => HashesPayload bh "dst")
        (fun sh => HashPayload sh "dst") 180 Samples.fresh_world
      = Some ({| successful_items := items; failed_items_with_errors := [] |}, w')
      ∧ calls w' = calls Samples.fresh_world ++ tr
      ∧ Z.of_nat (length tr) = (Z.of_nat (length items) + 4 - 1) / 4.
Proof.
  intros ctx items.
  assert (∀ s req, success (Samples.accepting_api s req).1 = true) as Hok by done.
  split; [lia|]. split; [reflexivity|]. split; [exact Hok|].
  apply (batch_api_call_all_accepted Samples.accepting_api ctx
           "/add_files/migrate_files" "POST" items 4
           (fun bh => HashesPayload bh "dst") (fun sh => HashPayload sh "dst") 180
           Samples.fresh_world); [lia|reflexivity|exact Hok].
Defined.

Lemma add_to_services_accounts_witness :
  let ctx := Samples.context "r1" 1 (Samples.add_to_action ["dst"; "old"]) [] in
  let files := ["h1"; "h2"; "h3"; "h4"; "h5"; "h6"; "h7"] in
  0 < 4
  ∧ ∃ res w' tr,
      add_to_services Samples.flaky_api ctx files ["dst"; "old"] 4 Samples.fresh_world
      = Some (res, w')
      ∧ calls w' = calls Samples.fresh_world ++ tr
      ∧ Forall (fun c => endpoint c.1 = "/add_files/migrate_files"
                         ∧ ∃ k, request_service_key c.1 = Some k
                                ∧ k ∈ ["dst"; "old"]) tr
      ∧ total_successful_migrations res + total_failed_migrations res
        = Z.of_nat (length files) * Z.of_nat (length ["dst"; "old"])
      ∧ (at_success res = true ↔ total_failed_migrations res = 0)
      ∧ (at_success res = true ↔ files_with_some_errors res = ∅)
      ∧ dom (files_with_some_errors res) ⊆ list_to_set files.
Proof.
  intros ctx files. split; [lia|].
  apply (add_to_services_accounts Samples.flaky_api ctx files ["dst"; "old"] 4
           Samples.fresh_world). lia.
Defined.

End ExecutorFacts.

(** ** Metadata fetches and [force_in_services] under any client *)

Module ForceInFacts.
Import Actions ActionsFacts ExecutorFacts.

Section ForceIn.
Context {S : Type} (respond : S → Request → ApiResult * S).
Implicit Types (w : World (S:=S)).

Lemma fetch_batches_accounts ctx t (batches : list (list string)) acc w :
  ∃ fresh errs w' tr,
    for_each (fetch_batch respond (request_for ctx "/get_files/file_metadata" "GET" t))
      batches acc w = Some ((acc.1 ++ fresh, acc.2 ++ errs), w')
    ∧ calls w' = calls w ++ tr
    ∧ tr.*1 = (fun b => request_for ctx "/get_files/file_metadata" "GET" t
                          (MetadataParams b)) <$> batches
    ∧ fresh = concat (omap answered tr)
    ∧ hashes_in_batch <$> errs
      = (fun c => request_hashes c.1) <$> filter (fun c => answered c = None) tr.
Proof.
  revert acc w. induction batches as [|b batches IH]; intros acc w.
  - exists [], [], w, []. simpl. rewrite !app_nil_r. by destruct acc.
  - simpl. unfold bind at 1. unfold fetch_batch at 1. unfold bind, call_hydrus_api.
    set (req := request_for ctx "/get_files/file_metadata" "GET" t (MetadataParams b)).
    destruct (respond (remote w) req) as [r s'] eqn:Hr.
    destruct (success r) eqn:Hok; [destruct (data r) as [metas|] eqn:Hdata|]; simpl.
    + edestruct (IH (acc.1 ++ metas, acc.2))
        as (fresh & errs & w' & tr & -> & Hcalls & Htr & Hfresh & Herrs).
      exists (metas ++ fresh), errs, w', ((req, r) :: tr).
      simpl in *. rewrite <- !app_assoc. split; [done|].
      split; [by rewrite Hcalls, <- app_assoc|]. split; [by f_equal|].
      assert (answered (req, r) = Some metas) as Ha.
      { unfold answered. simpl. by rewrite Hok. }
      rewrite filter_cons, decide_False by (by rewrite Ha).
      rewrite Ha. simpl. split; [by rewrite Hfresh|done].
    + match goal with
      | |- context [for_each _ _ (_, _ ++ [?e]) _] => set (err := e)
      end.
      edestruct (IH (acc.1, acc.2 ++ [err]))
        as (fresh & errs & w' & tr & -> & Hcalls & Htr & Hfresh & Herrs).
      exists fresh, (err :: errs), w', ((req, r) :: tr).
      split; [by simpl; rewrite <- app_assoc|].
      split; [by rewrite Hcalls; simpl; rewrite <- app_assoc|].
      split; [by simpl; f_equal|].
      assert (answered (req, r) = None) as Ha.
      { unfold answered. simpl. by rewrite Hok. }
      rewrite filter_cons, decide_True by done.
      cbn [omap list_omap]. rewrite Ha. split; [done|]. rewrite !fmap_cons. by f_equal.
    + match goal with
      | |- context [for_each _ _ (_, _ ++ [?e]) _] => set (err := e)
      end.
      edestruct (IH (acc.1, acc.2 ++ [err]))
        as (fresh & errs & w' & tr & -> & Hcalls & Htr & Hfresh & Herrs).
      exists fresh, (err :: errs), w', ((req, r) :: tr).
      split; [by simpl; rewrite <- app_assoc|].
      split; [by rewrite Hcalls; simpl; rewrite <- app_assoc|].
      split; [by simpl; f_equal|].
      assert (answered (req, r) = None) as Ha.
      { unfold answered. simpl. by rewrite Hok. }
      rewrite filter_cons, decide_True by done.
      cbn [omap list_omap]. rewrite Ha. split; [done|]. rewrite !fmap_cons. by f_equal.
Qed.

(** X17. [fetch_metadata], with an API address configured and a positive
    batch size, asks for every hash exactly once, in consecutive batches in
    the order given; the metadata returned is what the successful calls
    delivered, in order, and the error list names exactly the batches of
    the calls that delivered nothing. *)
Theorem fetch_metadata_accounts (ctx : RuleExecutionContext) (hashes_list : list string)
    (batch_size : Z) (w : World) :
  0 < batch_size →
  truthy_opt (api_address_of ctx) = true →
  ∃ fresh errs w' tr,
    fetch_metadata respond ctx hashes_list batch_size w = Some ((fresh, errs), w')
    ∧ calls w' = calls w ++ tr
    ∧ Forall (fun c => endpoint c.1 = "/get_files/file_metadata"
                       ∧ request_hashes c.1 ≠ []
                       ∧ (length (request_hashes c.1) ≤ Z.to_nat batch_size)%nat) tr
    ∧ concat ((fun c => request_hashes c.1) <$> tr) = hashes_list
    ∧ fresh = concat (omap answered tr)
    ∧ hashes_in_batch <$> errs
      = (fun c => request_hashes c.1) <$> filter (fun c => answered c = None) tr.
Proof.
  intros Hbs Haddr. unfold fetch_metadata.
  case_bool_decide as Hhs.
  { subst. exists [], [], w, []. simpl. by rewrite app_nil_r. }
  rewrite Haddr. simpl. unfold py_range.
  rewrite bool_decide_eq_false_2 by lia. rewrite bool_decide_eq_false_2 by lia.
  rewrite for_each_fmap. rewrite Nat2Z.id.
  pose proof (range_batches hashes_list batch_size (length hashes_list) 0 Hbs) as Hcons.
  rewrite drop_0 in Hcons. specialize (Hcons ltac:(lia)).
  destruct Hcons as (Hconcat & Hall & _). change (Z.of_nat 0) with 0 in *.
  set (batches := (fun j => slice hashes_list j batch_size) <$> _) in *.
  destruct (fetch_batches_accounts ctx 60 batches ([], []) w)
    as (fresh & errs & w' & tr & -> & Hcalls & Htr & Hfresh & Herrs).
  exists fresh, errs, w', tr. simpl. split; [done|]. split; [done|].
  assert ((fun c : Request * ApiResult => request_hashes c.1) <$> tr = batches) as Hreq.
  { change ((fun c : Request * ApiResult => request_hashes c.1) <$> tr)
      with ((request_hashes ∘ fst) <$> tr).
    rewrite list_fmap_compose. fold (tr.*1). rewrite Htr, <- list_fmap_compose.
    apply list_fmap_id. }
  split_and!; try done.
  - apply Forall_forall. intros c Hc.
    assert (c.1 ∈ tr.*1) as Hc1 by (apply list_elem_of_fmap; eauto).
    rewrite Htr in Hc1. apply list_elem_of_fmap in Hc1 as (b & -> & Hb).
    eapply Forall_forall in Hall; [|exact Hb]. done.
  - by rewrite Hreq.
Qed.

Lemma valid_destination_keys_nonempty keys dest_keys :
  valid_destination_keys keys = Some dest_keys → dest_keys ≠ [].
Proof.
  destruct keys as [| | |l]; simpl; try done.
  case_bool_decide as Hl; [done|].
  destruct (forallb _ l) eqn:Hall; [|done]. intros [= <-].
  destruct l as [|[]]; simpl in *; done.
Qed.

Lemma copy_phase_done ctx bs dest_keys (st : gset string * gmap string ErrEntry) w :
  st.1 = ∅ → copy_phase respond ctx bs dest_keys st w = Some (st, w).
Proof. intros Hst. destruct dest_keys; simpl; [done|]. by rewrite bool_decide_eq_true_2. Qed.

(** X18. Without an API address [force_in_services] fails closed: for valid
    destination keys and at least one candidate it makes no call, reports
    failure with the error "no files copied", no file as successful, and
    every candidate hash under the phase "copy". *)
Theorem force_in_without_address (ctx : RuleExecutionContext)
    (files_metadata_list : list FileMeta) (keys : PyVal) (dest_keys : list string)
    (batch_size : Z) (w : World) :
  truthy_opt (api_address_of ctx) = false →
  files_metadata_list ≠ [] →
  valid_destination_keys keys = Some dest_keys →
  ∃ res,
    force_in_services respond ctx files_metadata_list keys batch_size w = Some (res, w)
    ∧ fi_success res = false
    ∧ overall_errors res = [NoFilesCopied]
    ∧ files_fully_successful res = []
    ∧ ∀ h, phase_of (files_with_errors res) h
           = if decide (h ∈ candidate_hashes files_metadata_list) then Some "copy"
             else None.
Proof.
  intros Haddr Hfiles Hkeys. unfold force_in_services.
  rewrite bool_decide_eq_false_2 by done. rewrite Hkeys.
  pose proof (valid_destination_keys_nonempty _ _ Hkeys) as Hne.
  destruct dest_keys as [|dest_key rest]; [done|].
  unfold bind. simpl copy_phase. simpl fst.
  set (C := list_to_set (candidate_hashes files_metadata_list) : gset string).
  case_bool_decide as HC.
  - unfold ret. simpl. rewrite bool_decide_eq_true_2 by done.
    eexists. split; [reflexivity|]. simpl. split_and!; try done.
    intros h. rewrite phase_of_empty. rewrite decide_False; [done|].
    intros Hh. assert (h ∈ C) as HhC by (by apply elem_of_list_to_set). set_solver.
  - unfold bind.
    destruct (batch_api_call_with_retry_partitions_aux respond ctx
                "/add_files/migrate_files" "POST" (elements C) batch_size
                (fun bh => HashesPayload bh dest_key) (fun sh => HashPayload sh dest_key)
                180 w Haddr) as (br & -> & Hperm & Hs).
    rewrite Hs in Hperm. simpl in Hperm.
    destruct (discard_failures_spec (copy_failure dest_key) (fun f => f.1.1) "copy"
                (failed_items_with_errors br) (C, ∅)) as [HC1 HE1].
    { intros. apply copy_failure_step. }
    change (fun f : string * string * option Z => f.1.1) with failed_item in *.
    set (st1 := foldl (copy_failure dest_key) (C, ∅) (failed_items_with_errors br)) in *.
    simpl in HC1, HE1.
    assert (st1.1 = ∅) as Hst1.
    { rewrite HC1. apply set_eq. intros h. rewrite elem_of_difference, elem_of_list_to_set.
      rewrite Hperm, elem_of_elements. set_solver. }
    rewrite (copy_phase_done ctx batch_size rest st1 w Hst1).
    rewrite bool_decide_eq_true_2 by done. unfold ret.
    eexists. split; [reflexivity|]. simpl. split_and!; try done.
    intros h. rewrite HE1, phase_of_empty. simpl.
    assert (h ∈ failed_item <$> failed_items_with_errors br
            ↔ h ∈ candidate_hashes files_metadata_list) as Hiff.
    { rewrite Hperm, elem_of_elements. unfold C. by rewrite elem_of_list_to_set. }
    repeat case_decide; try done; tauto.
Qed.

Lemma copy_phase_trace ctx bs dest_keys (st : gset string * gmap string ErrEntry) w :
  0 < bs →
  ∃ st' w' tr,
    copy_phase respond ctx bs dest_keys st w = Some (st', w')
    ∧ calls w' = calls w ++ tr
    ∧ Forall (fun c => endpoint c.1 = "/add_files/migrate_files"
                       ∧ ∃ k, request_service_key c.1 = Some k ∧ k ∈ dest_keys) tr.
Proof.
  intros Hbs. revert st w. induction dest_keys as [|k rest IH]; intros st w; simpl.
  - exists st, w, []. by rewrite app_nil_r.
  - case_bool_decide.
    { exists st, w, []. by rewrite app_nil_r. }
    unfold bind.
    destruct (batch_summary respond ctx "/add_files/migrate_files" "POST" (elements st.1)
                bs k 180 w Hbs) as (br & w1 & tr1 & -> & Hcalls1 & Htr1 & _).
    edestruct IH as (st' & w' & tr & -> & Hcalls & Htr).
    exists st', w', (tr1 ++ tr). split; [done|].
    split; [by rewrite Hcalls, Hcalls1, app_assoc|].
    apply Forall_app. split.
    + eapply Forall_impl; [exact Htr1|]. intros c [? ?]. split; [done|].
      exists k. split; [done|]. by left.
    + eapply Forall_impl; [exact Htr|]. intros c [? (k' & ? & ?)]. split; [done|].
      exists k'. split; [done|]. by right.
Qed.

Lemma fetch_metadata_trace ctx hs bs w :
  0 < bs →
  ∃ res w' tr,
    fetch_metadata respond ctx hs bs w = Some (res, w')
    ∧ calls w' = calls w ++ tr
    ∧ Forall (fun c => endpoint c.1 = "/get_files/file_metadata"
                       ∧ request_service_key c.1 = None) tr.
Proof.
  intros Hbs. unfold fetch_metadata.
  case_bool_decide.
  { eexists _, w, []. rewrite app_nil_r. by split_and!. }
  destruct (truthy_opt (api_address_of ctx)) eqn:Haddr; simpl.
  2:{ eexists _, w, []. rewrite app_nil_r. by split_and!. }
  unfold py_range.
  rewrite bool_decide_eq_false_2 by lia. rewrite bool_decide_eq_false_2 by lia.
  rewrite for_each_fmap.
  set (batches := (fun j => slice hs j bs) <$> _).
  destruct (fetch_batches_accounts ctx 60 batches ([], []) w)
    as (fresh & errs & w' & tr & -> & Hcalls & Htr & _).
  eexists _, w', tr. split_and!; try done.
  apply Forall_forall. intros c Hc.
  assert (c.1 ∈ tr.*1) as Hc1 by (apply list_elem_of_fmap; eauto).
  rewrite Htr in Hc1. apply list_elem_of_fmap in Hc1 as (b & -> & Hb). done.
Qed.

Lemma setdefault_append_keys k h d k' :
  k' ∈ (setdefault_append k h d).*1 ↔ k' = k ∨ k' ∈ d.*1.
Proof.
  induction d as [|[k0 hs] d IH]; simpl.
  - set_solver.
  - case_bool_decide; subst; simpl; [set_solver|].
    rewrite !elem_of_cons, IH. tauto.
Qed.

Lemma delete_prep_keys all_local dest mmap hs (st : DeletePrep) k :
  k ∈ (deletions_by_service (foldl (delete_prep all_local dest mmap) st hs)).*1 →
  k ∈ (deletions_by_service st).*1 ∨ (k ∈ all_local ∧ k ∉ dest).
Proof.
  revert st. induction hs as [|h hs IH]; intros st; simpl; [auto|].
  intros [Hk|Hk]%IH; [|by right]. revert Hk. unfold delete_prep.
  destruct (mmap !! h) as [meta|]; simpl; [|auto].
  set (sks := elements _).
  assert (∀ sk, sk ∈ sks → sk ∈ all_local ∧ sk ∉ dest) as Hsks.
  { intros sk. unfold sks. rewrite elem_of_elements. set_solver. }
  generalize (deletions_by_service st). clearbody sks.
  induction sks as [|sk sks IHs]; intros d; simpl; [auto|].
  intros [Hk|Hk]%IHs.
  - apply setdefault_append_keys in Hk as [->|Hk]; [|auto].
    right. apply Hsks. by left.
  - by right.
  - intros sk' Hsk'. apply Hsks. by right.
Qed.

Lemma delete_phase_trace ctx bs deletions (st : gset string * gmap string ErrEntry) w :
  0 < bs →
  ∃ st' w' tr,
    delete_phase respond ctx bs deletions st w = Some (st', w')
    ∧ calls w' = calls w ++ tr
    ∧ Forall (fun c => endpoint c.1 = "/add_files/delete_files"
                       ∧ ∃ k, request_service_key c.1 = Some k ∧ k ∈ deletions.*1) tr.
Proof.
  intros Hbs. revert st w. induction deletions as [|[k hs] rest IH]; intros st w; simpl.
  - exists st, w, []. by rewrite app_nil_r.
  - destruct (bool_decide (hs = []) || bool_decide (st.1 = ∅)).
    { exists st, w, []. by rewrite app_nil_r. }
    unfold bind.
    destruct (batch_summary respond ctx "/add_files/delete_files" "POST"
                (filter (fun h => h ∈ st.1) hs) bs k 180 w Hbs)
      as (br & w1 & tr1 & -> & Hcalls1 & Htr1 & _).
    edestruct IH as (st' & w' & tr & -> & Hcalls & Htr).
    exists st', w', (tr1 ++ tr). split; [done|].
    split; [by rewrite Hcalls, Hcalls1, app_assoc|].
    apply Forall_app. split.
    + eapply Forall_impl; [exact Htr1|]. intros c [? ?]. split; [done|].
      exists k. split; [done|]. by left.
    + eapply Forall_impl; [exact Htr|]. intros c [? (k' & ? & ?)]. split; [done|].
      exists k'. split; [done|]. by right.
Qed.

(** X19. Whatever the client answers, [force_in_services] with valid
    destination keys and a positive batch size returns, and every call it
    makes is a migration into one of the destinations, a metadata query, or
    a deletion from a local file service that is not a destination: it
    never deletes from a destination or from a service that is not a local
    file service. *)
Theorem force_in_calls_are_permitted (ctx : RuleExecutionContext)
    (files_metadata_list : list FileMeta) (keys : PyVal) (dest_keys : list string)
    (batch_size : Z) (w : World) :
  0 < batch_size →
  valid_destination_keys keys = Some dest_keys →
  ∃ res w' tr,
    force_in_services respond ctx files_metadata_list keys batch_size w = Some (res, w')
    ∧ calls w' = calls w ++ tr
    ∧ Forall (permitted_call ctx dest_keys) tr.
Proof.
  intros Hbs Hkeys. unfold force_in_services.
  case_bool_decide.
  { eexists _, w, []. rewrite app_nil_r. by split_and!. }
  rewrite Hkeys. unfold bind.
  destruct (copy_phase_trace ctx batch_size dest_keys
              (list_to_set (candidate_hashes files_metadata_list), ∅) w Hbs)
    as (st1 & w1 & tr1 & -> & Hcalls1 & Htr1).
  assert (Forall (permitted_call ctx dest_keys) tr1) as Hp1.
  { eapply Forall_impl; [exact Htr1|]. intros c ?. by left. }
  case_bool_decide.
  { eexists _, w1, tr1. by split_and!. }
  destruct (fetch_metadata_trace ctx (elements st1.1) 256 w1 ltac:(lia))
    as (fetched & w2 & tr2 & -> & Hcalls2 & Htr2).
  assert (Forall (permitted_call ctx dest_keys) tr2) as Hp2.
  { eapply Forall_impl; [exact Htr2|]. intros c ?. right. by left. }
  cbv zeta. case_bool_decide.
  { eexists _, w2, (tr1 ++ tr2). split; [reflexivity|].
    split; [by rewrite Hcalls2, Hcalls1, app_assoc|]. by apply Forall_app. }
  match goal with
  | |- context [delete_phase _ _ _ (deletions_by_service ?p) _ w2] => set (prep := p)
  end.
  set (st3 := (dp_verified prep, dp_errors prep)).
  destruct (delete_phase_trace ctx batch_size (deletions_by_service prep) st3 w2 Hbs)
    as (st4 & w3 & tr3 & -> & Hcalls3 & Htr3).
  eexists _, w3, (tr1 ++ tr2 ++ tr3). split; [reflexivity|].
  split; [by rewrite Hcalls3, Hcalls2, Hcalls1, <- !app_assoc|].
  rewrite !Forall_app. split_and!; try done.
  eapply Forall_impl; [exact Htr3|]. intros c [Hep (k & Hk & Hin)].
  right. right. split; [done|]. exists k. split; [done|].
  apply delete_prep_keys in Hin as [Hin|[Hl Hd]].
  - simpl in Hin. by apply elem_of_nil in Hin.
  - split; [done|]. intros Hkd. apply Hd. by apply elem_of_list_to_set.
Qed.

Lemma delete_prep_verified all_local dest mmap hs (st : DeletePrep) :
  dp_verified (foldl (delete_prep all_local dest mmap) st hs) ⊆ dp_verified st.
Proof.
  revert st. induction hs as [|h hs IH]; intros st; simpl; [done|].
  etrans; [apply IH|]. unfold delete_prep. destruct (mmap !! h); simpl; set_solver.
Qed.

(** X20. Whatever the client answers, the summary of [force_in_services]
    is consistent: the counts of the phases never increase from one phase
    to the next and start from the number of candidates, the files reported
    as fully successful are distinct and as many as the last count, and the
    success flag is set exactly when no error is recorded and every
    candidate is fully successful. *)
Theorem force_in_summary_consistent (ctx : RuleExecutionContext)
    (files_metadata_list : list FileMeta) (keys : PyVal) (batch_size : Z) (w : World) :
  0 < batch_size →
  ∃ res w',
    force_in_services respond ctx files_metadata_list keys batch_size w = Some (res, w')
    ∧ initial_candidates (summary_counts res) = Z.of_nat (length files_metadata_list)
    ∧ copied_phase_success_count (summary_counts res)
      <= initial_candidates (summary_counts res)
    ∧ verified_phase_success_count (summary_counts res)
      <= copied_phase_success_count (summary_counts res)
    ∧ deleted_phase_success_count (summary_counts res)
      <= verified_phase_success_count (summary_counts res)
    ∧ 0 <= deleted_phase_success_count (summary_counts res)
    ∧ Z.of_nat (length (files_fully_successful res))
      = deleted_phase_success_count (summary_counts res)
    ∧ NoDup (files_fully_successful res)
    ∧ (fi_success res = true
       ↔ files_with_errors res = ∅
         ∧ length (files_fully_successful res) = length files_metadata_list).
Proof.
  intros Hbs. unfold force_in_services.
  case_bool_decide as Hfiles.
  { subst. eexists _, w. split; [reflexivity|]. simpl.
    split_and!; try done; apply NoDup_nil_2. }
  assert (0 < length files_metadata_list)%nat as Hpos.
  { destruct files_metadata_list; [done|simpl; lia]. }
  destruct (valid_destination_keys keys) as [dest_keys|].
  2:{ eexists _, w. split; [reflexivity|]. simpl. split_and!; try done; try lia;
      try apply NoDup_nil_2; try (split; [done|]; simpl; intros [_ ?]; lia). }
  unfold bind.
  set (C := list_to_set (candidate_hashes files_metadata_list) : gset string).
  destruct (copy_phase_spec respond ctx batch_size dest_keys C ∅ w Hbs)
    as (C1 & E1 & w1 & tr1 & -> & _ & _ & HC1 & _).
  assert (size C ≤ length files_metadata_list)%nat as HsizeC.
  { etrans; [apply size_list_to_set_le|]. apply length_omap_le. }
  pose proof (subseteq_size _ _ HC1) as Hsize1.
  cbn [fst snd].
  case_bool_decide as HC1e.
  { eexists _, w1. split; [reflexivity|]. simpl. split_and!; try done; try lia;
      try apply NoDup_nil_2; try (split; [done|]; simpl; intros [_ ?]; lia). }
  destruct (fetch_metadata_trace ctx (elements C1) 256 w1 ltac:(lia))
    as ([fresh errs] & w2 & tr2 & -> & _ & _).
  cbv zeta. cbn [fst snd].
  destruct (discard_meta_errors_spec errs (C1, E1)) as [HC2 _].
  set (st2 := discard_meta_errors errs (C1, E1)) in *. simpl in HC2.
  destruct (verify_fold_spec st2.1 (list_to_set dest_keys) fresh (∅, st2.2)) as [HC3 _].
  set (st3 := foldl (verify_meta st2.1 (list_to_set dest_keys)) (∅, st2.2) fresh) in *.
  simpl in HC3.
  assert (st3.1 ⊆ C1) as Hsub3.
  { rewrite HC3, HC2. intros h. rewrite elem_of_union, elem_of_list_to_set.
    intros [?|Hh]; [set_solver|]. apply elem_of_pass_hashes in Hh. set_solver. }
  pose proof (subseteq_size _ _ Hsub3) as Hsize3.
  case_bool_decide as HC3e.
  { eexists _, w2. split; [reflexivity|]. simpl. split_and!; try done; try lia;
      try apply NoDup_nil_2; try (split; [done|]; simpl; intros [_ ?]; lia). }
  match goal with
  | |- context [delete_phase _ _ _ (deletions_by_service ?p) _ w2] => set (prep := p)
  end.
  destruct (delete_phase_spec respond ctx batch_size (deletions_by_service prep)
              (dp_verified prep) (dp_errors prep) w2 Hbs)
    as (D' & E' & w3 & tr3 & -> & _).
  assert (dp_verified prep ⊆ st3.1) as Hprep by apply delete_prep_verified.
  pose proof (subseteq_size _ _ Hprep) as Hsizep.
  eexists _, w3. split; [reflexivity|]. simpl.
  set (fully := filter _ (elements (dp_verified prep))).
  assert (length fully ≤ size (dp_verified prep))%nat as Hfully.
  { unfold fully. etrans; [apply length_filter|]. done. }
  split_and!; try done; try lia.
  - apply NoDup_filter, NoDup_elements.
  - rewrite andb_true_iff, !bool_decide_eq_true. split.
    + intros [He Hl]. split; [by apply map_size_empty_inv|lia].
    + intros [-> Hl]. split; [apply map_size_empty|lia].
Qed.

End ForceIn.

Lemma fetch_metadata_accounts_witness :
  let ctx := Samples.context "r2" 1 (Samples.force_in_action ["dst"]) [] in
  let hashes := ["aa"; "bb"; "cc"] in
  0 < 2
  ∧ truthy_opt (api_address_of ctx) = true
  ∧ ∃ fresh errs w' tr,
      fetch_metadata Samples.shelf_api ctx hashes 2 Samples.shelf_world
      = Some ((fresh, errs), w')
      ∧ calls w' = calls Samples.shelf_world ++ tr
      ∧ Forall (fun c => endpoint c.1 = "/get_files/file_metadata"
                         ∧ request_hashes c.1 ≠ []
                         ∧ (length (request_hashes c.1) ≤ Z.to_nat 2)%nat) tr
      ∧ concat ((fun c => request_hashes c.1) <$> tr) = hashes
      ∧ fresh = concat (omap answered tr)
      ∧ hashes_in_batch <$> errs
        = (fun c => request_hashes c.1) <$> filter (fun c => answered c = None) tr.
Proof.
  intros ctx hashes. split; [lia|]. split; [reflexivity|].
  apply (fetch_metadata_accounts Samples.shelf_api ctx hashes 2 Samples.shelf_world);
    [lia|reflexivity].
Defined.

Lemma force_in_without_address_witness :
  let ctx := Samples.offline_context "r2" 1 (Samples.force_in_action ["dst"]) in
  let files := [Samples.candidate "aa"; Samples.candidate "bb"] in
  truthy_opt (api_address_of ctx) = false
  ∧ files ≠ []
  ∧ valid_destination_keys (PyList [PyStr "dst"]) = Some ["dst"]
  ∧ ∃ res,
      force_in_services Samples.shelf_api ctx files (PyList [PyStr "dst"]) 64
        Samples.shelf_world = Some (res, Samples.shelf_world)
      ∧ fi_success res = false
      ∧ overall_errors res = [NoFilesCopied]
      ∧ files_fully_successful res = []
      ∧ ∀ h, phase_of (files_with_errors res) h
             = if decide (h ∈ candidate_hashes files) then Some "copy" else None.
Proof.
  intros ctx files.
  assert (files ≠ []) as Hfiles by done.
  split; [reflexivity|]. split; [exact Hfiles|]. split; [reflexivity|].
  exact (force_in_without_address Samples.shelf_api ctx files (PyList [PyStr "dst"])
           ["dst"] 64 Samples.shelf_world eq_refl Hfiles eq_refl).
Defined.

Lemma force_in_calls_are_permitted_witness :
  let ctx := Samples.context "r2" 1 (Samples.force_in_action ["dst"]) [] in
  let files := [Samples.candidate "aa"; Samples.candidate "bb"; Samples.candidate "cc"] in
  0 < 64
  ∧ valid_destination_keys (PyList [PyStr "dst"]) = Some ["dst"]
  ∧ ∃ res w' tr,
      force_in_services Samples.shelf_api ctx files (PyList [PyStr "dst"]) 64
        Samples.shelf_world = Some (res, w')
      ∧ calls w' = calls Samples.shelf_world ++ tr
      ∧ Forall (permitted_call ctx ["dst"]) tr.
Proof.
  intros ctx files.
  assert (0 < 64) as Hbs by lia.
  split; [exact Hbs|]. split; [reflexivity|].
  exact (force_in_calls_are_permitted Samples.shelf_api ctx files (PyList [PyStr "dst"])
           ["dst"] 64 Samples.shelf_world Hbs eq_refl).
Defined.

Lemma force_in_summary_consistent_witness :
  let ctx := Samples.context "r2" 1 (Samples.force_in_action ["dst"]) [] in
  let files := [Samples.candidate "aa"; Samples.candidate "bb"; Samples.candidate "cc"] in
  0 < 64
  ∧ ∃ res w',
      force_in_services Samples.shelf_api ctx files (PyList [PyStr "dst"]) 64
        Samples.shelf_world = Some (res, w')
      ∧ initial_candidates (summary_counts res) = Z.of_nat (length files)
      ∧ copied_phase_success_count (summary_counts res)
        <= initial_candidates (summary_counts res)
      ∧ verified_phase_success_count (summary_counts res)
        <= copied_phase_success_count (summary_counts res)
      ∧ deleted_phase_success_count (summary_counts res)
        <= verified_phase_success_count (summary_counts res)
      ∧ 0 <= deleted_phase_success_count (summary_counts res)
      ∧ Z.of_nat (length (files_fully_successful res))
        = deleted_phase_success_count (summary_counts res)
      ∧ NoDup (files_fully_successful res)
      ∧ (fi_success res = true
         ↔ files_with_errors res = ∅
           ∧ length (files_fully_successful res) = length files).
Proof.
  intros ctx files.
  assert (0 < 64) as Hbs by lia.
  split; [exact Hbs|].
  exact (force_in_summary_consistent Samples.shelf_api ctx files (PyList [PyStr "dst"])
           64 Samples.shelf_world Hbs).
Defined.

End ForceInFacts.

(** ** The filtering and action stages of a rule execution *)

Module OrchestratorFacts.
Import Overrides Actions Orchestrator OverridesFacts ActionsFacts ExecutorFacts ForceInFacts.

Lemma override_filter_spec ctx files eligible :
  (∀ h, h ∈ files_to_attempt_action_on (override_filter ctx files eligible)
        ↔ h ∈ eligible ∧ (check_override ctx files h).1 = run)
  ∧ Z.of_nat (length (files_to_attempt_action_on (override_filter ctx files eligible)))
    + files_skipped_due_to_override (override_filter ctx files eligible)
    = Z.of_nat (length eligible).
Proof.
  unfold override_filter.
  set (step := override_step ctx files).
  assert (∀ l acc,
            (∀ h, h ∈ files_to_attempt_action_on (foldl step acc l)
                  ↔ h ∈ files_to_attempt_action_on acc
                    ∨ (h ∈ l ∧ (check_override ctx files h).1 = run))
            ∧ Z.of_nat (length (files_to_attempt_action_on (foldl step acc l)))
              + files_skipped_due_to_override (foldl step acc l)
              = Z.of_nat (length (files_to_attempt_action_on acc))
                + files_skipped_due_to_override acc + Z.of_nat (length l)) as Hgen.
  { induction l as [|x l IH]; intros acc; simpl.
    - split; [|lia]. intros h. rewrite elem_of_nil. tauto.
    - destruct (IH (step acc x)) as [Hin Hlen]. split.
      + intros h. rewrite Hin. unfold step, override_step.
        destruct (check_override ctx files x) as [[] reason] eqn:Hx; simpl.
        * rewrite elem_of_app, list_elem_of_singleton, elem_of_cons.
          split; [ | intros [?|[[->|?] ?]]; auto].
          intros [[?| ->]|[? ?]]; auto. right. split; [by left|]. by rewrite Hx.
        * rewrite elem_of_cons. split; [intros [?|[? ?]]; auto|].
          intros [?|[[->|?] Hr]]; auto. rewrite Hx in Hr. done.
      + rewrite Hlen. unfold step, override_step.
        destruct (check_override ctx files x) as [[] reason]; simpl;
          rewrite ?length_app; simpl; lia. }
  destruct (Hgen eligible {| files_to_attempt_action_on := [];
                             files_skipped_due_to_override := 0 |}) as [Hin Hlen].
  split.
  - intros h. rewrite Hin. simpl. rewrite elem_of_nil. tauto.
  - rewrite Hlen. simpl. lia.
Qed.

Lemma update_state_other ctx now files h h' :
  h' ≠ h → update_state_after_success ctx now files h !! h' = files !! h'.
Proof.
  intros Hne. unfold update_state_after_success.
  destruct (governed (action_type ctx)); simpl; [|done]. by rewrite lookup_insert_ne.
Qed.

Lemma record_successes_other ctx now files succeeded h :
  h ∉ succeeded → record_successes ctx now files succeeded !! h = files !! h.
Proof.
  unfold record_successes. revert files.
  induction succeeded as [|h0 l IH]; intros files Hh; simpl; [done|].
  rewrite IH by set_solver. apply update_state_other. set_solver.
Qed.

Lemma stored_record_lookup files1 files2 h :
  files1 !! h = files2 !! h → stored_record files1 h = stored_record files2 h.
Proof. unfold stored_record. by intros ->. Qed.

Lemma record_successes_recorded ctx now files succeeded h :
  governed (action_type ctx) = true →
  NoDup succeeded → h ∈ succeeded →
  stored_record (record_successes ctx now files succeeded) h
  = Some (mutate_state ctx (load_state (files !! h))).
Proof.
  intros Hg Hnd. revert files.
  induction Hnd as [|h0 l Hh0 Hnd IH]; intros files Hh; [by apply elem_of_nil in Hh|].
  change (record_successes ctx now files (h0 :: l))
    with (record_successes ctx now (update_state_after_success ctx (now h0) files h0) l).
  destruct (decide (h = h0)) as [->|Hne].
  - rewrite (stored_record_lookup _ (update_state_after_success ctx (now h0) files h0))
      by (by apply record_successes_other).
    by apply stored_record_update.
  - rewrite IH by set_solver. by rewrite update_state_other.
Qed.

Section Stages.
Context {S : Type} (respond : S → Request → ApiResult * S).
Implicit Types (w : World (S:=S)).

Lemma add_to_loop_footprint ctx items bs dests acc w (X : gset string) :
  0 < bs →
  (∀ h, h ∈ items → h ∈ X) →
  ∃ res w' tr,
    for_each (add_to_dest respond ctx items bs) dests acc w = Some (res, w')
    ∧ calls w' = calls w ++ tr
    ∧ Forall (call_within "/add_files/migrate_files" X) tr.
Proof.
  intros Hbs HX. revert acc w. induction dests as [|k dests IH]; intros acc w; simpl.
  - exists acc, w, []. by rewrite app_nil_r.
  - unfold bind at 1. unfold add_to_dest at 1. unfold bind.
    destruct (batch_footprint respond ctx "/add_files/migrate_files" "POST" items bs k
                180 w X Hbs HX) as (br & w1 & tr1 & -> & Hcalls1 & Htr1 & _).
    case_bool_decide; unfold ret;
      (edestruct IH as (res & w' & tr & -> & Hcalls & Htr);
       exists res, w', (tr1 ++ tr); split; [done|];
       split; [by rewrite Hcalls, Hcalls1, app_assoc|by apply Forall_app]).
Qed.

(** A run of [add_to_services]: its calls mention given files only, and
    only given files are reported. *)
Lemma add_to_services_run ctx items dests w :
  ∃ res w' tr,
    add_to_services respond ctx items dests 64 w = Some (res, w')
    ∧ calls w' = calls w ++ tr
    ∧ Forall (call_within "/add_files/migrate_files" (list_to_set items)) tr
    ∧ dom (files_with_some_errors res) ⊆ list_to_set items.
Proof.
  unfold add_to_services.
  destruct (bool_decide (items = []) || bool_decide (dests = [])).
  { eexists _, w, []. rewrite app_nil_r. simpl. split_and!; try done; set_solver. }
  match goal with |- context [for_each _ _ ?a w] => set (start := a) end.
  destruct (add_to_loop respond ctx items 64 dests start w ltac:(lia))
    as (res & w' & tr & Hrun & Hcalls & _ & _ & _ & _ & Hdom & _).
  destruct (add_to_loop_footprint ctx items 64 dests start w (list_to_set items)
              ltac:(lia)) as (res2 & w2 & tr2 & Hrun2 & Hcalls2 & Htr2).
  { intros h. by rewrite elem_of_list_to_set. }
  rewrite Hrun in Hrun2. injection Hrun2 as <- <-.
  rewrite Hcalls in Hcalls2. apply app_inv_head in Hcalls2 as <-.
  exists res, w', tr. split_and!; try done.
  simpl in Hdom. rewrite dom_empty_L in Hdom. set_solver.
Qed.

(** X21. The [add_to] stage after the override filter: every file the stage
    mentions to the client, and every file it counts as succeeded, was
    eligible and admitted by [check_override]; the succeeded files are the
    attempted files without any reported error; their rows, and no other
    row, are rewritten from the state found before the stage; and the rule
    keeps its success flag exactly when every attempted file succeeded. *)
Theorem add_to_stage_respects_overrides (ctx : RuleExecutionContext)
    (now : string → string) (files : FilesTable) (eligible : list string) (w : World) :
  action_type ctx = "add_to" →
  let attempt := files_to_attempt_action_on (override_filter ctx files eligible) in
  ∃ res w' tr,
    add_to_stage respond ctx now files attempt w = Some (res, w')
    ∧ calls w' = calls w ++ tr
    ∧ (∀ c h, c ∈ tr → h ∈ request_hashes c.1 →
              h ∈ eligible ∧ (check_override ctx files h).1 = run)
    ∧ (∀ h, h ∈ succeeded_hashes res →
            h ∈ eligible ∧ (check_override ctx files h).1 = run)
    ∧ (∀ h, h ∉ succeeded_hashes res → files_table res !! h = files !! h)
    ∧ (∀ h, h ∈ succeeded_hashes res →
            stored_record (files_table res) h
            = Some (mutate_state ctx (load_state (files !! h))))
    ∧ (overall_rule_success_flag res = true
       ↔ ∀ h, h ∈ attempt → h ∈ succeeded_hashes res).
Proof.
  intros Hty attempt.
  destruct (override_filter_spec ctx files eligible) as [Hattempt _].
  fold attempt in Hattempt.
  unfold add_to_stage, bind.
  destruct (add_to_services_run ctx attempt
              (default [] (destination_service_keys (action ctx))) w)
    as (result & w' & tr & -> & Hcalls & Htr & Hdom).
  unfold ret. eexists _, w', tr. split; [reflexivity|]. simpl.
  set (succeeded := elements (list_to_set attempt ∖ dom (files_with_some_errors result))).
  assert (∀ h, h ∈ succeeded ↔ h ∈ attempt ∧ h ∉ dom (files_with_some_errors result))
    as Hsucc.
  { intros h. unfold succeeded. rewrite elem_of_elements. set_solver. }
  split_and!; try done.
  - intros c h Hc Hh. apply Hattempt.
    eapply Forall_forall in Htr as [_ Hin]; [|exact Hc].
    specialize (Hin h Hh). by apply elem_of_list_to_set in Hin.
  - intros h [Hh _]%Hsucc. by apply Hattempt.
  - intros h Hh. by apply record_successes_other.
  - intros h Hh. apply record_successes_recorded; [|apply NoDup_elements|done].
    apply governed_cases. auto.
  - rewrite negb_true_iff, bool_decide_eq_false. split.
    + intros Hsize h Hh. apply Hsucc. split; [done|].
      assert (files_with_some_errors result = ∅) as ->; [|set_solver].
      apply map_size_empty_inv. lia.
    + intros Hall.
      assert (files_with_some_errors result = ∅) as ->; [|rewrite map_size_empty; lia].
      apply map_empty. intros h. apply not_elem_of_dom. intros Hh.
      assert (h ∈ attempt) as Ha.
      { apply (elem_of_list_to_set (C:=gset string)). set_solver. }
      apply Hall, Hsucc in Ha as [_ Hn]. done.
Qed.

Ltac no_elements :=
  intros; simpl in *; by match goal with H : _ ∈ [] |- _ => apply elem_of_nil in H end.

Lemma fetch_metadata_hashes ctx hs bs w :
  0 < bs →
  ∃ res w' tr,
    fetch_metadata respond ctx hs bs w = Some (res, w')
    ∧ calls w' = calls w ++ tr
    ∧ ∀ c h, c ∈ tr → h ∈ request_hashes c.1 → h ∈ hs.
Proof.
  intros Hbs. unfold fetch_metadata.
  case_bool_decide.
  { eexists _, w, []. rewrite app_nil_r. split_and!; try done. no_elements. }
  destruct (truthy_opt (api_address_of ctx)) eqn:Haddr; cbn [negb].
  2:{ eexists _, w, []. rewrite app_nil_r. split_and!; try done. no_elements. }
  unfold py_range.
  rewrite bool_decide_eq_false_2 by lia. rewrite bool_decide_eq_false_2 by lia.
  rewrite for_each_fmap. rewrite Nat2Z.id.
  pose proof (range_batches hs bs (length hs) 0 Hbs) as Hcons.
  rewrite drop_0 in Hcons. specialize (Hcons ltac:(lia)).
  destruct Hcons as (Hconcat & _ & _). change (Z.of_nat 0) with 0 in *.
  set (batches := (fun j => slice hs j bs) <$> _) in *.
  destruct (fetch_batches_accounts respond ctx 60 batches ([], []) w)
    as (fresh & errs & w' & tr & -> & Hcalls & Htr & _).
  eexists _, w', tr. split_and!; try done.
  intros c h Hc Hh.
  assert (c.1 ∈ tr.*1) as Hc1 by (apply list_elem_of_fmap; eauto).
  rewrite Htr in Hc1. apply list_elem_of_fmap in Hc1 as (b & Hb & Hin).
  rewrite Hb in Hh. simpl in Hh. rewrite <- Hconcat. apply elem_of_concat. eauto.
Qed.

(** The files [force_in_services] can touch, whatever the client answers. *)
Lemma force_in_footprint ctx files_metadata_list keys bs w :
  0 < bs →
  ∃ res w' tr,
    force_in_services respond ctx files_metadata_list keys bs w = Some (res, w')
    ∧ calls w' = calls w ++ tr
    ∧ (∀ c h, c ∈ tr → h ∈ request_hashes c.1 → h ∈ candidate_hashes files_metadata_list)
    ∧ (∀ h, h ∈ files_fully_successful res → h ∈ candidate_hashes files_metadata_list)
    ∧ NoDup (files_fully_successful res).
Proof.
  intros Hbs. unfold force_in_services.
  case_bool_decide as Hfiles.
  { eexists _, w, []. rewrite app_nil_r. simpl.
    split_and!; try done; try apply NoDup_nil_2; try no_elements. }
  destruct (valid_destination_keys keys) as [dest_keys|].
  2:{ eexists _, w, []. rewrite app_nil_r. simpl.
      split_and!; try done; try apply NoDup_nil_2; try no_elements. }
  unfold bind.
  set (C := list_to_set (candidate_hashes files_metadata_list) : gset string).
  assert (∀ h, h ∈ C → h ∈ candidate_hashes files_metadata_list) as HC.
  { intros h. unfold C. by rewrite elem_of_list_to_set. }
  destruct (copy_phase_spec respond ctx bs dest_keys C ∅ w Hbs)
    as (C1 & E1 & w1 & tr1 & -> & Hcalls1 & Htr1 & HC1 & _).
  assert (∀ c h, c ∈ tr1 → h ∈ request_hashes c.1 → h ∈ C) as Hh1.
  { intros c h Hc Hh. eapply Forall_forall in Htr1 as [_ Hin]; [|exact Hc]. auto. }
  cbn [fst snd].
  case_bool_decide as HC1e.
  { eexists _, w1, tr1. simpl.
    split_and!; try done; try apply NoDup_nil_2; try no_elements. eauto. }
  destruct (fetch_metadata_hashes ctx (elements C1) 256 w1 ltac:(lia))
    as ([fresh errs] & w2 & tr2 & -> & Hcalls2 & Hh2).
  cbv zeta. cbn [fst snd].
  destruct (discard_meta_errors_spec errs (C1, E1)) as [HC2 _].
  set (st2 := discard_meta_errors errs (C1, E1)) in *. simpl in HC2.
  destruct (verify_fold_spec st2.1 (list_to_set dest_keys) fresh (∅, st2.2)) as [HC3 _].
  set (st3 := foldl (verify_meta st2.1 (list_to_set dest_keys)) (∅, st2.2) fresh) in *.
  simpl in HC3.
  assert (st3.1 ⊆ C1) as Hsub3.
  { rewrite HC3, HC2. intros h. rewrite elem_of_union, elem_of_list_to_set.
    intros [?|Hh]; [set_solver|]. apply elem_of_pass_hashes in Hh. set_solver. }
  assert (∀ c h, c ∈ tr1 ++ tr2 → h ∈ request_hashes c.1 → h ∈ C) as Hh12.
  { intros c h [Hc|Hc]%elem_of_app Hh; [eauto|].
    apply HC1. apply elem_of_elements. eauto. }
  case_bool_decide as HC3e.
  { eexists _, w2, (tr1 ++ tr2). simpl. split; [reflexivity|].
    split; [by rewrite Hcalls2, Hcalls1, app_assoc|].
    split_and!; try apply NoDup_nil_2; try no_elements. eauto. }
  match goal with
  | |- context [delete_phase _ _ _ (deletions_by_service ?p) _ w2] => set (prep := p)
  end.
  destruct (delete_phase_spec respond ctx bs (deletions_by_service prep)
              (dp_verified prep) (dp_errors prep) w2 Hbs)
    as (D' & E' & w3 & tr3 & -> & Hcalls3 & Htr3 & _).
  assert (dp_verified prep ⊆ st3.1) as Hprep by apply delete_prep_verified.
  eexists _, w3, ((tr1 ++ tr2) ++ tr3). split; [reflexivity|]. simpl.
  split; [by rewrite Hcalls3, Hcalls2, Hcalls1, <- !app_assoc|].
  split_and!.
  - intros c h [Hc|Hc]%elem_of_app Hh; [eauto|].
    eapply Forall_forall in Htr3 as [_ Hin]; [|exact Hc].
    apply HC, HC1, Hsub3, Hprep. auto.
  - intros h [_ Hh]%list_elem_of_filter. apply elem_of_elements in Hh.
    apply HC, HC1, Hsub3, Hprep. done.
  - apply NoDup_filter, NoDup_elements.
Qed.

Lemma candidate_hashes_elem files h :
  h ∈ candidate_hashes files → ∃ fm, fm ∈ files ∧ hash fm = Some h.
Proof.
  unfold candidate_hashes. intros (fm & Hfm & Hh)%list_elem_of_omap.
  exists fm. split; [done|]. destruct (hash fm) as [h'|]; [|done].
  destruct (truthy h'); by simplify_eq.
Qed.

(** X22. The [force_in] stage after the override filter, for a client that
    answers a metadata query with one entry per requested hash: every file
    the stage mentions to the client, and every file it counts as
    succeeded, was eligible and admitted by [check_override]; the rows of
    the succeeded files, and no other row, are rewritten from the state
    found before the stage. *)
Theorem force_in_stage_respects_overrides (ctx : RuleExecutionContext)
    (now : string → string) (files : FilesTable) (eligible : list string) (w : World) :
  metadata_contract respond →
  action_type ctx = "force_in" →
  let attempt := files_to_attempt_action_on (override_filter ctx files eligible) in
  ∃ res w' tr,
    force_in_stage respond ctx now files attempt w = Some (res, w')
    ∧ calls w' = calls w ++ tr
    ∧ (∀ c h, c ∈ tr → h ∈ request_hashes c.1 →
              h ∈ eligible ∧ (check_override ctx files h).1 = run)
    ∧ (∀ h, h ∈ succeeded_hashes res →
            h ∈ eligible ∧ (check_override ctx files h).1 = run)
    ∧ (∀ h, h ∉ succeeded_hashes res → files_table res !! h = files !! h)
    ∧ (∀ h, h ∈ succeeded_hashes res →
            stored_record (files_table res) h
            = Some (mutate_state ctx (load_state (files !! h)))).
Proof.
  intros Hcontract Hty attempt.
  destruct (override_filter_spec ctx files eligible) as [Hattempt _].
  fold attempt in Hattempt.
  unfold force_in_stage, bind.
  destruct (fetch_metadata_spec respond ctx attempt 256 w (list_to_set attempt)
              ltac:(lia) Hcontract)
    as (fresh & errs & w1 & tr1 & good & -> & Hcalls1 & Htr1 & Hfresh & Hgood).
  { intros h. by rewrite elem_of_list_to_set. }
  cbn [fst snd].
  assert (∀ h, h ∈ candidate_hashes fresh → h ∈ attempt) as Hcand.
  { intros h (fm & Hfm & Hh)%candidate_hashes_elem.
    assert (Some h ∈ hash <$> fresh) as Hin.
    { rewrite <- Hh. apply list_elem_of_fmap. eauto. }
    rewrite Hfresh in Hin. apply list_elem_of_fmap in Hin as (h' & [= <-] & Hg).
    rewrite <- Hgood. set_solver. }
  destruct (force_in_footprint ctx fresh
              (PyList (PyStr <$> default [] (destination_service_keys (action ctx))))
              64 w1 ltac:(lia))
    as (result & w2 & tr2 & -> & Hcalls2 & Htr2 & Hfully & Hnd).
  unfold ret. eexists _, w2, (tr1 ++ tr2). split; [reflexivity|]. simpl.
  split; [by rewrite Hcalls2, Hcalls1, app_assoc|].
  split_and!.
  - intros c h [Hc|Hc]%elem_of_app Hh; apply Hattempt.
    + eapply Forall_forall in Htr1 as [_ Hin]; [|exact Hc].
      specialize (Hin h Hh). by apply elem_of_list_to_set in Hin.
    + eauto.
  - intros h Hh. apply Hattempt. auto.
  - intros h Hh. by apply record_successes_other.
  - intros h Hh. apply record_successes_recorded; [|done..].
    apply governed_cases. auto.
Qed.

Lemma fetch_batches_refused ctx t (batches : list (list string)) acc w :
  (∀ s req, endpoint req = "/get_files/file_metadata" → success (respond s req).1 = false) →
  ∃ errs w' tr,
    for_each (fetch_batch respond (request_for ctx "/get_files/file_metadata" "GET" t))
      batches acc w = Some ((acc.1, acc.2 ++ errs), w')
    ∧ calls w' = calls w ++ tr
    ∧ Forall (fun c => endpoint c.1 = "/get_files/file_metadata") tr.
Proof.
  intros Hrefused. revert acc w. induction batches as [|b batches IH]; intros acc w.
  - exists [], w, []. simpl. rewrite !app_nil_r. by destruct acc.
  - simpl. unfold bind at 1. unfold fetch_batch at 1. unfold bind, call_hydrus_api.
    set (req := request_for ctx "/get_files/file_metadata" "GET" t (MetadataParams b)).
    pose proof (Hrefused (remote w) req eq_refl) as Hno.
    destruct (respond (remote w) req) as [r s'] eqn:Hr. simpl in Hno. rewrite Hno. simpl.
    match goal with
    | |- context [for_each _ _ (_, _ ++ [?e]) _] => set (err := e)
    end.
    edestruct (IH (acc.1, acc.2 ++ [err])) as (errs & w' & tr & -> & Hcalls & Htr).
    exists (err :: errs), w', ((req, r) :: tr).
    split; [by simpl; rewrite <- app_assoc|].
    split; [by rewrite Hcalls; simpl; rewrite <- app_assoc|]. by constructor.
Qed.

(** X23. When the client refuses every metadata query, the [force_in] stage
    makes no other call, acts on no file and rewrites no row, and yet
    leaves the success flag of the rule set, with zero files counted as
    failed. *)
Theorem force_in_stage_without_metadata (ctx : RuleExecutionContext)
    (now : string → string) (files : FilesTable)
    (files_to_attempt_action_on : list string) (w : World) :
  (∀ s req, endpoint req = "/get_files/file_metadata" → success (respond s req).1 = false) →
  ∃ w' tr,
    force_in_stage respond ctx now files files_to_attempt_action_on w
    = Some ({| succeeded_hashes := []; succeeded_count_total := 0;
               failed_count_total := 0; overall_rule_success_flag := true;
               files_table := files |}, w')
    ∧ calls w' = calls w ++ tr
    ∧ Forall (fun c => endpoint c.1 = "/get_files/file_metadata") tr.
Proof.
  intros Hrefused. unfold force_in_stage, bind.
  assert (∃ errs w' tr,
            fetch_metadata respond ctx files_to_attempt_action_on 256 w
            = Some (([], errs), w')
            ∧ calls w' = calls w ++ tr
            ∧ Forall (fun c => endpoint c.1 = "/get_files/file_metadata") tr)
    as (errs & w' & tr & -> & Hcalls & Htr).
  { unfold fetch_metadata. case_bool_decide.
    { eexists _, w, []. rewrite app_nil_r. by split_and!. }
    destruct (truthy_opt (api_address_of ctx)); cbn [negb].
    2:{ eexists _, w, []. rewrite app_nil_r. by split_and!. }
    unfold py_range.
    rewrite bool_decide_eq_false_2 by lia. rewrite bool_decide_eq_false_2 by lia.
    rewrite for_each_fmap.
    edestruct (fetch_batches_refused ctx 60) as (errs & w' & tr & -> & Hcalls & Htr);
      [done|].
    eexists _, w', tr. by split_and!. }
  cbn [fst snd]. unfold force_in_services. rewrite bool_decide_eq_true_2 by done.
  unfold ret. exists w', tr. by split_and!.
Qed.

End Stages.

Lemma add_to_stage_respects_overrides_witness :
  let ctx := Samples.context "r1" 1 (Samples.add_to_action ["dst"]) [] in
  let eligible := ["f1"; "h2"; "h6"] in
  let now := fun _ : string => "2024-06-01T00:00:00Z" in
  let attempt :=
    files_to_attempt_action_on (override_filter ctx Samples.tracked eligible) in
  action_type ctx = "add_to"
  ∧ ∃ res w' tr,
      add_to_stage Samples.flaky_api ctx now Samples.tracked attempt Samples.fresh_world
      = Some (res, w')
      ∧ calls w' = calls Samples.fresh_world ++ tr
      ∧ (∀ c h, c ∈ tr → h ∈ request_hashes c.1 →
                h ∈ eligible ∧ (check_override ctx Samples.tracked h).1 = run)
      ∧ (∀ h, h ∈ succeeded_hashes res →
              h ∈ eligible ∧ (check_override ctx Samples.tracked h).1 = run)
      ∧ (∀ h, h ∉ succeeded_hashes res → files_table res !! h = Samples.tracked !! h)
      ∧ (∀ h, h ∈ succeeded_hashes res →
              stored_record (files_table res) h
              = Some (mutate_state ctx (load_state (Samples.tracked !! h))))
      ∧ (overall_rule_success_flag res = true
         ↔ ∀ h, h ∈ attempt → h ∈ succeeded_hashes res).
Proof.
  intros ctx eligible now attempt. split; [reflexivity|].
  exact (add_to_stage_respects_overrides Samples.flaky_api ctx now Samples.tracked
           eligible Samples.fresh_world eq_refl).
Defined.

Lemma force_in_stage_respects_overrides_witness :
  let ctx := Samples.context "r2" 4 (Samples.force_in_action ["dst"]) [] in
  let eligible := ["aa"; "bb"; "f1"] in
  let now := fun _ : string => "2024-06-01T00:00:00Z" in
  let attempt :=
    files_to_attempt_action_on (override_filter ctx Samples.tracked eligible) in
  metadata_contract Samples.shelf_api
  ∧ action_type ctx = "force_in"
  ∧ ∃ res w' tr,
      force_in_stage Samples.shelf_api ctx now Samples.tracked attempt Samples.shelf_world
      = Some (res, w')
      ∧ calls w' = calls Samples.shelf_world ++ tr
      ∧ (∀ c h, c ∈ tr → h ∈ request_hashes c.1 →
                h ∈ eligible ∧ (check_override ctx Samples.tracked h).1 = run)
      ∧ (∀ h, h ∈ succeeded_hashes res →
              h ∈ eligible ∧ (check_override ctx Samples.tracked h).1 = run)
      ∧ (∀ h, h ∉ succeeded_hashes res → files_table res !! h = Samples.tracked !! h)
      ∧ (∀ h, h ∈ succeeded_hashes res →
              stored_record (files_table res) h
              = Some (mutate_state ctx (load_state (Samples.tracked !! h)))).
Proof.
  intros ctx eligible now attempt.
  split; [exact shelf_api_contract|]. split; [reflexivity|].
  exact (force_in_stage_respects_overrides Samples.shelf_api ctx now Samples.tracked
           eligible Samples.shelf_world shelf_api_contract eq_refl).
Defined.

Lemma force_in_stage_without_metadata_witness :
  let ctx := Samples.context "r2" 4 (Samples.force_in_action ["dst"]) [] in
  let now := fun _ : string => "2024-06-01T00:00:00Z" in
  (∀ s req, endpoint req = "/get_files/file_metadata" →
            success (Samples.refusing_api s req).1 = false)
  ∧ ∃ w' tr,
      force_in_stage Samples.refusing_api ctx now Samples.tracked ["aa"; "bb"]
        Samples.fresh_world
      = Some ({| succeeded_hashes := []; succeeded_count_total := 0;
                 failed_count_total := 0; overall_rule_success_flag := true;
                 files_table := Samples.tracked |}, w')
      ∧ calls w' = calls Samples.fresh_world ++ tr
      ∧ Forall (fun c => endpoint c.1 = "/get_files/file_metadata") tr.
Proof.
  intros ctx now.
  assert (∀ s req, endpoint req = "/get_files/file_metadata" →
                   success (Samples.refusing_api s req).1 = false) as Hrefused by done.
  split; [exact Hrefused|].
  exact (force_in_stage_without_metadata Samples.refusing_api ctx now Samples.tracked
           ["aa"; "bb"] Samples.fresh_world Hrefused).
Defined.

End OrchestratorFacts.

(** ** The due set of a scheduler tick *)

Module TickFacts.
Import Scheduler.

Section Tick.
Context (parse_iso : string → option Z) (last_run_of : string → option string)
        (execution_override : Rule → ExecutionOverride).

Lemma custom_timed_set_ids_spec sets ids :
  custom_timed_set_ids sets = Some ids →
  ∀ i, i ∈ ids ↔ ∃ s, s ∈ sets ∧ set_id s = i ∧ custom_timed s.
Proof.
  revert ids. induction sets as [|s sets IH]; intros ids; simpl.
  - intros [= <-] i. split; [set_solver|]. by intros (s & ?%elem_of_nil & _).
  - unfold py_and, py_gt_zero.
    case_bool_decide as Hc; simpl.
    + destruct (set_interval_seconds s) as [| n | |] eqn:Hn; simpl; try done.
      destruct (custom_timed_set_ids sets) as [ids'|]; simpl; [|done].
      intros [= <-] i. specialize (IH ids' eq_refl i).
      case_bool_decide as Hpos.
      * rewrite elem_of_union, elem_of_singleton, IH. split.
        -- intros [->|(s' & Hs' & Hid & Hct)].
           ++ exists s. split; [by left|]. split; [done|]. split; [done|]. eauto.
           ++ exists s'. split; [by right|]. done.
        -- intros (s' & [->|Hs']%elem_of_cons & Hid & Hct); [by left|].
           right. eauto.
      * rewrite IH. split.
        -- intros (s' & Hs' & Hid & Hct). exists s'. split; [by right|]. done.
        -- intros (s' & [->|Hs']%elem_of_cons & Hid & Hct); [|eauto].
           destruct Hct as (_ & n' & Hn' & Hpos'). rewrite Hn in Hn'.
           injection Hn' as <-. done.
    + destruct (custom_timed_set_ids sets) as [ids'|]; simpl; [|done].
      intros [= <-] i. rewrite (IH ids' eq_refl i). split.
      * intros (s' & Hs' & Hid & Hct). exists s'. split; [by right|]. done.
      * intros (s' & [->|Hs']%elem_of_cons & Hid & Hct); [|eauto].
        by destruct Hct as [? _].
Qed.

Lemma custom_rules_due_spec now all_rules ids :
  custom_rules_due parse_iso last_run_of execution_override now all_rules ids = Some ids.
Proof.
  revert ids. induction all_rules as [|rule rest IH]; intros ids; simpl; [done|].
  unfold is_custom_rule. destruct (execution_override rule). simpl. apply IH.
Qed.

Lemma sets_due_spec app_state associations custom_ids now sets
    (st : gset string * gset string) :
  let st' := foldl (set_due parse_iso app_state associations custom_ids now) st sets in
  (∀ i, i ∈ st'.2
        ↔ i ∈ st.2
          ∨ ∃ s, s ∈ sets ∧ set_id s = i ∧ i ∈ custom_ids
                 ∧ is_due parse_iso (app_state !! ("last_run_ts_set_" +:+ i))
                          (set_interval_seconds s) now = true)
  ∧ (∀ r, r ∈ st'.1
          ↔ r ∈ st.1
            ∨ ∃ s assoc, s ∈ sets ∧ set_id s ∈ custom_ids
                         ∧ is_due parse_iso
                                  (app_state !! ("last_run_ts_set_" +:+ set_id s))
                                  (set_interval_seconds s) now = true
                         ∧ assoc ∈ associations
                         ∧ assoc_set_id assoc = set_id s
                         ∧ assoc_rule_id assoc = r).
Proof.
  revert st. induction sets as [|s sets IH]; intros st; simpl.
  - split; intros x; (split; [auto|]).
    + by intros [?|(? & ?%elem_of_nil & _)].
    + by intros [?|(? & ? & ?%elem_of_nil & _)].
  - destruct (IH (set_due parse_iso app_state associations custom_ids now st s))
      as [Htrig Hids].
    split.
    + intros i. rewrite Htrig. unfold set_due.
      destruct (bool_decide (set_id s ∈ custom_ids)
                && is_due parse_iso _ (set_interval_seconds s) now) eqn:Hdue; simpl.
      * apply andb_true_iff in Hdue as [Hin%bool_decide_eq_true Hdue].
        rewrite elem_of_union, elem_of_singleton. split.
        -- intros [[->|?]|(s' & Hs' & ? & ? & ?)]; auto.
           ++ right. exists s. split; [by left|]. done.
           ++ right. exists s'. split; [by right|]. done.
        -- intros [?|(s' & [->|Hs']%elem_of_cons & Hid & ? & ?)]; auto.
           right. eauto 10.
      * split.
        -- intros [?|(s' & Hs' & ? & ? & ?)]; auto.
           right. exists s'. split; [by right|]. done.
        -- intros [?|(s' & [->|Hs']%elem_of_cons & Hid & Hin & Hd)]; auto.
           ++ subst i. rewrite Hd, andb_true_r in Hdue.
              by apply bool_decide_eq_false in Hdue.
           ++ right. eauto 10.
    + intros r. rewrite Hids. unfold set_due.
      destruct (bool_decide (set_id s ∈ custom_ids)
                && is_due parse_iso _ (set_interval_seconds s) now) eqn:Hdue; simpl.
      * apply andb_true_iff in Hdue as [Hin%bool_decide_eq_true Hdue].
        rewrite elem_of_union, elem_of_list_to_set, list_elem_of_fmap. split.
        -- intros [[(assoc & -> & [Ha Hassoc]%list_elem_of_filter)|?]
                  |(s' & assoc & Hs' & ?)]; auto.
           ++ right. exists s, assoc. split; [by left|]. done.
           ++ right. exists s', assoc. split; [by right|]. done.
        -- intros [?|(s' & assoc & [->|Hs']%elem_of_cons & Hc & Hd & Ha & Hs & Hr)]; auto.
           ++ left. left. exists assoc. split; [done|]. by apply list_elem_of_filter.
           ++ right. eauto 10.
      * split.
        -- intros [?|(s' & assoc & Hs' & ?)]; auto.
           right. exists s', assoc. split; [by right|]. done.
        -- intros [?|(s' & assoc & [->|Hs']%elem_of_cons & Hc & Hd & ?)]; auto.
           ++ rewrite Hd, andb_true_r in Hdue.
              by apply bool_decide_eq_false in Hdue.
           ++ right. eauto 10.
Qed.

Lemma global_rules_due_spec global now governed all_rules ids :
  ∃ ids',
    global_rules_due parse_iso last_run_of execution_override global now governed
      all_rules ids = Some ids'
    ∧ ∀ r, r ∈ ids'
           ↔ r ∈ ids
             ∨ ∃ rule, rule ∈ all_rules ∧ (id rule = r) ∧ (r ∉ governed)
                       ∧ is_due parse_iso (last_run_of r) (PyInt global) now = true.
Proof.
  revert ids. induction all_rules as [|rule rest IH]; intros ids; simpl.
  - exists ids. split; [done|]. intros r. split; [auto|].
    by intros [?|(? & ?%elem_of_nil & _)].
  - unfold is_custom_rule. destruct (execution_override rule). simpl.
    match goal with |- context [global_rules_due _ _ _ _ _ _ rest ?a] => set (ids1 := a) end.
    destruct (IH ids1) as (ids' & -> & Hids'). exists ids'. split; [done|].
    intros r. rewrite Hids'. unfold ids1.
    destruct (bool_decide (id rule ∈ governed)) eqn:Hg; simpl.
    + apply bool_decide_eq_true in Hg. split.
      * intros [?|(rule' & Hr & ?)]; auto. right. exists rule'. split; [by right|]. done.
      * intros [?|(rule' & [->|Hr]%elem_of_cons & Hid & Hng & ?)]; auto.
        -- subst r. done.
        -- right. eauto.
    + apply bool_decide_eq_false in Hg.
      destruct (is_due parse_iso (last_run_of (id rule)) (PyInt global) now) eqn:Hd.
      * rewrite elem_of_union, elem_of_singleton. split.
        -- intros [[->|?]|(rule' & Hr & ?)]; auto.
           ++ right. exists rule. split; [by left|]. done.
           ++ right. exists rule'. split; [by right|]. done.
        -- intros [?|(rule' & [->|Hr]%elem_of_cons & Hid & ?)]; auto.
           right. eauto.
      * split.
        -- intros [?|(rule' & Hr & ?)]; auto. right. exists rule'. split; [by right|]. done.
        -- intros [?|(rule' & [->|Hr]%elem_of_cons & Hid & Hng & Hdue)]; auto.
           ++ subst r. congruence.
           ++ right. eauto.
Qed.

Lemma custom_timed_set_ids_total sets :
  custom_sets_have_intervals sets → is_Some (custom_timed_set_ids sets).
Proof.
  induction 1 as [|s sets Hs _ [ids IH]]; simpl; [by eexists|].
  rewrite IH. unfold py_and, py_gt_zero.
  case_bool_decide as Hc; simpl; [|by eexists].
  destruct Hs as [?|[n ->]]; [done|]. simpl. by eexists.
Qed.

(** X24. The due set of a tick, when there are rules, the sets have
    distinct ids and every set marked custom carries an integer interval.
    A set is triggered exactly when it has a schedule of its own that is
    due; a rule is due exactly when it belongs to a triggered set, or when
    the global interval is positive, the rule is loaded, belongs to no set
    with a schedule of its own, and the global interval has elapsed since
    its last run.  The interval stored with a rule itself plays no part. *)
Theorem tick_due_characterised (global_interval tick_start_time : Z)
    (all_rules : list Rule) (sets : list RuleSet) (associations : list Association)
    (app_state : gmap string string) :
  all_rules ≠ [] →
  NoDup (set_id <$> sets) →
  custom_sets_have_intervals sets →
  ∃ ids triggered,
    tick_due parse_iso last_run_of execution_override global_interval tick_start_time
      all_rules sets associations app_state = Some (ids, triggered)
    ∧ (∀ i, i ∈ triggered
            ↔ ∃ s, s ∈ sets ∧ set_id s = i ∧ custom_timed s
                   ∧ is_due parse_iso (app_state !! ("last_run_ts_set_" +:+ i))
                            (set_interval_seconds s) tick_start_time = true)
    ∧ (∀ r, r ∈ ids
            ↔ (∃ assoc, assoc ∈ associations ∧ assoc_rule_id assoc = r
                        ∧ assoc_set_id assoc ∈ triggered)
              ∨ (global_interval > 0
                 ∧ (∃ rule, rule ∈ all_rules ∧ id rule = r)
                 ∧ (¬ ∃ assoc s, assoc ∈ associations ∧ assoc_rule_id assoc = r
                                 ∧ s ∈ sets ∧ set_id s = assoc_set_id assoc
                                 ∧ custom_timed s)
                 ∧ is_due parse_iso (last_run_of r) (PyInt global_interval)
                          tick_start_time = true)).
Proof.
  intros Hrules Hnd Hsets. unfold tick_due. rewrite bool_decide_eq_false_2 by done.
  destruct (custom_timed_set_ids_total sets Hsets) as [custom_ids Hcustom].
  rewrite Hcustom. simpl. rewrite custom_rules_due_spec. simpl.
  pose proof (custom_timed_set_ids_spec sets custom_ids Hcustom) as Hids.
  destruct (sets_due_spec app_state associations custom_ids tick_start_time sets (∅, ∅))
    as [Htrig Hdue].
  set (st := foldl _ (∅, ∅) sets) in *. simpl in Htrig, Hdue.
  assert (∀ i, i ∈ st.2
               ↔ ∃ s, s ∈ sets ∧ set_id s = i ∧ custom_timed s
                      ∧ is_due parse_iso (app_state !! ("last_run_ts_set_" +:+ i))
                               (set_interval_seconds s) tick_start_time = true)
    as Htrig'.
  { intros i. rewrite Htrig. split.
    - intros [?|(s & Hs & Hi & Hc & Hd)]; [set_solver|].
      apply Hids in Hc as (s' & Hs' & Hi' & Hct).
      assert (s' = s) as ->.
      { apply (ActionsFacts.NoDup_fmap_eq set_id sets); [done..|congruence]. }
      eauto.
    - intros (s & Hs & Hi & Hct & Hd). right. exists s. split_and!; try done.
      apply Hids. eauto. }
  assert (∀ r, r ∈ st.1
               ↔ ∃ assoc, assoc ∈ associations ∧ assoc_rule_id assoc = r
                          ∧ assoc_set_id assoc ∈ st.2) as Hdue'.
  { intros r. rewrite Hdue. split.
    - intros [?|(s & assoc & Hs & Hc & Hd & Ha & Hsid & Hr)]; [set_solver|].
      exists assoc. split_and!; try done. apply Htrig. right.
      exists s. rewrite Hsid. eauto.
    - intros (assoc & Ha & Hr & [?|(s & Hs & Hi & Hc & Hd)]%Htrig); [set_solver|].
      right. exists s, assoc. rewrite Hi. split_and!; try done. }
  assert (∀ r, r ∉ rules_governed_by_sets associations custom_ids
               ↔ ¬ ∃ assoc s, assoc ∈ associations ∧ assoc_rule_id assoc = r
                              ∧ s ∈ sets ∧ set_id s = assoc_set_id assoc
                              ∧ custom_timed s) as Hgov.
  { intros r. unfold rules_governed_by_sets.
    rewrite elem_of_list_to_set, list_elem_of_fmap. split.
    - intros Hn (assoc & s & Ha & Hr & Hs & Hsid & Hct). apply Hn.
      exists assoc. split; [done|]. apply list_elem_of_filter. split; [|done].
      apply Hids. eauto.
    - intros Hn (assoc & -> & [Hc Ha]%list_elem_of_filter). apply Hn.
      apply Hids in Hc as (s & Hs & Hsid & Hct). eauto 10. }
  case_bool_decide as Hglobal; simpl.
  - destruct (global_rules_due_spec global_interval tick_start_time
                (rules_governed_by_sets associations custom_ids) all_rules st.1)
      as (ids' & -> & Hids'). simpl.
    exists ids', st.2. split; [done|]. split; [exact Htrig'|].
    intros r. rewrite Hids', Hdue'. split.
    + intros [?|(rule & Hrule & Hid & Hng & Hd)]; [by left|].
      right. split_and!; try done; [eauto|]. by apply Hgov.
    + intros [?|(_ & (rule & Hrule & Hid) & Hng & Hd)]; [by left|].
      right. exists rule. split_and!; try done. by apply Hgov.
  - exists st.1, st.2. split; [done|]. split; [exact Htrig'|].
    intros r. rewrite Hdue'. split; [by left|]. intros [?|[? _]]; done.
Qed.

(** X25. A set marked custom whose interval is not an integer makes the
    tick raise while it collects the sets with a schedule of their own, so
    that no rule at all is found due, whatever the other schedules say. *)
Theorem tick_raises_on_custom_set_without_interval (global_interval tick_start_time : Z)
    (all_rules : list Rule) (sets : list RuleSet) (associations : list Association)
    (app_state : gmap string string) (s : RuleSet) :
  all_rules ≠ [] →
  s ∈ sets →
  set_execution_override s = Some "custom" →
  set_interval_seconds s = PyNone →
  tick_due parse_iso last_run_of execution_override global_interval tick_start_time
    all_rules sets associations app_state = None.
Proof.
  intros Hrules Hs Hc Hn. unfold tick_due. rewrite bool_decide_eq_false_2 by done.
  assert (custom_timed_set_ids sets = None) as ->; [|done].
  induction sets as [|s' sets IH]; [by apply elem_of_nil in Hs|]. simpl.
  apply elem_of_cons in Hs as [<-|Hs].
  - rewrite Hc, Hn. unfold py_and, py_gt_zero.
    by rewrite bool_decide_eq_true_2.
  - rewrite (IH Hs). by destruct (py_and _ _).
Qed.

End Tick.

Lemma tick_due_characterised_witness :
  let all_rules := AppConfig.load_rules Samples.three_rules Samples.three_rules_table in
  let sets := [Samples.nightly; Samples.misc] in
  let never := fun _ : string => @None string in
  all_rules ≠ []
  ∧ NoDup (set_id <$> sets)
  ∧ custom_sets_have_intervals sets
  ∧ ∃ ids triggered,
      tick_due Samples.seconds_clock never Samples.dict_override 0 1000000000
        all_rules sets Samples.memberships ∅ = Some (ids, triggered)
      ∧ (∀ i, i ∈ triggered
              ↔ ∃ s, s ∈ sets ∧ set_id s = i ∧ custom_timed s
                     ∧ is_due Samples.seconds_clock
                              ((∅ : gmap string string) !! ("last_run_ts_set_" +:+ i))
                              (set_interval_seconds s) 1000000000 = true)
      ∧ (∀ r, r ∈ ids
              ↔ (∃ assoc, assoc ∈ Samples.memberships ∧ assoc_rule_id assoc = r
                          ∧ assoc_set_id assoc ∈ triggered)
                ∨ (0 > 0
                   ∧ (∃ rule, rule ∈ all_rules ∧ id rule = r)
                   ∧ (¬ ∃ assoc s, assoc ∈ Samples.memberships ∧ assoc_rule_id assoc = r
                                   ∧ s ∈ sets ∧ set_id s = assoc_set_id assoc
                                   ∧ custom_timed s)
                   ∧ is_due Samples.seconds_clock (never r) (PyInt 0) 1000000000 = true)).
Proof.
  intros all_rules sets never.
  assert (all_rules ≠ []) as Hrules by (by vm_compute).
  assert (NoDup (set_id <$> sets)) as Hnd.
  { simpl. apply NoDup_cons. split; [|apply NoDup_singleton].
    by intros [=]%list_elem_of_singleton. }
  assert (custom_sets_have_intervals sets) as Hsets.
  { apply Forall_cons. split; [right; by eexists|].
    apply Forall_cons. split; [by left|]. apply Forall_nil_2. }
  split; [exact Hrules|]. split; [exact Hnd|]. split; [exact Hsets|].
  exact (tick_due_characterised Samples.seconds_clock never Samples.dict_override
           0 1000000000 all_rules sets Samples.memberships ∅ Hrules Hnd Hsets).
Defined.

Lemma tick_raises_on_custom_set_without_interval_witness :
  let all_rules := AppConfig.load_rules Samples.three_rules Samples.three_rules_table in
  let sets := [Samples.nightly; Samples.unfinished] in
  let never := fun _ : string => @None string in
  all_rules ≠ []
  ∧ Samples.unfinished ∈ sets
  ∧ tick_due Samples.seconds_clock never Samples.dict_override 60 1000000000
      all_rules sets Samples.memberships ∅ = None.
Proof.
  intros all_rules sets never.
  assert (all_rules ≠ []) as Hrules by (by vm_compute).
  assert (Samples.unfinished ∈ sets) as Hs by (right; left).
  split; [exact Hrules|]. split; [exact Hs|].
  exact (tick_raises_on_custom_set_without_interval Samples.seconds_clock never
           Samples.dict_override 60 1000000000 all_rules sets Samples.memberships ∅
           Samples.unfinished Hrules Hs eq_refl eq_refl).
Defined.

End TickFacts.

(** ** Clearing an edited or deleted rule from the governance records *)

Module ClearingFacts.
Import Overrides Database Views OverridesFacts GovernanceFacts.

Lemma remove_first_absent x l : x ∉ l → remove_first x l = l.
Proof.
  induction l as [|y l IH]; simpl; [done|]. intros Hx.
  rewrite bool_decide_eq_false_2 by set_solver. rewrite IH by set_solver. done.
Qed.

Lemma remove_first_NoDup x l :
  NoDup l → (x ∉ remove_first x l) ∧ NoDup (remove_first x l).
Proof.
  induction 1 as [|y l Hy Hnd IH]; simpl; [split; [set_solver|constructor]|].
  case_bool_decide as Hxy.
  - subst. done.
  - destruct IH as [IH1 IH2]. split; [set_solver|].
    constructor; [|done]. intros Hin. apply Hy.
    clear -Hin. induction l as [|z l IHl]; simpl in *; [done|].
    case_bool_decide; [by right|]. apply elem_of_cons in Hin as [->|?]; [by left|].
    right. auto.
Qed.

Lemma stored_record_row files h row st :
  files !! h = Some row → stored_record files h = Some st →
  row_rules_in_application row = JsonOf (rules_in_application st)
  ∧ row_force_in_priority_governance row = force_in_priority_governance st
  ∧ row_correct_placement row = JsonOf (correct_placement st)
  ∧ row_affected_rating_services row = JsonOf (affected_rating_services st)
  ∧ row_rating_priority_governance row = JsonOf (rating_priority_governance st).
Proof.
  unfold stored_record. intros ->. simpl.
  destruct (row_rules_in_application row) as [a|]; simpl; [|done].
  destruct (row_correct_placement row) as [b|]; simpl; [|done].
  destruct (row_affected_rating_services row) as [c|]; simpl; [|done].
  destruct (row_rating_priority_governance row) as [d|]; simpl; [|done].
  by intros [= <-].
Qed.

Lemma clear_row_decoded id t d now row files h st :
  files !! h = Some row → stored_record files h = Some st →
  ∃ row', clear_row id t d now row = Some row'
          ∧ stored_record {[ h := row' ]} h = Some (cleared_state id t d st).
Proof.
  intros Hrow Hst.
  destruct (stored_record_row _ _ _ _ Hrow Hst) as (Ha & Hb & Hc & Hd & He).
  unfold clear_row. rewrite Ha, Hc, Hd, He. simpl.
  unfold stored_record, cleared_state.
  repeat case_bool_decide; simplify_eq; eexists; (split; [reflexivity|]);
    rewrite lookup_singleton_eq; simpl; by rewrite ?Hb.
Qed.

Section Clearing.
Context (like_matches : string → json_text (list string) → bool).
Hypothesis Hlike : like_decoded like_matches.

Lemma clear_lookup files id t d now h :
  rows_decode files →
  (clear_rule_from_file_state like_matches files id t d now).2 !! h
  = match files !! h with
    | Some row =>
      if like_matches id (row_rules_in_application row)
      then clear_row id t d (now h) row else Some row
    | None => None
    end.
Proof.
  intros Hrows. unfold clear_rule_from_file_state.
  set (affected := filter _ files).
  assert (∀ h row, affected !! h = Some row
                   ↔ files !! h = Some row
                     ∧ like_matches id (row_rules_in_application row) = true) as Haff.
  { intros h' row. unfold affected. by rewrite map_lookup_filter_Some. }
  case_bool_decide as Hempty; simpl.
  { destruct (files !! h) as [row|] eqn:Hrow; [|done].
    destruct (like_matches id (row_rules_in_application row)) eqn:Hm; [|done].
    assert (affected !! h = Some row) as Hin by (by apply Haff).
    rewrite Hempty, lookup_empty in Hin. done. }
  rewrite bool_decide_eq_true_2.
  2:{ intros h' row [Hrow _]%Haff.
      destruct (Hrows h' row Hrow) as (st & Hst & _).
      destruct (clear_row_decoded id t d (now h') row files h' st Hrow Hst)
        as (row' & -> & _). by eexists. }
  simpl. rewrite lookup_union, map_lookup_imap.
  destruct (files !! h) as [row|] eqn:Hrow.
  - destruct (like_matches id (row_rules_in_application row)) eqn:Hm.
    + assert (affected !! h = Some row) as -> by (by apply Haff). simpl.
      destruct (Hrows h row Hrow) as (st & Hst & _).
      destruct (clear_row_decoded id t d (now h) row files h st Hrow Hst)
        as (row' & -> & _). done.
    + assert (affected !! h = None) as ->; [|done].
      apply eq_None_not_Some. intros [row' [Hrow' Hm']%Haff]. congruence.
  - assert (affected !! h = None) as ->; [|done].
    apply eq_None_not_Some. intros [row' [Hrow' Hm']%Haff]. congruence.
Qed.

Lemma stored_record_of_lookup files1 files2 h :
  files1 !! h = files2 !! h → stored_record files1 h = stored_record files2 h.
Proof. unfold stored_record. by intros ->. Qed.

Lemma stored_record_is_Some files h st :
  stored_record files h = Some st → ∃ row, files !! h = Some row.
Proof. unfold stored_record. destruct (files !! h); [eauto|done]. Qed.

(** One call of [clear_rule_from_file_state] on a table whose rows decode. *)
Lemma clear_call files id t d now :
  rows_decode files →
  let files' := (clear_rule_from_file_state like_matches files id t d now).2 in
  rows_decode files'
  ∧ (∀ h st, stored_record files h = Some st →
             stored_record files' h
             = Some (if bool_decide (id ∈ rules_in_application st)
                     then cleared_state id t d st else st))
  ∧ (∀ h st, stored_record files' h = Some st → id ∉ rules_in_application st).
Proof.
  intros Hrows files'.
  assert (∀ h st, stored_record files h = Some st →
                  stored_record files' h
                  = Some (if bool_decide (id ∈ rules_in_application st)
                          then cleared_state id t d st else st)) as Hstep.
  { intros h st Hst. destruct (stored_record_is_Some _ _ _ Hst) as [row Hrow].
    pose proof (clear_lookup files id t d now h Hrows) as Hl. fold files' in Hl.
    rewrite Hrow in Hl.
    destruct (stored_record_row _ _ _ _ Hrow Hst) as (Ha & _).
    rewrite Ha, Hlike in Hl.
    case_bool_decide.
    - destruct (clear_row_decoded id t d (now h) row files h st Hrow Hst)
        as (row' & Hrow' & Hst').
      rewrite <- Hst'. apply stored_record_of_lookup.
      by rewrite Hl, Hrow', lookup_singleton_eq.
    - rewrite <- Hst. apply stored_record_of_lookup. by rewrite Hl, Hrow. }
  assert (∀ h row', files' !! h = Some row' →
                    ∃ st, stored_record files h = Some st
                          ∧ NoDup (rules_in_application st)) as Hback.
  { intros h row' Hrow'.
    pose proof (clear_lookup files id t d now h Hrows) as Hl. fold files' in Hl.
    rewrite Hrow' in Hl. destruct (files !! h) as [row|] eqn:Hrow; [|done].
    by apply (Hrows h row). }
  split_and!; [|done|].
  - intros h row' Hrow'. destruct (Hback h row' Hrow') as (st & Hst & Hnd).
    rewrite (Hstep h st Hst). eexists. split; [done|].
    case_bool_decide; [|done]. simpl. by apply remove_first_NoDup.
  - intros h st' Hst'. destruct (stored_record_is_Some _ _ _ Hst') as [row' Hrow'].
    destruct (Hback h row' Hrow') as (st & Hst & Hnd).
    rewrite (Hstep h st Hst) in Hst'. injection Hst' as <-.
    case_bool_decide; [|done]. simpl. by apply remove_first_NoDup.
Qed.

(** A call for a rule that no row lists changes nothing. *)
Lemma clear_call_absent files id t d now :
  rows_decode files →
  (∀ h st, stored_record files h = Some st → id ∉ rules_in_application st) →
  (clear_rule_from_file_state like_matches files id t d now).2 = files.
Proof.
  intros Hrows Habs. apply map_eq. intros h.
  rewrite clear_lookup by done.
  destruct (files !! h) as [row|] eqn:Hrow; [|done].
  destruct (Hrows h row Hrow) as (st & Hst & _).
  destruct (stored_record_row _ _ _ _ Hrow Hst) as (Ha & _).
  rewrite Ha, Hlike. rewrite bool_decide_eq_false_2; [done|]. eauto.
Qed.

(** The loop over the old destinations: only its first turn has an effect. *)
Lemma clear_loop files id t d dests now :
  rows_decode files →
  foldl (fun files dest =>
           (clear_rule_from_file_state like_matches files id t dest now).2)
        files (d :: dests)
  = (clear_rule_from_file_state like_matches files id t d now).2.
Proof.
  intros Hrows. simpl.
  destruct (clear_call files id t d now Hrows) as (Hrows' & _ & Habs).
  set (files' := (clear_rule_from_file_state like_matches files id t d now).2) in *.
  clearbody files'. induction dests as [|d' dests IH]; simpl; [done|].
  by rewrite clear_call_absent.
Qed.

Lemma elem_of_remove_first_ne x y l : y ≠ x → y ∈ remove_first x l ↔ y ∈ l.
Proof.
  intros Hne. induction l as [|z l IH]; simpl; [done|].
  destruct (decide (z = x)) as [->|Hzx].
  - rewrite bool_decide_eq_true_2 by done.
    split; [by right|]. by intros [?|?]%elem_of_cons.
  - rewrite bool_decide_eq_false_2 by done. split.
    + intros [->|?]%elem_of_cons; [by left|]. right. by apply IH.
    + intros [->|?]%elem_of_cons; [by left|]. right. by apply IH.
Qed.

Lemma clear_old_rule_state_dests files rule_id a t d dests now :
  rows_decode files →
  action_type_field a = Some t →
  t = "add_to" ∨ t = "force_in" →
  destination_service_keys a = Some (d :: dests) →
  clear_old_rule_state like_matches files rule_id a now
  = (clear_rule_from_file_state like_matches files rule_id t d now).2.
Proof.
  intros Hrows Ht Hty Hd. unfold clear_old_rule_state, _get_rule_action_details.
  rewrite Ht, Hd.
  rewrite (bool_decide_eq_false_2 (Some t = Some "rating")) by (destruct Hty; by subst).
  rewrite (bool_decide_eq_true_2 (Some t ∈ [Some "add_to"; Some "force_in"]))
    by (destruct Hty; subst; [left|right; left]).
  assert (truthy_opt (Some t) = true) as -> by (destruct Hty; by subst).
  cbn [dest_list default]. rewrite bool_decide_eq_false_2 by done. cbn [negb andb].
  by apply clear_loop.
Qed.

(** X27. Clearing the state of an edited or deleted [add_to] or [force_in]
    rule with several destinations, on a table whose rows decode and for a
    rule id that the LIKE test finds exactly in the lists that hold it:
    the loop over the old destinations has the effect of its first turn
    only.  On every file that listed the rule, the rule is removed and the
    first destination is taken out of the recorded placement, while every
    other destination of the rule stays recorded. *)
Theorem clearing_covers_first_destination_only (files : FilesTable) (edited_rule_id : string)
    (old_rule_action : Action) (old_type d : string) (dests : list string)
    (now : string → string) :
  rows_decode files →
  action_type_field old_rule_action = Some old_type →
  old_type = "add_to" ∨ old_type = "force_in" →
  destination_service_keys old_rule_action = Some (d :: dests) →
  let files' := clear_old_rule_state like_matches files edited_rule_id old_rule_action now in
  files' = (clear_rule_from_file_state like_matches files edited_rule_id old_type d now).2
  ∧ ∀ h st, stored_record files h = Some st →
            edited_rule_id ∈ rules_in_application st →
            ∃ st', stored_record files' h = Some st'
                   ∧ (edited_rule_id ∉ rules_in_application st')
                   ∧ correct_placement st' = remove_first d (correct_placement st)
                   ∧ ∀ d', d' ≠ d → d' ∈ correct_placement st' ↔ d' ∈ correct_placement st.
Proof.
  intros Hrows Ht Hty Hd files'.
  assert (files' = (clear_rule_from_file_state like_matches files edited_rule_id old_type d now).2)
    as Hfiles by (by eapply clear_old_rule_state_dests).
  split; [done|]. intros h st Hst Hin.
  destruct (clear_call files edited_rule_id old_type d now Hrows) as (_ & Hstep & Habs).
  rewrite <- Hfiles in Hstep, Habs.
  specialize (Hstep h st Hst). rewrite bool_decide_eq_true_2 in Hstep by done.
  eexists. split; [exact Hstep|]. split; [by eapply Habs|].
  assert (correct_placement (cleared_state edited_rule_id old_type d st)
          = remove_first d (correct_placement st)) as ->.
  { unfold cleared_state. simpl. destruct Hty; subst; done. }
  split; [done|]. intros d' Hne. by apply elem_of_remove_first_ne.
Qed.

Lemma check_override_force_in_decoded ctx files h st :
  stored_record files h = Some st →
  action_type ctx = "force_in" →
  rule_id ctx ∉ override_bypass_list ctx →
  (check_override ctx files h).1 = run
  ↔ rule_importance ctx > force_in_priority_governance st.
Proof.
  intros Hst Hty Hb. destruct (stored_record_is_Some _ _ _ Hst) as [row Hrow].
  destruct (stored_record_row _ _ _ _ Hrow Hst) as (_ & Hfip & _ & _ & Hrpg).
  unfold check_override. rewrite (bool_decide_eq_false_2 _ Hb).
  assert (governed (action_type ctx) = true) as -> by (apply governed_cases; auto).
  simpl. rewrite Hrow, Hrpg, Hty, Hfip. simpl.
  case_bool_decide; simpl; split; (done || lia).
Qed.

(** X28. Clearing the state of an edited or deleted [force_in] rule resets
    the force-in priority to -1 on every file that lists the rule, whatever
    priority was recorded there and whichever rule recorded it: afterwards
    every [force_in] rule of non-negative importance outside the bypass
    list runs on such a file. *)
Theorem clearing_force_in_rule_resets_priority (files : FilesTable) (edited_rule_id : string)
    (old_rule_action : Action) (d : string) (dests : list string)
    (now : string → string) (later : RuleExecutionContext) (h : string) (st : FileState) :
  rows_decode files →
  action_type_field old_rule_action = Some "force_in" →
  destination_service_keys old_rule_action = Some (d :: dests) →
  stored_record files h = Some st →
  edited_rule_id ∈ rules_in_application st →
  action_type later = "force_in" →
  rule_id later ∉ override_bypass_list later →
  0 <= rule_importance later →
  let files' := clear_old_rule_state like_matches files edited_rule_id old_rule_action now in
  (∃ st', stored_record files' h = Some st' ∧ force_in_priority_governance st' = -1)
  ∧ (check_override later files' h).1 = run.
Proof.
  intros Hrows Ht Hd Hst Hin Hl Hb Himp files'.
  assert (files' = (clear_rule_from_file_state like_matches files edited_rule_id "force_in" d now).2)
    as Hfiles by (eapply clear_old_rule_state_dests; eauto).
  destruct (clear_call files edited_rule_id "force_in" d now Hrows) as (_ & Hstep & _).
  rewrite <- Hfiles in Hstep.
  specialize (Hstep h st Hst). rewrite bool_decide_eq_true_2 in Hstep by done.
  split; [eauto|].
  apply (check_override_force_in_decoded later files' h _ Hstep Hl Hb). simpl. lia.
Qed.

End Clearing.

(** X26. Editing or deleting a [modify_rating] rule clears nothing: the
    action type the routes look for is "rating", so the table is left as it
    was, and the priority the rule recorded for its rating service keeps
    governing the file: a later [modify_rating] rule on that service,
    outside the bypass list, still runs only when its importance is
    strictly greater. *)
Theorem clearing_rating_rule_keeps_its_priority
    (like_matches : string → json_text (list string) → bool)
    (winner later : RuleExecutionContext) (now1 : string) (now2 : string → string)
    (files : FilesTable) (file_hash svc : string) :
  svc ≠ "" →
  targets_rating winner svc →
  targets_rating later svc →
  rule_id later ∉ override_bypass_list later →
  let files1 := update_state_after_success winner now1 files file_hash in
  let files2 := clear_old_rule_state like_matches files1 (rule_id winner) (action winner)
                  now2 in
  files2 = files1
  ∧ ((check_override later files2 file_hash).1 = run
     ↔ rule_importance later > rule_importance winner).
Proof.
  intros Hsvc [Hw Hwk] [Hl Hlk] Hb files1 files2.
  assert (action_type_field (action winner) = Some "modify_rating") as Hfield.
  { revert Hw. unfold action_type. destruct (action_type_field (action winner)); simpl;
      [by intros ->|done]. }
  assert (files2 = files1) as ->.
  { unfold files2, clear_old_rule_state, _get_rule_action_details. by rewrite Hfield. }
  split; [done|]. unfold files1.
  rewrite check_override_after_update by (try done; apply governed_cases; auto).
  unfold check_override. rewrite (bool_decide_eq_false_2 _ Hb).
  assert (governed (action_type later) = true) as -> by (apply governed_cases; auto).
  simpl. rewrite lookup_singleton_eq. simpl.
  rewrite Hl, Hlk. simpl. rewrite (truthy_ne _ Hsvc).
  unfold mutate_state. rewrite Hw, Hwk. simpl. rewrite (truthy_ne _ Hsvc). simpl.
  rewrite lookup_insert_eq. simpl.
  case_bool_decide; simpl; split; (done || lia).
Qed.

Lemma like_by_membership_decoded : like_decoded Samples.like_by_membership.
Proof. by intros rule_id l. Qed.

Lemma tracked_rows_decode : rows_decode Samples.tracked.
Proof.
  intros h row Hrow. unfold Samples.tracked in Hrow.
  apply lookup_singleton_Some in Hrow as [<- <-]. eexists. split; [reflexivity|].
  apply NoDup_singleton.
Qed.

Lemma clearing_covers_first_destination_only_witness :
  let a := Samples.add_to_action ["old"; "dst"] in
  let now := fun _ : string => "2024-06-01T00:00:00Z" in
  let files' := clear_old_rule_state Samples.like_by_membership Samples.tracked "r0" a now in
  like_decoded Samples.like_by_membership
  ∧ rows_decode Samples.tracked
  ∧ files' = (clear_rule_from_file_state Samples.like_by_membership Samples.tracked
                "r0" "add_to" "old" now).2
  ∧ ∀ h st, stored_record Samples.tracked h = Some st →
            "r0" ∈ rules_in_application st →
            ∃ st', stored_record files' h = Some st'
                   ∧ ("r0" ∉ rules_in_application st')
                   ∧ correct_placement st' = remove_first "old" (correct_placement st)
                   ∧ ∀ d', d' ≠ "old" →
                           d' ∈ correct_placement st' ↔ d' ∈ correct_placement st.
Proof.
  intros a now files'.
  split; [exact like_by_membership_decoded|]. split; [exact tracked_rows_decode|].
  exact (clearing_covers_first_destination_only Samples.like_by_membership
           like_by_membership_decoded Samples.tracked "r0" a "add_to" "old" ["dst"] now
           tracked_rows_decode eq_refl (or_introl eq_refl) eq_refl).
Defined.

Lemma clearing_force_in_rule_resets_priority_witness :
  let a := Samples.force_in_action ["old"] in
  let now := fun _ : string => "2024-06-01T00:00:00Z" in
  let later := Samples.context "r2" 0 (Samples.force_in_action ["dst"]) [] in
  let files' := clear_old_rule_state Samples.like_by_membership Samples.tracked "r0" a now in
  like_decoded Samples.like_by_membership
  ∧ rows_decode Samples.tracked
  ∧ (check_override later Samples.tracked "f1").1 = skipped
  ∧ (∃ st', stored_record files' "f1" = Some st' ∧ force_in_priority_governance st' = -1)
  ∧ (check_override later files' "f1").1 = run.
Proof.
  intros a now later files'.
  split; [exact like_by_membership_decoded|]. split; [exact tracked_rows_decode|].
  split; [reflexivity|].
  apply (clearing_force_in_rule_resets_priority Samples.like_by_membership
           like_by_membership_decoded Samples.tracked "r0" a "old" [] now later "f1"
           {| rules_in_application := ["r0"]; force_in_priority_governance := 3;
              correct_placement := ["old"]; affected_rating_services := ["stars"];
              rating_priority_governance := {[ "stars" := 5 ]} |}
           tracked_rows_decode eq_refl eq_refl eq_refl).
  - by left.
  - reflexivity.
  - apply not_elem_of_nil.
  - done.
Defined.

Lemma clearing_rating_rule_keeps_its_priority_witness :
  let winner := Samples.context "r5" 7 (Samples.modify_rating_action "stars") [] in
  let later := Samples.context "r6" 6 (Samples.modify_rating_action "stars") [] in
  let now2 := fun _ : string => "2024-06-01T00:00:00Z" in
  let files1 := update_state_after_success winner "now" Samples.tracked "f1" in
  let files2 := clear_old_rule_state Samples.like_by_membership files1 (rule_id winner)
                  (action winner) now2 in
  "stars" ≠ ""
  ∧ files2 = files1
  ∧ ((check_override later files2 "f1").1 = run ↔ 6 > 7).
Proof.
  intros winner later now2. split; [done|].
  apply (clearing_rating_rule_keeps_its_priority Samples.like_by_membership winner later
           "now" now2 Samples.tracked "f1" "stars"); try done.
  apply not_elem_of_nil.
Defined.

End ClearingFacts.

(** ** Pruning duplicate log entries *)

Module PruningFacts.
Import Database OrderFacts.

Lemma py_slice_elem {A} (l : list A) start stop x : x ∈ py_slice l start stop → x ∈ l.
Proof.
  unfold py_slice. intros Hx.
  eapply elem_of_sublist; [exact Hx|]. etrans; [apply sublist_take|apply sublist_drop].
Qed.

Lemma py_slice_to_zero {A} (l : list A) start : py_slice l start (- 0) = [].
Proof.
  change (- 0) with 0. unfold py_slice.
  rewrite (bool_decide_eq_false_2 (0 < 0)) by lia.
  match goal with |- take ?n _ = _ => assert (n = 0%nat) as -> end; [|done].
  case_bool_decide; lia.
Qed.

Lemma sql_eq_true a b : sql_eq a b = true → ∃ x, a = Some x ∧ b = Some x.
Proof.
  destruct a as [x|], b as [y|]; simpl; try done.
  intros ->%bool_decide_eq_true. eauto.
Qed.

Lemma group_log_ids_elem logs g i :
  i ∈ group_log_ids logs g →
  ∃ r msg, r ∈ logs ∧ log_id r = i ∧ log_message r = Some msg ∧ group_of r = g.
Proof.
  destruct g as [[[fh rl] st] msg]. unfold group_log_ids.
  rewrite (py_sorted_perm Z.ltb (fun i : Z => i)).
  intros (r & -> & [(Hf & Hr & Hs & Hm) Hin]%list_elem_of_filter)%list_elem_of_fmap.
  apply sql_eq_true in Hm as (x & Hm & ->).
  exists r, x. split_and!; try done. unfold group_of. by rewrite Hf, Hr, Hs, Hm.
Qed.


Lemma filter_filter_elem {A} (P1 P2 : A → Prop) `{∀ x, Decision (P1 x)}
    `{∀ x, Decision (P2 x)} (l : list A) :
  (∀ x, x ∈ l → P1 x → P2 x) → filter P1 (filter P2 l) = filter P1 l.
Proof.
  induction l as [|x l IH]; intros HP; [done|].
  rewrite !(filter_cons _ x). rewrite <- IH by (intros y ?; apply HP; by right).
  destruct (decide (P2 x)) as [H2|H2].
  - by rewrite filter_cons.
  - rewrite decide_False; [done|]. intros H1. apply H2, HP; [by left|done].
Qed.

Lemma filter_all {A} (P : A → Prop) `{∀ x, Decision (P x)} (l : list A) :
  (∀ x, x ∈ l → P x) → filter P l = l.
Proof.
  induction l as [|x l IH]; intros HP; [done|].
  rewrite filter_cons, decide_True by (apply HP; by left).
  rewrite IH; [done|]. intros y ?. apply HP. by right.
Qed.

Lemma filter_none {A} (P : A → Prop) `{∀ x, Decision (P x)} (l : list A) :
  (∀ x, x ∈ l → ¬ P x) → filter P l = [].
Proof.
  induction l as [|x l IH]; intros HP; [done|].
  rewrite filter_cons, decide_False by (apply HP; by left).
  apply IH. intros y ?. apply HP. by right.
Qed.

Lemma sorted_NoDup_ids logs : StronglySorted by_id logs → NoDup (log_id <$> logs).
Proof.
  induction 1 as [|r logs Hs IH Hr]; simpl; [apply NoDup_nil_2|].
  apply NoDup_cons. split; [|done].
  intros (r' & Hid & Hr')%list_elem_of_fmap.
  eapply Forall_forall in Hr; [|exact Hr']. unfold by_id in Hr. lia.
Qed.

Lemma sorted_ids_sorted logs :
  StronglySorted by_id logs →
  AppConfig.py_sorted Z.ltb (fun i : Z => i) (log_id <$> logs) = log_id <$> logs.
Proof.
  intros Hs. apply py_sorted_id.
  apply (StronglySorted_fmap log_id by_id); [|done].
  intros a b Hab. unfold by_id in Hab. apply Z.ltb_ge. lia.
Qed.

Lemma group_log_ids_message logs fh rl st msg :
  StronglySorted by_id logs →
  group_log_ids logs (fh, rl, st, Some msg)
  = log_id <$> filter (fun r => group_of r = (fh, rl, st, Some msg)) logs.
Proof.
  intros Hs. unfold group_log_ids.
  rewrite (list_filter_iff _ (fun r => group_of r = (fh, rl, st, Some msg))).
  - apply sorted_ids_sorted. by apply StronglySorted_filter.
  - intros r. unfold group_of. split.
    + intros (-> & -> & -> & (x & -> & [= ->])%sql_eq_true). done.
    + intros [= -> -> -> ->]. split_and!; try done. simpl. by rewrite bool_decide_eq_true_2.
Qed.

Lemma group_log_ids_null logs fh rl st : group_log_ids logs (fh, rl, st, None) = [].
Proof.
  unfold group_log_ids.
  rewrite filter_none; [done|].
  intros r _ (_ & _ & _ & Hm). by destruct (log_message r).
Qed.

Lemma py_slice_keep {A} (l : list A) ko kn :
  0 <= ko → 0 < kn →
  py_slice l ko (- kn)
  = take (length l - Z.to_nat kn - Z.to_nat ko) (drop (Z.to_nat ko) l).
Proof.
  intros Hko Hkn. unfold py_slice.
  rewrite (bool_decide_eq_true_2 (- kn < 0)) by lia.
  rewrite (bool_decide_eq_false_2 (ko < 0)) by lia.
  destruct (decide (ko <= Z.of_nat (length l))) as [Hle|Hgt].
  - rewrite Z.min_l by lia. f_equal. lia.
  - rewrite Z.min_r by lia. rewrite Nat2Z.id.
    rewrite drop_all, (drop_ge l (Z.to_nat ko)) by lia. by rewrite !take_nil.
Qed.

(** Deleting a window of ids from a list without duplicate ids. *)
Lemma filter_window {A B} `{EqDecision B} (f : A → B) (l : list A) (a m : nat) :
  NoDup (f <$> l) →
  filter (fun r => f r ∉ take m (drop a (f <$> l))) l = take a l ++ drop (a + m) l.
Proof.
  intros Hnd.
  assert (l = take a l ++ take m (drop a l) ++ drop (a + m) l) as Hl.
  { rewrite <- drop_drop. by rewrite !take_drop. }
  rewrite <- fmap_drop, <- fmap_take.
  set (l1 := take a l) in *. set (l2 := take m (drop a l)) in *.
  set (l3 := drop (a + m) l) in *. clearbody l1 l2 l3. subst l.
  rewrite !fmap_app in Hnd.
  apply NoDup_app in Hnd as (_ & H12 & Hnd).
  apply NoDup_app in Hnd as (_ & H23 & _).
  rewrite !filter_app. rewrite (filter_all _ l1), (filter_none _ l2), (filter_all _ l3);
    [done|..].
  - intros x Hx Hin. apply (H23 (f x)); [done|]. apply list_elem_of_fmap; eauto.
  - intros x Hx Hnot. apply Hnot. apply list_elem_of_fmap; eauto.
  - intros x Hx Hin. apply (H12 (f x)); [apply list_elem_of_fmap; eauto|].
    rewrite elem_of_app. by left.
Qed.

Section Prune.
Context (max_variables : nat).

(** What one turn of the loop can delete. *)
Lemma prune_group_step ko kn total logs g total' logs' :
  NoDup (log_id <$> logs) →
  prune_group max_variables ko kn (Some (total, logs)) g = Some (total', logs') →
  logs' `sublist_of` logs
  ∧ total' = total + (Z.of_nat (length logs) - Z.of_nat (length logs'))
  ∧ ∀ r, r ∈ logs → r ∉ logs' → ∃ msg, log_message r = Some msg ∧ group_of r = g.
Proof.
  intros Hnd. unfold prune_group.
  case_bool_decide as Hids.
  { intros [= <- <-]. split; [done|]. split; [lia|]. done. }
  case_bool_decide; [done|]. intros [= <- <-].
  split; [apply sublist_filter|]. split; [done|].
  intros r Hr Hnot.
  assert (log_id r ∈ py_slice (group_log_ids logs g) ko (- kn)) as Hin.
  { destruct (decide (log_id r ∈ py_slice (group_log_ids logs g) ko (- kn))); [done|].
    destruct Hnot. by apply list_elem_of_filter. }
  apply py_slice_elem, group_log_ids_elem in Hin as (r' & msg & Hr' & Hid & Hm & Hg).
  assert (r' = r) as -> by (by apply (ActionsFacts.NoDup_fmap_eq log_id logs)).
  eauto.
Qed.

Lemma sublist_NoDup_fmap {A B} (f : A → B) (l1 l2 : list A) :
  l1 `sublist_of` l2 → NoDup (f <$> l2) → NoDup (f <$> l1).
Proof.
  intros Hsub Hnd. exact (sublist_NoDup _ _ Hnd (fmap_sublist f _ _ Hsub)).
Qed.

Lemma prune_fold_none ko kn groups :
  foldl (prune_group max_variables ko kn) None groups = None.
Proof. induction groups as [|g groups IH]; simpl; [done|exact IH]. Qed.

Lemma prune_fold ko kn groups total logs0 logs total' logs' :
  NoDup (log_id <$> logs0) →
  logs `sublist_of` logs0 →
  foldl (prune_group max_variables ko kn) (Some (total, logs)) groups
  = Some (total', logs') →
  logs' `sublist_of` logs
  ∧ total' = total + (Z.of_nat (length logs) - Z.of_nat (length logs'))
  ∧ ∀ r, r ∈ logs → r ∉ logs' →
         ∃ msg, log_message r = Some msg ∧ group_of r ∈ groups.
Proof.
  intros Hnd. revert total logs.
  induction groups as [|g groups IH]; intros total logs Hsub; cbn [foldl].
  - intros [= <- <-]. split; [done|]. split; [lia|]. done.
  - destruct (prune_group max_variables ko kn (Some (total, logs)) g)
      as [[total1 logs1]|] eqn:Hstep.
    2:{ by rewrite prune_fold_none. }
    apply prune_group_step in Hstep as (Hsub1 & Htot1 & Hdel1);
      [|by eapply sublist_NoDup_fmap].
    intros Hfold. apply IH in Hfold as (Hsub' & Htot' & Hdel'); [|by etrans].
    split; [by etrans|]. split; [lia|].
    intros r Hr Hnot. destruct (decide (r ∈ logs1)) as [Hin1|Hnin1].
    + destruct (Hdel' r Hin1 Hnot) as (msg & Hm & Hg). exists msg. split; [done|]. by right.
    + destruct (Hdel1 r Hr Hnin1) as (msg & Hm & Hg). exists msg. split; [done|].
      rewrite <- Hg. by left.
Qed.

(** X29. Pruning never removes a log entry whose message is NULL, however
    many duplicates it has: the second query compares the message with
    [=], which no NULL satisfies.  And with [keep_newest = 0] nothing at all
    is removed, since the slice [log_ids[keep_oldest:-0]] is empty. *)
Theorem prune_keeps_entries_without_message (logs : list LogRow)
    (keep_oldest keep_newest : Z) :
  NoDup (log_id <$> logs) →
  (∀ r, r ∈ logs → log_message r = None →
        r ∈ (prune_duplicate_logs max_variables logs keep_oldest keep_newest).2)
  ∧ prune_duplicate_logs max_variables logs keep_oldest 0 = (0, logs).
Proof.
  intros Hnd. split.
  - intros r Hr Hm. unfold prune_duplicate_logs.
    case_bool_decide; [done|].
    destruct (foldl _ _ _) as [[total' logs']|] eqn:Hfold; [|done]. simpl.
    apply prune_fold with (logs0 := logs) in Hfold as (_ & _ & Hdel); [|done..].
    destruct (decide (r ∈ logs')) as [|Hnot]; [done|].
    destruct (Hdel r Hr Hnot) as (msg & Hm' & _). congruence.
  - unfold prune_duplicate_logs. case_bool_decide; [done|].
    assert (∀ groups st,
              foldl (prune_group max_variables keep_oldest 0) (Some st) groups = Some st)
      as ->; [|done].
    induction groups as [|g groups IH]; intros [total l]; simpl; [done|].
    rewrite py_slice_to_zero. rewrite bool_decide_eq_true_2 by done. apply IH.
Qed.

(** The rows of a group that a turn of the loop keeps. *)
Lemma prune_group_turn ko kn total logs g :
  0 <= ko → 0 < kn →
  StronglySorted by_id logs →
  (length logs ≤ max_variables)%nat →
  ∃ logs',
    prune_group max_variables ko kn (Some (total, logs)) g
    = Some (total + (Z.of_nat (length logs) - Z.of_nat (length logs')), logs')
    ∧ StronglySorted by_id logs'
    ∧ (length logs' ≤ length logs)%nat
    ∧ (∀ g', g' ≠ g → filter (fun r => group_of r = g') logs'
                      = filter (fun r => group_of r = g') logs)
    ∧ (g.2 = None → logs' = logs)
    ∧ (∀ msg, g.2 = Some msg →
         let rows := filter (fun r => group_of r = g) logs in
         filter (fun r => group_of r = g) logs'
         = take (Z.to_nat ko) rows
           ++ drop (Z.to_nat ko + (length rows - Z.to_nat kn - Z.to_nat ko)) rows).
Proof.
  intros Hko Hkn Hs Hmax.
  pose proof (sorted_NoDup_ids logs Hs) as Hnd.
  destruct g as [[[fh rl] st] [msg|]].
  2:{ exists logs. unfold prune_group. rewrite group_log_ids_null.
      assert (py_slice (A:=Z) [] ko (- kn) = []) as ->.
      { unfold py_slice. by rewrite drop_nil, take_nil. }
      rewrite bool_decide_eq_true_2 by done.
      split_and!; try done. f_equal. f_equal. lia. }
  set (g := (fh, rl, st, Some msg)).
  set (rows := filter (fun r => group_of r = g) logs).
  set (D := py_slice (group_log_ids logs g) ko (- kn)).
  assert (D = take (length rows - Z.to_nat kn - Z.to_nat ko)
                   (drop (Z.to_nat ko) (log_id <$> rows))) as HD.
  { unfold D, g. rewrite group_log_ids_message by done.
    rewrite py_slice_keep by done. by rewrite length_fmap. }
  set (kept := filter (fun r => log_id r ∉ D) logs).
  assert (∀ r, r ∈ logs → log_id r ∈ D → group_of r = g) as Hgroup.
  { intros r Hr Hin. rewrite HD in Hin.
    assert (log_id r ∈ log_id <$> rows) as Hin'.
    { eapply elem_of_sublist; [exact Hin|].
      etrans; [apply sublist_take|apply sublist_drop]. }
    apply list_elem_of_fmap in Hin' as (r' & Hid & [Hg Hr']%list_elem_of_filter).
    assert (r' = r) as <-; [|done].
    by apply (ActionsFacts.NoDup_fmap_eq log_id logs). }
  exists kept.
  assert (prune_group max_variables ko kn (Some (total, logs)) g
          = Some (total + (Z.of_nat (length logs) - Z.of_nat (length kept)), kept)) as Hrun.
  { unfold prune_group. fold D. case_bool_decide as HDe.
    - assert (kept = logs) as ->.
      { unfold kept. rewrite HDe. apply filter_all. intros r _. apply not_elem_of_nil. }
      f_equal. f_equal. lia.
    - rewrite bool_decide_eq_false_2; [done|].
      assert (length D ≤ length rows)%nat.
      { rewrite HD, length_take, length_drop, length_fmap. lia. }
      assert (length rows ≤ length logs)%nat by apply length_filter.
      lia. }
  split; [exact Hrun|]. split_and!.
  - by apply StronglySorted_filter.
  - apply length_filter.
  - intros g' Hne. unfold kept. apply filter_filter_elem.
    intros r Hr Hg' Hin. apply Hne. rewrite <- Hg'. by apply Hgroup.
  - done.
  - intros msg' _. cbv zeta. fold rows. unfold kept.
    rewrite list_filter_filter.
    rewrite (list_filter_iff _ (fun r => (log_id r ∉ D) ∧ group_of r = g))
      by (intros r; tauto).
    rewrite <- list_filter_filter. fold rows. rewrite HD.
    apply filter_window. eapply sublist_NoDup_fmap; [apply sublist_filter|done].
Qed.

Lemma prune_groups ko kn groups total logs :
  0 <= ko → 0 < kn →
  StronglySorted by_id logs →
  (length logs ≤ max_variables)%nat →
  NoDup groups →
  ∃ logs',
    foldl (prune_group max_variables ko kn) (Some (total, logs)) groups
    = Some (total + (Z.of_nat (length logs) - Z.of_nat (length logs')), logs')
    ∧ (length logs' ≤ length logs)%nat
    ∧ (∀ g, g ∉ groups → filter (fun r => group_of r = g) logs'
                         = filter (fun r => group_of r = g) logs)
    ∧ (∀ g msg, g ∈ groups → g.2 = Some msg →
         let rows := filter (fun r => group_of r = g) logs in
         filter (fun r => group_of r = g) logs'
         = take (Z.to_nat ko) rows
           ++ drop (Z.to_nat ko + (length rows - Z.to_nat kn - Z.to_nat ko)) rows).
Proof.
  intros Hko Hkn Hs Hmax Hnd. revert total logs Hs Hmax.
  induction Hnd as [|g groups Hg Hnd IH]; intros total logs Hs Hmax; cbn [foldl].
  - exists logs. split_and!; try done; [f_equal; f_equal; lia|].
    by intros g msg ?%elem_of_nil.
  - destruct (prune_group_turn ko kn total logs g Hko Hkn Hs Hmax)
      as (logs1 & -> & Hs1 & Hlen1 & Hother & Hnull & Hrows).
    destruct (IH (total + (Z.of_nat (length logs) - Z.of_nat (length logs1))) logs1 Hs1
                ltac:(lia)) as (logs' & -> & Hlen' & Hout & Hin).
    exists logs'. split; [f_equal; f_equal; lia|]. split; [lia|]. split.
    + intros g' Hg'. rewrite Hout by set_solver. apply Hother. set_solver.
    + intros g' msg [->|Hg']%elem_of_cons Hmsg; cbv zeta.
      * rewrite Hout by done. by apply (Hrows msg).
      * rewrite (Hin g' msg Hg' Hmsg). cbv zeta.
        rewrite Hother; [done|]. intros ->. done.
Qed.

(** X30. On a table listed by ascending id that fits the parameter limit,
    pruning with [keep_oldest >= 0] and [keep_newest > 0] succeeds and
    returns the number of rows it removed; rows are only removed, never
    reordered; and of a group of entries with the same file, run, status
    and (non-NULL) message that has more than [keep_oldest + keep_newest]
    entries, exactly the [keep_oldest] first and the [keep_newest] last
    remain, while a smaller group is left as it is. *)
Theorem prune_keeps_oldest_and_newest (logs : list LogRow) (keep_oldest keep_newest : Z) :
  0 <= keep_oldest → 0 < keep_newest →
  StronglySorted by_id logs →
  (length logs ≤ max_variables)%nat →
  ∃ logs',
    prune_duplicate_logs max_variables logs keep_oldest keep_newest
    = (Z.of_nat (length logs) - Z.of_nat (length logs'), logs')
    ∧ ∀ g msg, g.2 = Some msg →
        let rows := filter (fun r => group_of r = g) logs in
        filter (fun r => group_of r = g) logs'
        = if bool_decide (Z.of_nat (length rows) > keep_oldest + keep_newest)
          then take (Z.to_nat keep_oldest) rows
               ++ drop (length rows - Z.to_nat keep_newest) rows
          else rows.
Proof.
  intros Hko Hkn Hs Hmax. unfold prune_duplicate_logs.
  set (groups := groups_to_prune logs (keep_oldest + keep_newest)).
  assert (∀ g, g ∈ groups
               ↔ Z.of_nat (length (filter (fun r => group_of r = g) logs))
                 > keep_oldest + keep_newest) as Hgroups.
  { intros g. unfold groups, groups_to_prune.
    rewrite list_elem_of_filter, elem_of_remove_dups. split; [by intros [? _]|].
    intros Hcount. split; [done|].
    destruct (filter (fun r => group_of r = g) logs) as [|r rows] eqn:Hrows;
      [simpl in Hcount; lia|].
    assert (r ∈ filter (fun r => group_of r = g) logs) as Hr by (rewrite Hrows; by left).
    apply list_elem_of_filter in Hr as [<- Hr]. apply list_elem_of_fmap. eauto. }
  case_bool_decide as Hnone.
  - exists logs. split; [f_equal; lia|]. intros g msg _. cbv zeta.
    rewrite bool_decide_eq_false_2; [done|].
    intros Hcount%Hgroups. rewrite Hnone in Hcount. by apply elem_of_nil in Hcount.
  - destruct (prune_groups keep_oldest keep_newest groups 0 logs Hko Hkn Hs Hmax)
      as (logs' & -> & _ & Hout & Hin).
    { unfold groups, groups_to_prune. apply NoDup_filter, NoDup_remove_dups. }
    exists logs'. split; [f_equal; lia|]. intros g msg Hmsg. cbv zeta.
    case_bool_decide as Hcount.
    + rewrite (Hin g msg) by (try done; by apply Hgroups). cbv zeta.
      do 2 f_equal. lia.
    + apply Hout. by rewrite Hgroups.
Qed.

End Prune.

Lemma prune_keeps_entries_without_message_witness :
  NoDup (log_id <$> Samples.silent_log_table)
  ∧ (∀ r, r ∈ Samples.silent_log_table → log_message r = None →
          r ∈ (prune_duplicate_logs 999 Samples.silent_log_table 2 3).2)
  ∧ prune_duplicate_logs 999 Samples.silent_log_table 2 0
    = (0, Samples.silent_log_table).
Proof.
  assert (NoDup (log_id <$> Samples.silent_log_table)) as Hnd.
  { vm_compute. repeat (apply NoDup_cons; split; [set_solver|]). apply NoDup_nil_2. }
  split; [exact Hnd|].
  exact (prune_keeps_entries_without_message 999 Samples.silent_log_table 2 3 Hnd).
Defined.

Lemma prune_keeps_oldest_and_newest_witness :
  (0 <= 2) ∧ (0 < 3)
  ∧ StronglySorted by_id Samples.log_table
  ∧ (length Samples.log_table ≤ 999)%nat
  ∧ ∃ logs',
      prune_duplicate_logs 999 Samples.log_table 2 3
      = (Z.of_nat (length Samples.log_table) - Z.of_nat (length logs'), logs')
      ∧ ∀ g msg, g.2 = Some msg →
          let rows := filter (fun r => group_of r = g) Samples.log_table in
          filter (fun r => group_of r = g) logs'
          = if bool_decide (Z.of_nat (length rows) > 2 + 3)
            then take (Z.to_nat 2) rows ++ drop (length rows - Z.to_nat 3) rows
            else rows.
Proof.
  assert (StronglySorted by_id Samples.log_table) as Hs.
  { unfold Samples.log_table. simpl.
    repeat (apply SSorted_cons; [|repeat constructor; unfold by_id; simpl; lia]).
    apply SSorted_nil. }
  assert (length Samples.log_table ≤ 999)%nat as Hmax by (vm_compute; lia).
  split; [lia|]. split; [lia|]. split; [exact Hs|]. split; [exact Hmax|].
  apply (prune_keeps_oldest_and_newest 999 Samples.log_table 2 3); [lia|lia|exact Hs|exact Hmax].
Defined.

End PruningFacts.
